(** * fast-trie: a shallow embedding of [src/index.js]

    The JavaScript source is an object-oriented, dynamically typed radix
    trie.  The embedding keeps its shape:

    - JavaScript values are an inductive type [value]; objects carry their
      class ([MultiValue] or a plain object) and their own properties;
    - a method that mutates [this] becomes a function returning the new
      [node]; an object stored in an array slot and mutated in place is
      written back to that slot;
    - an operation can return, throw a JavaScript exception, or leave the
      modelled fragment; this is the [outcome] monad;
    - recursion that is not structural (the [find] loop, [add], the
      constructor calling [_explode] calling the constructor) takes fuel.

    The two npm packages the source requires, [long] and
    [binary-search-bounds], and [Array.prototype.sort] are modelled from
    their documented behaviour. *)

From Stdlib Require Import ZArith List String Ascii Bool Lia DecimalString Sorted.
Import ListNotations.
Open Scope Z_scope.

Set Implicit Arguments.
#[local] Set Warnings "-register-all".

(* ================================================================== *)
(** * Outcomes *)

(** The only exception the source can raise is the engine's [TypeError]
    (a property read on [undefined], a call of something that is not a
    function). *)
Inductive exn : Type := TypeError.

(** Why an evaluation of the model stopped without an answer. *)
Inductive halt : Type :=
| OutOfFuel      (* the fuel given to a recursive function ran out *)
| Unmodelled.    (* the input leaves the modelled fragment of JavaScript *)

Inductive outcome (A : Type) : Type :=
| Ret (a : A)
| Throw (e : exn)
| Halt (h : halt).

Arguments Ret {A} a.
Arguments Throw {A} e.
Arguments Halt {A} h.

Definition bind {A B} (m : outcome A) (k : A -> outcome B) : outcome B :=
  match m with
  | Ret a => k a
  | Throw e => Throw e
  | Halt h => Halt h
  end.

Notation "x <- m ;; k" := (bind m (fun x => k))
  (at level 61, m at next level, right associativity).
Notation "' pat <- m ;; k" := (bind m (fun x => match x with pat => k end))
  (at level 61, pat pattern, m at next level, right associativity).

Fixpoint mapM {A B} (f : A -> outcome B) (l : list A) : outcome (list B) :=
  match l with
  | [] => Ret []
  | x :: t => y <- f x ;; ys <- mapM f t ;; Ret (y :: ys)
  end.

(* ================================================================== *)
(** * JavaScript values *)

Inductive class : Type := PlainObject | MultiValue.

(** [VNumber n] is the JavaScript number whose value is the integer [n].
    An object is its class and its own properties, in insertion order.
    [new MultiValue(a, b)] is [VObject MultiValue [("values", VArray [a; b])]]. *)
Inductive value : Type :=
| VUndefined
| VNumber (n : Z)
| VString (s : string)
| VArray (items : list value)
| VObject (c : class) (props : list (string * value)).

Definition is_undefined (v : value) : bool :=
  match v with VUndefined => true | _ => false end.

(** [v instanceof MultiValue] *)
Definition is_multi (v : value) : bool :=
  match v with VObject MultiValue _ => true | _ => false end.

(** ToBoolean *)
Definition truthy (v : value) : bool :=
  match v with
  | VUndefined => false
  | VNumber n => negb (n =? 0)
  | VString s => negb (String.eqb s "")
  | VArray _ | VObject _ _ => true
  end.

(** Property names every object inherits from [Object.prototype]; reading
    one of them on an object that does not define it does not give
    [undefined], and the model stops there. *)
Definition inherited_names : list string :=
  [ "constructor"; "__proto__"; "hasOwnProperty"; "isPrototypeOf";
    "propertyIsEnumerable"; "toString"; "toLocaleString"; "valueOf";
    "__defineGetter__"; "__defineSetter__"; "__lookupGetter__";
    "__lookupSetter__" ]%string.

Definition inherited (name : string) : bool :=
  existsb (String.eqb name) inherited_names.

Section Assoc.
Variable T : Type.

Fixpoint assoc (name : string) (l : list (string * T)) : option T :=
  match l with
  | [] => None
  | (k, v) :: t => if String.eqb k name then Some v else assoc name t
  end.

Fixpoint assoc_set (name : string) (v : T) (l : list (string * T))
  : list (string * T) :=
  match l with
  | [] => [(name, v)]
  | (k, w) :: t =>
      if String.eqb k name then (k, v) :: t else (k, w) :: assoc_set name v t
  end.

Fixpoint assoc_remove (name : string) (l : list (string * T))
  : list (string * T) :=
  match l with
  | [] => []
  | (k, w) :: t =>
      if String.eqb k name then t else (k, w) :: assoc_remove name t
  end.
End Assoc.

(** [v[name]] *)
Definition get_prop (v : value) (name : string) : outcome value :=
  match v with
  | VUndefined => Throw TypeError
  | VObject _ props =>
      match assoc name props with
      | Some x => Ret x
      | None => if inherited name then Halt Unmodelled else Ret VUndefined
      end
  | _ => Halt Unmodelled
  end.

(** [v[name] = x; return v] *)
Definition set_prop (v : value) (name : string) (x : value) : outcome value :=
  match v with
  | VUndefined => Throw TypeError
  | VObject c props =>
      if inherited name then Halt Unmodelled
      else Ret (VObject c (assoc_set name x props))
  | _ => Halt Unmodelled
  end.

(** The array held by a property that is read as an array
    ([this.values.length], [val.values.forEach]). *)
Definition as_array (v : value) : outcome (list value) :=
  match v with
  | VArray l => Ret l
  | VUndefined => Throw TypeError
  | _ => Halt Unmodelled
  end.

Definition len {A} (l : list A) : Z := Z.of_nat (List.length l).

(* ================================================================== *)
(** * 32-bit integer operators *)

Definition int32 (z : Z) : Z := (z + 2^31) mod 2^32 - 2^31.
Definition uint32 (z : Z) : Z := z mod 2^32.

Definition js_and (a b : Z) : Z := int32 (Z.land a b).      (* a & b   *)
Definition js_or (a b : Z) : Z := int32 (Z.lor a b).        (* a | b   *)
Definition js_shl (a n : Z) : Z := int32 (Z.shiftl a n).    (* a << n  *)
Definition js_shr (a n : Z) : Z := Z.shiftr (int32 a) n.    (* a >> n  *)
Definition js_shru (a n : Z) : Z := Z.shiftr (uint32 a) n.  (* a >>> n *)

(* ================================================================== *)
(** * The [long] package: 64-bit integers as two 32-bit halves *)

Record Long : Type := fromBits_raw { low : Z; high : Z }.

Definition fromBits (lo hi : Z) : Long :=
  {| low := int32 lo; high := int32 hi |}.

Definition Long_ZERO : Long := fromBits 0 0.
Definition Long_MIN_VALUE : Long := fromBits 0 (-2^31).
Definition Long_MAX_VALUE : Long := fromBits (-1) (2^31 - 1).

(** The signed integer a [Long] stands for. *)
Definition Long_toZ (l : Long) : Z := high l * 2^32 + uint32 (low l).

(** Two's complement negation, [this.not().add(ONE)]. *)
Definition Long_neg (l : Long) : Long :=
  let z := - Long_toZ l in fromBits z (z / 2^32).

(** [Long.fromNumber(value)] for a signed Long and an integral [value]. *)
Definition Long_fromNumber (n : Z) : Long :=
  if n <=? - 2^63 then Long_MIN_VALUE
  else if 2^63 <=? n + 1 then Long_MAX_VALUE
  else if n <? 0 then Long_neg (fromBits ((- n) mod 2^32) ((- n) / 2^32))
  else fromBits (n mod 2^32) (n / 2^32).

(** [this.shr_u(numBits)] *)
Definition Long_shr_u (l : Long) (numBits : Z) : Long :=
  let numBits := Z.land numBits 63 in
  if numBits =? 0 then l
  else if numBits <? 32 then
    fromBits (js_or (js_shru (low l) numBits) (js_shl (high l) (32 - numBits)))
             (js_shru (high l) numBits)
  else if numBits =? 32 then fromBits (high l) 0
  else fromBits (js_shru (high l) (numBits - 32)) 0.

(** [this.shl(numBits)] *)
Definition Long_shl (l : Long) (numBits : Z) : Long :=
  let numBits := Z.land numBits 63 in
  if numBits =? 0 then l
  else if numBits <? 32 then
    fromBits (js_shl (low l) numBits)
             (js_or (js_shl (high l) numBits) (js_shru (low l) (32 - numBits)))
  else fromBits 0 (js_shl (low l) (numBits - 32)).

(** A JavaScript number is a double: an integer is one exactly when it has
    at most 53 significant bits. *)
Definition exact_double (n : Z) : bool :=
  let a := Z.abs n in
  (a <? 2^53) || (a mod 2 ^ (Z.log2 a - 52) =? 0).

(** [this.toNumber()]: [this.high * 2^32 + (this.low >>> 0)], computed in
    doubles.  Where the sum is not a double the source rounds; the model
    stops. *)
Definition Long_toNumber (l : Long) : outcome Z :=
  let z := high l * 2^32 + js_shru (low l) 0 in
  if exact_double z then Ret z else Halt Unmodelled.

(* ================================================================== *)
(** * Keys *)

(** A key is a string (string domain), a [NumericKey] object (numeric
    domain), or [undefined] where the source reads a key that is not there. *)
Inductive key : Type :=
| KUndefined
| KString (s : string)
| KNumeric (value : Long) (length : Z).

(** [cmp(a, b)]: matched nibbles of two 32-bit words, most significant
    first. *)
Definition cmp (a b : Z) : Z :=
  if a =? b then 8
  else
    let '(n, a, b) :=
      if js_and a 0xFFFF0000 =? js_and b 0xFFFF0000
      then (4, a, b) else (0, js_shr a 16, js_shr b 16) in
    let '(n, a, b) :=
      if js_and a 0xFF00 =? js_and b 0xFF00
      then (n + 2, a, b) else (n, js_shr a 8, js_shr b 8) in
    if js_and a 0xF0 =? js_and b 0xF0 then n + 1 else n.

Module NumericKey.

(** [new NumericKey(num, length)] *)
Definition new (num : value) (length : Z) : outcome key :=
  match num with
  | VNumber n => Ret (KNumeric (Long_fromNumber n) length)
  | VUndefined => Ret (KNumeric Long_ZERO length)   (* isNaN(undefined) *)
  | _ => Halt Unmodelled
  end.

(** [charAt(pos)] *)
Definition charAt (v : Long) (pos : Z) : Z :=
  let y := 64 - (pos + 1) * 4 in
  js_and (low (Long_shr_u v y)) 0xF.

(** [match(other)] *)
Definition match_ (a : Long) (la : Z) (b : Long) (lb : Z) : Z :=
  if (la =? lb) && (high a =? high b) && (low a =? low b) then la
  else
    let n := Z.min la lb in
    if 0 <? n then
      if high a =? high b
      then Z.min n (cmp (low a) (low b) + 8)
      else Z.min n (cmp (high a) (high b))
    else n.

(** [prefix(n)] *)
Definition prefix (v : Long) (n : Z) : outcome key :=
  let y := 64 - n * 4 in
  num <- Long_toNumber (Long_shl (Long_shr_u v y) y) ;;
  new (VNumber num) n.

(** [toNumber()] *)
Definition toNumber (v : Long) : outcome Z := Long_toNumber v.

End NumericKey.

(** [k.length] *)
Definition key_length (k : key) : outcome Z :=
  match k with
  | KUndefined => Throw TypeError
  | KString s => Ret (Z.of_nat (String.length s))
  | KNumeric _ l => Ret l
  end.

(** [k.charAt(pos)]: a one-character string ([""] out of range) or a
    nibble. *)
Definition key_charAt (k : key) (pos : Z) : outcome value :=
  match k with
  | KUndefined => Throw TypeError
  | KString s =>
      Ret (VString (if pos <? 0 then "" else substring (Z.to_nat pos) 1 s))
  | KNumeric v _ => Ret (VNumber (NumericKey.charAt v pos))
  end.

(* ================================================================== *)
(** * Key domains: [KEY_TYPES] *)

(** What a comparator call evaluates to: a number, [NaN], or (string
    domain without [attr]) a function object. *)
Inductive cmpres : Type :=
| CNumber (n : Z)
| CNaN
| CFunction.

(** [c >= 0], [c === 0], [c <= 0] and the sign [Array.prototype.sort]
    reads ([ToNumber] of a function is [NaN], and sort takes [NaN] as 0). *)
Definition cmp_ge0 (c : cmpres) : bool :=
  match c with CNumber n => 0 <=? n | _ => false end.
Definition cmp_is0 (c : cmpres) : bool :=
  match c with CNumber n => n =? 0 | _ => false end.
Definition cmp_le0 (c : cmpres) : bool :=
  match c with CNumber n => n <=? 0 | _ => false end.
Definition cmp_sort_gt0 (c : cmpres) : bool :=
  match c with CNumber n => 0 <? n | _ => false end.

(** [a < b] on the values the domains compare. *)
Definition js_lt (a b : value) : outcome bool :=
  match a, b with
  | VString x, VString y => Ret (String.ltb x y)
  | VNumber x, VNumber y => Ret (x <? y)
  | VUndefined, (VUndefined | VNumber _ | VString _) => Ret false
  | (VNumber _ | VString _), VUndefined => Ret false
  | _, _ => Halt Unmodelled
  end.

(** [a < b ? -1 : (a > b ? 1 : 0)] *)
Definition three_way (a b : value) : outcome cmpres :=
  lt <- js_lt a b ;;
  if lt then Ret (CNumber (-1))
  else gt <- js_lt b a ;; Ret (CNumber (if gt then 1 else 0)).

(** [a - b].  Both numbers are doubles; the double difference has the sign
    of the exact one, and the source only reads the sign. *)
Definition js_sub (a b : value) : outcome cmpres :=
  match a, b with
  | VNumber x, VNumber y => Ret (CNumber (x - y))
  | (VUndefined | VObject _ _), (VUndefined | VObject _ _ | VNumber _) => Ret CNaN
  | VNumber _, (VUndefined | VObject _ _) => Ret CNaN
  | _, _ => Halt Unmodelled
  end.

(** A string-domain key read out of a value. *)
Definition as_string_key (v : value) : outcome key :=
  match v with
  | VString s => Ret (KString s)
  | VUndefined => Ret KUndefined
  | _ => Halt Unmodelled
  end.

(** A string-domain key written into a value. *)
Definition key_as_value (k : key) : outcome value :=
  match k with
  | KString s => Ret (VString s)
  | KUndefined => Ret VUndefined
  | KNumeric _ _ => Halt Unmodelled
  end.

Fixpoint string_match (a b : string) : Z :=
  match a, b with
  | String x a', String y b' =>
      if Ascii.eqb x y then 1 + string_match a' b' else 0
  | _, _ => 0
  end.

(** Each member takes [opts.attr] as the source's closures do; [None] is
    an [attr] that is absent or falsy. *)
Module StringKeys.

Definition createKey (x : value) : outcome key := as_string_key x.

Definition getKey (attr : option string) (x : value) : outcome key :=
  match attr with
  | Some a => v <- get_prop x a ;; as_string_key v
  | None =>
      v <- (if is_multi x then get_prop x "key" else Ret x) ;;
      as_string_key v
  end.

Definition setKey (attr : option string) (v : value) (k : key)
  : outcome value :=
  match attr with
  | Some a => kv <- key_as_value k ;; set_prop v a kv
  | None =>
      kv <- key_as_value k ;;
      if is_multi v then set_prop v "key" kv else Ret kv
  end.

Definition comparator (attr : option string) (a b : value)
  : outcome cmpres :=
  match attr with
  | Some at_ =>
      a <- get_prop a at_ ;;
      b <- get_prop b at_ ;;
      three_way a b
  | None =>
      a <- (if is_multi a then get_prop a "key" else Ret a) ;;
      b <- (if is_multi b then get_prop b "key" else Ret b) ;;
      (* return (a, b) => a < b ? -1 : (a > b ? 1 : 0) *)
      Ret CFunction
  end.

Definition match_ (a b : key) : outcome Z :=
  match a, b with
  | KUndefined, _ => Throw TypeError
  | KString _, KUndefined => Throw TypeError
  | KString x, KString y => Ret (string_match x y)
  | _, _ => Halt Unmodelled
  end.

Definition prefix (k : key) (n : Z) : outcome key :=
  match k with
  | KUndefined => Throw TypeError
  | KString s => Ret (KString (substring 0 (Z.to_nat n) s))
  | KNumeric _ _ => Halt Unmodelled
  end.

Definition emptyPrefix : key := KString "".

End StringKeys.

Module NumberKeys.

Definition createKey (x : value) : outcome key := NumericKey.new x 16.

Definition getKey (attr : option string) (x : value) : outcome key :=
  match attr with
  | Some a => v <- get_prop x a ;; NumericKey.new v 16
  | None =>
      v <- (if is_multi x then get_prop x "key" else Ret x) ;;
      NumericKey.new v 16
  end.

Definition setKey (attr : option string) (v : value) (k : key)
  : outcome value :=
  match attr with
  | Some a =>
      match k with
      | KNumeric l _ => n <- NumericKey.toNumber l ;; set_prop v a (VNumber n)
      | KUndefined => Throw TypeError
      | KString _ => Halt Unmodelled
      end
  | None =>
      (* key = key.value(): [value] is a Long, not a function *)
      match k with
      | KNumeric _ _ | KUndefined => Throw TypeError
      | KString _ => Halt Unmodelled
      end
  end.

Definition comparator (attr : option string) (a b : value)
  : outcome cmpres :=
  match attr with
  | Some at_ =>
      a <- get_prop a at_ ;;
      b <- get_prop b at_ ;;
      js_sub a b
  | None => js_sub a b
  end.

Definition match_ (a b : key) : outcome Z :=
  match a, b with
  | KUndefined, _ => Throw TypeError
  | KNumeric _ _, KUndefined => Throw TypeError
  | KNumeric x lx, KNumeric y ly => Ret (NumericKey.match_ x lx y ly)
  | _, _ => Halt Unmodelled
  end.

Definition prefix (k : key) (n : Z) : outcome key :=
  match k with
  | KUndefined => Throw TypeError
  | KNumeric v _ => NumericKey.prefix v n
  | KString _ => Halt Unmodelled
  end.

Definition emptyPrefix : key := KNumeric (Long_fromNumber 0) 0.

End NumberKeys.

(* ================================================================== *)
(** * Options *)

Inductive key_type : Type := StringType | NumberType.

(** The options object the constructor receives, with the four documented
    members; [None] is a member that is not given.  The object has no
    other member of its own: one that carries [createKey], [getKey],
    [setKey], [comparator], [match], [prefix] or [emptyPrefix] hands them
    to [this.options] through the last spread of the constructor, and is
    not an object of this type. *)
Record config : Type := {
  cfg_type : option string;
  cfg_attr : option string;
  cfg_uniqueKeys : option bool;
  cfg_binSize : option Z
}.

(** [this.options]: [{...DEFAULT_OPTS, ...typeOpts, ...options}].
    [typeOpts] is [None] when the constructor resolved no key domain, and
    then [options.getKey] and the other domain members are [undefined]. *)
Record options : Type := {
  uniqueKeys : bool;
  binSize : Z;
  attr : option string;
  typeOpts : option key_type
}.

(** [opts.attr] as the closures test it: a falsy [attr] is no [attr]. *)
Definition truthy_attr (a : option string) : option string :=
  match a with
  | Some s => if String.eqb s "" then None else Some s
  | None => None
  end.

Section Dispatch.
Variable o : options.

Definition opt_createKey (x : value) : outcome key :=
  match typeOpts o with
  | Some StringType => StringKeys.createKey x
  | Some NumberType => NumberKeys.createKey x
  | None => Throw TypeError
  end.

Definition opt_getKey (x : value) : outcome key :=
  match typeOpts o with
  | Some StringType => StringKeys.getKey (truthy_attr (attr o)) x
  | Some NumberType => NumberKeys.getKey (truthy_attr (attr o)) x
  | None => Throw TypeError
  end.

Definition opt_setKey (v : value) (k : key) : outcome value :=
  match typeOpts o with
  | Some StringType => StringKeys.setKey (truthy_attr (attr o)) v k
  | Some NumberType => NumberKeys.setKey (truthy_attr (attr o)) v k
  | None => Throw TypeError
  end.

Definition opt_comparator (a b : value) : outcome cmpres :=
  match typeOpts o with
  | Some StringType => StringKeys.comparator (truthy_attr (attr o)) a b
  | Some NumberType => NumberKeys.comparator (truthy_attr (attr o)) a b
  | None => Throw TypeError
  end.

Definition opt_match (a b : key) : outcome Z :=
  match typeOpts o with
  | Some StringType => StringKeys.match_ a b
  | Some NumberType => NumberKeys.match_ a b
  | None => Throw TypeError
  end.

Definition opt_prefix (k : key) (n : Z) : outcome key :=
  match typeOpts o with
  | Some StringType => StringKeys.prefix k n
  | Some NumberType => NumberKeys.prefix k n
  | None => Throw TypeError
  end.

Definition opt_emptyPrefix : key :=
  match typeOpts o with
  | Some StringType => StringKeys.emptyPrefix
  | Some NumberType => NumberKeys.emptyPrefix
  | None => KUndefined
  end.

(* ---------------------------------------------------------------- *)
(** * Helpers of the source *)

(** [commonPrefix(arr, options)] *)
Definition commonPrefix (arr : list value) : outcome key :=
  match arr with
  | [] => Ret opt_emptyPrefix
  | [x] => opt_getKey x
  | x :: _ =>
      first <- opt_getKey x ;;
      last <- opt_getKey (List.last arr VUndefined) ;;
      n <- opt_match first last ;;
      opt_prefix first n
  end.

(** [assign(newVal, oldVal, options)].  [oldVal.values.push(newVal)]
    mutates the MultiValue, which is the object returned. *)
Definition assign (newVal oldVal : value) : outcome value :=
  if uniqueKeys o || is_undefined oldVal then Ret newVal
  else if is_multi oldVal then
    vs <- get_prop oldVal "values" ;;
    l <- as_array vs ;;
    set_prop oldVal "values" (VArray (l ++ [newVal]))
  else
    let mv := VObject MultiValue [("values"%string, VArray [oldVal; newVal])] in
    k <- opt_getKey newVal ;;
    opt_setKey mv k.

(** [arr.sort(options.comparator)].  The sort is stable; for a comparator
    that is a consistent order every conforming engine returns what this
    insertion sort returns. *)
Fixpoint sort_insert (x : value) (sorted : list value)
  : outcome (list value) :=
  match sorted with
  | [] => Ret [x]
  | y :: t =>
      c <- opt_comparator y x ;;
      if cmp_sort_gt0 c then Ret (x :: y :: t)
      else t' <- sort_insert x t ;; Ret (y :: t')
  end.

Fixpoint sort_into (sorted todo : list value) : outcome (list value) :=
  match todo with
  | [] => Ret sorted
  | x :: t => s <- sort_insert x sorted ;; sort_into s t
  end.

Definition array_sort (arr : list value) : outcome (list value) :=
  sort_into [] arr.

(** The loop of [_sortValues] that folds entries with equal keys:
    [cur] is [arr[i]], [rest] is [arr[j..]]; the result is the array
    after [arr.splice(i + 1)], from index [i] on. *)
Fixpoint collapse (cur : value) (rest : list value) : outcome (list value) :=
  match rest with
  | [] => Ret [cur]
  | x :: t =>
      c <- opt_comparator cur x ;;
      if cmp_is0 c then cur' <- assign x cur ;; collapse cur' t
      else r <- collapse x t ;; Ret (cur :: r)
  end.

(** [bounds.eq(a, y, c)] of [binary-search-bounds]:
    [while (l <= h) { m = (l + h) >>> 1; p = c(a[m], y);
       if (p === 0) return m; if (p <= 0) l = m + 1; else h = m - 1 }
     return -1]. *)
Fixpoint bounds_eq_loop (fuel : nat) (a : list value) (y : value) (l h : Z)
  : outcome Z :=
  match fuel with
  | O => Halt OutOfFuel
  | S fuel =>
      if l <=? h then
        let m := Z.shiftr (l + h) 1 in
        p <- opt_comparator (nth (Z.to_nat m) a VUndefined) y ;;
        if cmp_is0 p then Ret m
        else if cmp_le0 p then bounds_eq_loop fuel a y (m + 1) h
        else bounds_eq_loop fuel a y l (m - 1)
      else Ret (-1)
  end.

Definition bounds_eq (a : list value) (y : value) : outcome Z :=
  bounds_eq_loop (S (List.length a)) a y 0 (len a - 1).

End Dispatch.

(** [coerceArray(arr)] *)
Definition coerceArray (arr : list value) : value :=
  match arr with
  | [] => VUndefined
  | [x] => x
  | _ => VArray arr
  end.

(* ================================================================== *)
(** * Arrays used as jump tables *)

(** [this.edges] is a JavaScript array indexed by a key unit.  A property
    whose name is an array index (a nibble, a digit character) moves
    [length]; any other name (a letter, ["undefined"]) is an ordinary
    property that [length] and [for .. of] do not see. *)
Record jsarray (T : Type) : Type := {
  alength : Z;
  aprops : list (string * T)
}.

(** ToPropertyKey of a key unit. *)
Definition property_key (x : value) : outcome string :=
  match x with
  | VString s => Ret s
  | VNumber n => Ret (NilZero.string_of_int (Z.to_int n))
  | VUndefined => Ret "undefined"%string
  | _ => Halt Unmodelled
  end.

(** The array index a property name denotes, if it is one: a canonical
    decimal numeral below [2^32 - 1]. *)
Definition array_index (p : string) : option Z :=
  match NilZero.uint_of_string p with
  | Some u =>
      let i := Z.of_uint u in
      if String.eqb (NilZero.string_of_int (Z.to_int i)) p && (i <? 2^32 - 1)
      then Some i else None
  | None => None
  end.

Section JsArray.
Variable T : Type.

(** [[]] *)
Definition arr_empty : jsarray T := {| alength := 0; aprops := [] |}.

(** [arr[x]] *)
Definition arr_get (a : jsarray T) (x : value) : outcome (option T) :=
  p <- property_key x ;; Ret (assoc p (aprops a)).

(** [arr[x] = v] *)
Definition arr_set (a : jsarray T) (x : value) (v : T) : outcome (jsarray T) :=
  p <- property_key x ;;
  Ret {| alength := match array_index p with
                    | Some i => Z.max (alength a) (i + 1)
                    | None => alength a
                    end;
         aprops := assoc_set p v (aprops a) |}.

(** [delete arr[x]] *)
Definition arr_delete (a : jsarray T) (x : value) : outcome (jsarray T) :=
  p <- property_key x ;;
  Ret {| alength := alength a; aprops := assoc_remove p (aprops a) |}.

(** The element [for (const node of arr)] visits at index [i]; a hole
    reads as [undefined], here [None]. *)
Definition arr_at (a : jsarray T) (i : Z) : option T :=
  assoc (NilZero.string_of_int (Z.to_int i)) (aprops a).
End JsArray.

Arguments arr_empty {T}.

(** [x !== y] is [negb (strict_eq x y)] on key units. *)
Definition strict_eq (x y : value) : bool :=
  match x, y with
  | VUndefined, VUndefined => true
  | VNumber a, VNumber b => a =? b
  | VString a, VString b => String.eqb a b
  | _, _ => false
  end.

(** [arr.splice(idx, 1)] and [arr[idx] = v] on a list. *)
Fixpoint list_remove (idx : nat) (l : list value) : list value :=
  match l, idx with
  | [], _ => []
  | _ :: t, O => t
  | x :: t, S i => x :: list_remove i t
  end.

Fixpoint list_update (idx : nat) (v : value) (l : list value) : list value :=
  match l, idx with
  | [], _ => []
  | _ :: t, O => v :: t
  | x :: t, S i => x :: list_update i v t
  end.

(* ================================================================== *)
(** * Nodes *)

Inductive node : Type := Node {
  skip : key;
  edges : option (jsarray node);   (* [None] is [undefined]: a terminal node *)
  values : value;                  (* the bin, or the internal value *)
  dirty : bool
}.

(** A caller's filter: it returns a truthy or falsy result, or throws. *)
Definition filter_fn : Type := value -> outcome bool.

(** The loops of [_explode] that cut [values] into runs of one next
    character: [x] is [nextChars[i]], [acc] the slice collected so far in
    reverse, [rest] what [j] has not reached. *)
Fixpoint runs (x : value) (acc : list value) (rest : list (value * value))
  : list (value * list value) :=
  match rest with
  | [] => [(x, rev acc)]
  | (c, v) :: t =>
      if strict_eq x c then runs x (v :: acc) t
      else (x, rev acc) :: runs c [v] t
  end.

Definition group_runs (l : list (value * value)) : list (value * list value) :=
  match l with
  | [] => []
  | (c, v) :: t => runs c [v] t
  end.

(** [this.edges[x] = new Node(values.slice(i, j), options)] for each run. *)
Fixpoint populate (mk : list value -> outcome node)
    (groups : list (value * list value)) (es : jsarray node)
  : outcome (jsarray node) :=
  match groups with
  | [] => Ret es
  | (x, vs) :: t =>
      n <- mk vs ;;
      es' <- arr_set es x n ;;
      populate mk t es'
  end.

(** [arr.filter(x => filter(x))] *)
Fixpoint filterM (f : filter_fn) (l : list value) : outcome (list value) :=
  match l with
  | [] => Ret []
  | x :: t =>
      b <- f x ;;
      t' <- filterM f t ;;
      Ret (if b then x :: t' else t')
  end.

(** The [forEach] of [_delete]: the members [filter] rejects are kept, the
    others (all of them without a filter) are removed. *)
Fixpoint partitionM (filter : option filter_fn) (l : list value)
  : outcome (list value * list value) :=
  match l with
  | [] => Ret ([], [])
  | x :: t =>
      b <- match filter with None => Ret true | Some f => f x end ;;
      '(keep, removed) <- partitionM filter t ;;
      Ret (if b then (keep, x :: removed) else (x :: keep, removed))
  end.

(** [_delete(val, filter)].  The third component is [val] after the call:
    a MultiValue has had its [values] replaced in place. *)
Definition delete_ (val : value) (filter : option filter_fn)
  : outcome (value * value * value) :=
  if is_multi val then
    vs <- get_prop val "values" ;;
    l <- as_array vs ;;
    '(keep, removed) <- partitionM filter l ;;
    val' <- set_prop val "values" (VArray keep) ;;
    Ret (if 1 <? len keep then val' else coerceArray keep,
         coerceArray removed, val')
  else
    b <- match filter with None => Ret true | Some f => f val end ;;
    if b then Ret (VUndefined, val, val) else Ret (val, VUndefined, val).

Section NodeOps.
Variable o : options.

(** [_sortValues(options)] *)
Definition sortValues (this : node) : outcome node :=
  if dirty this then
    arr <- as_array (values this) ;;
    arr <- array_sort o arr ;;
    arr <- match arr with
           | x :: (_ :: _) as t => collapse o x t
           | _ => Ret arr
           end ;;
    Ret (Node (skip this) (edges this) (VArray arr) false)
  else Ret this.

(** [_insert(key, value, options)] *)
Definition insert (k : key) (v : value) (this : node) : outcome node :=
  n <- opt_match o k (skip this) ;;
  sl <- key_length (skip this) ;;
  skip' <- (if n =? sl then Ret (skip this) else opt_prefix o (skip this) n) ;;
  arr <- as_array (values this) ;;
  dirty' <- (if len arr =? 0 then Ret (dirty this)
             else c <- opt_comparator o (List.last arr VUndefined) v ;;
                  Ret (if cmp_ge0 c then true else dirty this)) ;;
  Ret (Node skip' (edges this) (VArray (arr ++ [v])) dirty').

(** [_explode(options)]; the constructor it calls is
    [fun vs => new Node(vs, options)], one unit of fuel down. *)
Fixpoint explode (fuel : nat) (this : node) : outcome node :=
  match fuel with
  | O => Halt OutOfFuel
  | S fuel =>
      arr <- as_array (values this) ;;
      if len arr <=? binSize o then Ret this
      else
        this <- sortValues this ;;
        arr <- as_array (values this) ;;
        if len arr <=? binSize o then Ret this
        else
          skip' <- commonPrefix o arr ;;
          prefixLen <- key_length skip' ;;
          nextChars <- mapM (fun v =>
                         k <- opt_getKey o v ;;
                         kl <- key_length k ;;
                         if kl =? prefixLen then Ret VUndefined
                         else key_charAt k prefixLen) arr ;;
          let '(internal, rest) :=
            match nextChars, arr with
            | c :: cs, v :: vs =>
                if is_undefined c then (v, combine cs vs)
                else (VUndefined, combine nextChars arr)
            | _, _ => (VUndefined, [])
            end in
          es <- populate
                  (fun vs => sk <- commonPrefix o vs ;;
                             explode fuel (Node sk None (VArray vs) false))
                  (group_runs rest) arr_empty ;;
          Ret (Node skip' (Some es) internal (dirty this))
  end.

(** [new Node(values, options)] *)
Definition new_Node (fuel : nat) (vs : list value) : outcome node :=
  sk <- commonPrefix o vs ;;
  explode fuel (Node sk None (VArray vs) false).

(** [add(key, value, options)] *)
Fixpoint add (fuel : nat) (k : key) (v : value) (this : node) : outcome node :=
  match fuel with
  | O => Halt OutOfFuel
  | S fuel =>
      match edges this with
      | None =>
          this <- insert k v this ;;
          explode (S fuel) this
      | Some es =>
          n <- opt_match o k (skip this) ;;
          sl <- key_length (skip this) ;;
          if n =? sl then
            kl <- key_length k ;;
            if n =? kl then
              vals <- assign o v (values this) ;;
              Ret (Node (skip this) (Some es) vals (dirty this))
            else
              x <- key_charAt k sl ;;
              child <- arr_get es x ;;
              child' <- match child with
                        | Some c => add fuel k v c
                        | None => new_Node (S fuel) [v]
                        end ;;
              es' <- arr_set es x child' ;;
              Ret (Node (skip this) (Some es') (values this) (dirty this))
          else
            prefix <- opt_prefix o (skip this) n ;;
            pl <- key_length prefix ;;
            cx <- key_charAt (skip this) pl ;;
            fresh <- new_Node (S fuel) [] ;;
            let child := Node (skip this) (edges this) (values this) (dirty fresh) in
            es' <- arr_set arr_empty cx child ;;
            add fuel k v (Node prefix (Some es') VUndefined (dirty this))
      end
  end.

(** [_search(key, options)]: the result and the node, whose bin the call
    may have sorted. *)
Definition search (k : key) (this : node) : outcome (value * node) :=
  this <- sortValues this ;;
  needle <- opt_setKey o (VObject PlainObject []) k ;;
  arr <- as_array (values this) ;;
  idx <- bounds_eq o arr needle ;;
  Ret (if idx <? 0 then VUndefined else nth (Z.to_nat idx) arr VUndefined,
       this).

(** [find(node, key, options, cb)].  The callback receives the node the
    walk stopped at and whether it matched, and returns its result with
    that node as it left it; the walk puts the node back under its
    parents.  ([prev] is passed to the callback, which never reads it.) *)
Fixpoint find {R} (fuel : nat) (nd : node) (k : key)
    (cb : node -> bool -> outcome (R * node)) : outcome (R * node) :=
  match fuel with
  | O => Halt OutOfFuel
  | S fuel =>
      n <- opt_match o k (skip nd) ;;
      sl <- key_length (skip nd) ;;
      if negb (n =? sl) then cb nd false
      else
        match edges nd with
        | None => cb nd true
        | Some es =>
            kl <- key_length k ;;
            if n =? kl then cb nd true
            else
              x <- key_charAt k sl ;;
              child <- arr_get es x ;;
              match child with
              | None => cb nd false
              | Some c =>
                  '(r, c') <- find fuel c k cb ;;
                  es' <- arr_set es x c' ;;
                  Ret (r, Node (skip nd) (Some es') (values nd) (dirty nd))
              end
        end
  end.

(** [get(key, options)] *)
Definition get (fuel : nat) (k : key) (this : node) : outcome (value * node) :=
  find fuel this k (fun nd matched =>
    if negb matched then Ret (VUndefined, nd)
    else match edges nd with
         | Some _ => Ret (values nd, nd)
         | None => search k nd
         end).

(** [_compact(path, child)] *)
Definition compact (path : value) (child : node) (this : node) : outcome node :=
  match edges child with
  | Some _ => Ret this
  | None =>
      cvals <- as_array (values child) ;;
      if negb (len cvals =? 0) then Ret this
      else
        match edges this with
        | None => Throw TypeError
        | Some es =>
            es <- arr_delete es path ;;
            (* for (const node of this.edges) { child = node; edgeCount++ } *)
            let edgeCount := alength es in
            let child := if edgeCount =? 0 then Some child
                         else arr_at es (edgeCount - 1) in
            if edgeCount =? 0 then
              Ret (Node (skip this) None
                     (if truthy (values this) then VArray [values this]
                      else VArray [])
                     false)
            else if (edgeCount =? 1) && is_undefined (values this) then
              match child with
              | None => Throw TypeError
              | Some c => Ret (Node (skip c) (edges c) (values c) (dirty c))
              end
            else Ret (Node (skip this) (Some es) (values this) (dirty this))
        end
  end.

(** [delete(key, options, filter)]: what was removed, and the node. *)
Fixpoint delete (fuel : nat) (k : key) (filter : option filter_fn)
    (this : node) : outcome (value * node) :=
  match fuel with
  | O => Halt OutOfFuel
  | S fuel =>
      n <- opt_match o k (skip this) ;;
      sl <- key_length (skip this) ;;
      if negb (n =? sl) then Ret (VUndefined, this)
      else
        match edges this with
        | None =>
            this <- sortValues this ;;
            needle <- opt_setKey o (VObject PlainObject []) k ;;
            arr <- as_array (values this) ;;
            idx <- bounds_eq o arr needle ;;
            if 0 <=? idx then
              '(keep, removed, val') <-
                delete_ (nth (Z.to_nat idx) arr VUndefined) filter ;;
              let arr' := if is_undefined keep
                          then list_remove (Z.to_nat idx) arr
                          else list_update (Z.to_nat idx) val' arr in
              Ret (removed,
                   Node (skip this) (edges this) (VArray arr') (dirty this))
            else Ret (VUndefined, this)
        | Some es =>
            kl <- key_length k ;;
            if n =? kl then
              '(keep, removed, _) <- delete_ (values this) filter ;;
              Ret (removed, Node (skip this) (Some es) keep (dirty this))
            else
              x <- key_charAt k sl ;;
              child <- arr_get es x ;;
              match child with
              | Some c =>
                  '(ret, c') <- delete fuel k filter c ;;
                  es' <- arr_set es x c' ;;
                  let this' := Node (skip this) (Some es') (values this)
                                 (dirty this) in
                  if negb (is_undefined ret) then
                    this'' <- compact x c' this' ;;
                    Ret (ret, this'')
                  else Ret (ret, this')
              | None => Ret (VUndefined, this)
              end
        end
  end.

End NodeOps.

(* ================================================================== *)
(** * The [Trie] facade *)

Record Trie : Type := {
  t_options : options;
  root : node
}.

Definition DEFAULT_uniqueKeys : bool := true.
Definition DEFAULT_binSize : Z := 256.

(** [KEY_TYPES[type]]: one of the two domains, [None] for a name the table
    does not have, and for a name the table object inherits a value that
    has no [createKey], so that calling it throws. *)
Definition KEY_TYPES (type : string) : outcome (option key_type) :=
  if String.eqb type "string" then Ret (Some StringType)
  else if String.eqb type "number" then Ret (Some NumberType)
  else if inherited type then Throw TypeError
  else Ret None.

Module Trie.

(** [constructor(options = {})].  In
    [{...DEFAULT_OPTS, ...typeOpts, ...options}] the last spread adds the
    members of [cfg], which are the documented four. *)
Definition new (cfg : config) : outcome Trie :=
  let type := match cfg_type cfg with Some t => t | None => "string"%string end in
  typeOpts <- KEY_TYPES type ;;
  let opts := {| uniqueKeys := match cfg_uniqueKeys cfg with
                               | Some u => u | None => DEFAULT_uniqueKeys end;
                 binSize := match cfg_binSize cfg with
                            | Some b => b | None => DEFAULT_binSize end;
                 attr := cfg_attr cfg;
                 typeOpts := typeOpts |} in
  r <- new_Node opts 1 [] ;;
  Ret {| t_options := opts; root := r |}.

(** [add(value)] *)
Definition add (fuel : nat) (v : value) (t : Trie) : outcome Trie :=
  let o := t_options t in
  k <- opt_getKey o v ;;
  r <- add o fuel k v (root t) ;;
  Ret {| t_options := o; root := r |}.

(** [get(key, filter = undefined)] *)
Definition get (fuel : nat) (k : value) (filter : option filter_fn) (t : Trie)
  : outcome (value * Trie) :=
  let o := t_options t in
  k <- opt_createKey o k ;;
  '(ret, r) <- get o fuel k (root t) ;;
  let t' := {| t_options := o; root := r |} in
  if is_multi ret then
    vs <- get_prop ret "values" ;;
    l <- as_array vs ;;
    l <- match filter with
         | Some f => filterM f l
         | None => Ret l
         end ;;
    Ret (coerceArray l, t')
  else
    ok <- match filter with None => Ret true | Some f => f ret end ;;
    Ret (if ok then ret else VUndefined, t').

(** [delete(key, filter = undefined)] *)
Definition delete (fuel : nat) (k : value) (filter : option filter_fn)
    (t : Trie) : outcome (value * Trie) :=
  let o := t_options t in
  k <- opt_createKey o k ;;
  '(ret, r) <- delete o fuel k filter (root t) ;;
  r <- match edges r with
       | Some _ => Ret r
       | None =>
           vals <- as_array (values r) ;;
           Ret (if len vals =? 0
                then Node (opt_emptyPrefix o) (edges r) (values r) (dirty r)
                else r)
       end ;;
  Ret (ret, {| t_options := o; root := r |}).

End Trie.


(* ================================================================== *)
(** * Scenarios and specification-side definitions *)

Definition default_config : config :=
  {| cfg_type := None; cfg_attr := None;
     cfg_uniqueKeys := None; cfg_binSize := None |}.

(** [{k: s}] and [{k: s, v: n}] *)
Definition entry (s : string) : value :=
  VObject PlainObject [("k"%string, VString s)].
Definition entry_v (s : string) (n : Z) : value :=
  VObject PlainObject [("k"%string, VString s); ("v"%string, VNumber n)].
(** [{k: n}] *)
Definition entry_n (n : Z) : value :=
  VObject PlainObject [("k"%string, VNumber n)].

(** Numeric domain, values are their own keys, [uniqueKeys = true]. *)
Definition numeric_config : config :=
  {| cfg_type := Some "number"%string; cfg_attr := None;
     cfg_uniqueKeys := Some true; cfg_binSize := None |}.

(** The three numbers of the numeric scenario.  The third literal,
    [0x1234_5678_9ABC_DEF0], has 57 significant bits; the number the
    engine reads is the nearest double, [0x1234_5678_9ABC_DF00]. *)
Definition numeric_scenario : outcome Trie :=
  t <- Trie.new numeric_config ;;
  t <- Trie.add 8 (VNumber 0x1234000000000000) t ;;
  t <- Trie.add 8 (VNumber 0x1234567800000000) t ;;
  Trie.add 8 (VNumber 0x123456789ABCDF00) t.

(** String domain, key under [k], one value per bin. *)
Definition string_k_config (bin : Z) (unique : bool) : config :=
  {| cfg_type := None; cfg_attr := Some "k"%string;
     cfg_uniqueKeys := Some unique; cfg_binSize := Some bin |}.

(** The tree of the compaction scenario: adding [{k:"a"}] and [{k:"b"}]
    with [binSize = 1] explodes the root into the edges ["a"] and ["b"]. *)
Definition compaction_tree : outcome Trie :=
  t <- Trie.new (string_k_config 1 true) ;;
  t <- Trie.add 8 (entry "a") t ;;
  Trie.add 8 (entry "b") t.

Definition compaction_scenario : outcome (value * Trie * value) :=
  t <- compaction_tree ;;
  '(removed, t) <- Trie.delete 8 (VString "b") None t ;;
  '(found, _) <- Trie.get 8 (VString "a") None t ;;
  Ret (removed, t, found).

(** The duplicate-key scenario: [x => x.v === 2] as filter. *)
Definition v_is_2 : filter_fn :=
  fun x => v <- get_prop x "v" ;; Ret (strict_eq v (VNumber 2)).

Definition duplicates_tree : outcome Trie :=
  t <- Trie.new (string_k_config 4 false) ;;
  t <- Trie.add 8 (entry_v "a" 1) t ;;
  t <- Trie.add 8 (entry_v "a" 2) t ;;
  Trie.add 8 (entry_v "b" 3) t.

(** The MultiValue that sorting the bin of [duplicates_tree] builds. *)
Definition duplicates_multi (members : list value) : value :=
  VObject MultiValue
    [("values"%string, VArray members); ("k"%string, VString "a")].

(** Numeric domain, key under [k], one value per bin. *)
Definition numeric_k_config : config :=
  {| cfg_type := Some "number"%string; cfg_attr := Some "k"%string;
     cfg_uniqueKeys := None; cfg_binSize := Some 1 |}.

Definition empty_reset_tree : outcome Trie :=
  t <- Trie.new numeric_k_config ;;
  t <- Trie.add 8 (entry_n 1) t ;;
  Trie.add 8 (entry_n 2) t.

Definition empty_reset_scenario : outcome (value * value * Trie) :=
  t <- empty_reset_tree ;;
  '(r2, t) <- Trie.delete 8 (VNumber 2) None t ;;
  '(r1, t) <- Trie.delete 8 (VNumber 1) None t ;;
  Ret (r2, r1, t).

Definition unknown_type_config : config :=
  {| cfg_type := Some "bogus"%string; cfg_attr := None;
     cfg_uniqueKeys := None; cfg_binSize := None |}.

(** A node is terminal when it has no jump table. *)
Definition is_terminal (n : node) : bool :=
  match edges n with None => true | Some _ => false end.

(** ** Common prefix of numeric keys, in nibbles *)

(** How many of the [n] positions from [i] on satisfy [same], stopping at
    the first that does not. *)
Fixpoint leading (same : Z -> bool) (i : Z) (n : nat) : Z :=
  match n with
  | O => 0
  | S n' => if same i then 1 + leading same (i + 1) n' else 0
  end.

(** The length of the longest common prefix of two 64-bit keys, the
    nibbles read by [charAt], position 0 the most significant. *)
Definition common_nibbles (a b : Long) : Z :=
  leading (fun i => NumericKey.charAt a i =? NumericKey.charAt b i) 0 16.

(** The halves of a [Long] are 32-bit integers. *)
Definition is_int32 (z : Z) : Prop := - 2^31 <= z < 2^31.
Definition Long_wf (l : Long) : Prop := is_int32 (low l) /\ is_int32 (high l).

(** ** The coercion of a filtered member list, by survivor count *)


(** ** The bins of a tree, and the trees a program can build *)

(** [bin_of n l]: [l] is the bin of a terminal node of the tree under [n]. *)
Inductive bin_of : node -> list value -> Prop :=
| bin_here sk l d : bin_of (Node sk None (VArray l) d) l
| bin_below sk es v d p c l :
    In (p, c) (aprops es) -> bin_of c l -> bin_of (Node sk (Some es) v d) l.

(** Every bin under the node holds at most [bs] values. *)
Inductive bounded (bs : Z) : node -> Prop :=
| bounded_bin sk l d :
    len l <= bs -> bounded bs (Node sk None (VArray l) d)
| bounded_edges sk es v d :
    Forall (fun e => bounded bs (snd e)) (aprops es) ->
    bounded bs (Node sk (Some es) v d).

(** No node under (and including) this one is terminal. *)
Inductive branchy : node -> Prop :=
| branchy_edges sk es v d :
    Forall (fun e => branchy (snd e)) (aprops es) ->
    branchy (Node sk (Some es) v d).

Definition key_eq_dec (a b : key) : {a = b} + {a <> b}.
Proof.
  decide equality.
  - apply string_dec.
  - apply Z.eq_dec.
  - destruct value0 as [l1 h1], value1 as [l2 h2].
    destruct (Z.eq_dec l1 l2); [|right; congruence].
    destruct (Z.eq_dec h1 h2); [left|right]; congruence.
Defined.

(** The number of distinct keys in a list of keys. *)
Definition distinct_count (keys : list key) : Z := len (nodup key_eq_dec keys).

(** The tries a program reaches from [new Trie(cfg)] by public operations
    that return.  (An operation that throws ends the program: failures
    are fatal.) *)
Inductive reachable (cfg : config) : Trie -> Prop :=
| reach_new t :
    Trie.new cfg = Ret t -> reachable cfg t
| reach_add fuel v t t' :
    reachable cfg t -> Trie.add fuel v t = Ret t' -> reachable cfg t'
| reach_get fuel k f t r t' :
    reachable cfg t -> Trie.get fuel k f t = Ret (r, t') -> reachable cfg t'
| reach_delete fuel k f t r t' :
    reachable cfg t -> Trie.delete fuel k f t = Ret (r, t') -> reachable cfg t'.

(** ** Bit fields *)

(** The [k]-bit field of [w] that starts at bit [s]. *)
Definition field (s k w : Z) : Z := Z.land (Z.shiftr w s) (Z.ones k).

(** Nibble [i] of a 32-bit word, 0 the most significant. *)
Definition nib (w i : Z) : Z := field (28 - 4 * i) 4 w.

(** ** The invariant behind the bin bound *)

(** With [binSize >= 1] every bin is within the bound.  Below 1 no node
    but the root can be terminal: a bin with a value in it explodes. *)
Definition trie_inv (t : Trie) : Prop :=
  let bs := binSize (t_options t) in
  (1 <= bs /\ bounded bs (root t)) \/
  (bs < 1 /\
   (branchy (root t) \/ (edges (root t) = None /\ bounded bs (root t)))).


(* ================================================================== *)
(** * Specification-side definitions: keyed objects, answers, well-formed trees *)

Unset Implicit Arguments.

(** The 64-bit pattern of a [Long], read as an unsigned integer. *)
Definition Long_unsigned (l : Long) : Z := uint32 (high l) * 2^32 + uint32 (low l).

(** Bit [i] of the 64-bit pattern of a [Long], 0 the least significant. *)
Definition bit64 (l : Long) (i : Z) : bool :=
  if i <? 32 then Z.testbit (low l) i else Z.testbit (high l) (i - 32).

(** The values an entry of a bin (or an internal value) stands for: the
    members of a MultiValue, or the value itself. *)
Definition members (v : value) : outcome (list value) :=
  if is_multi v then vs <- get_prop v "values" ;; as_array vs
  else Ret [v].

(** [p] is a prefix of [x]. *)
Definition is_pre (p x : string) : Prop := exists r, x = (p ++ r)%string.

(** [a < b] on strings: the order of code units. *)
Definition slt (a b : string) : Prop := String.ltb a b = true.

(** The key stored in a value under [at_]. *)
Definition kof (at_ : string) (v : value) : string :=
  match v with
  | VObject _ props =>
      match assoc at_ props with Some (VString s) => s | _ => ""%string end
  | _ => ""%string
  end.

(** A plain object that carries a string under [at_]. *)
Definition okv (at_ : string) (v : value) : Prop :=
  exists props s, v = VObject PlainObject props /\ assoc at_ props = Some (VString s).

(** The last value of a list that has the key [s]. *)
Fixpoint lastk (at_ : string) (s : string) (l : list value) : option value :=
  match l with
  | [] => None
  | x :: t =>
      match lastk at_ s t with
      | Some v => Some v
      | None => if String.eqb (kof at_ x) s then Some x else None
      end
  end.

(** What a lookup of [s] in a bin answers. *)
Definition res (at_ : string) (l : list value) (s : string) : value :=
  match lastk at_ s l with Some v => v | None => VUndefined end.

(** The needle of a search. *)
Definition needle (at_ : string) (s : string) : value :=
  VObject PlainObject [(at_, VString s)].

(** [x < y ? -1 : (x > y ? 1 : 0)] on two keys. *)
Definition c3 (x y : string) : Z :=
  if String.ltb x y then -1 else if String.ltb y x then 1 else 0.

(** The options of a trie of the string domain with [attr] and unique
    keys. *)
Definition string_attr_options (at_ : string) (bs : Z) : options :=
  {| uniqueKeys := true; binSize := bs; attr := Some at_;
     typeOpts := Some StringType |}.

(** Bins sorted by key, with and without repeated keys. *)
Definition nsorted (at_ : string) : list value -> Prop :=
  StronglySorted (fun a b => String.ltb (kof at_ b) (kof at_ a) = false).
Definition ssorted (at_ : string) : list value -> Prop :=
  StronglySorted (fun a b => String.ltb (kof at_ a) (kof at_ b) = true).

(** A well-formed tree of the string domain with [attr]: skips are
    prefixes of the keys below them, an edge is named by the character
    that follows the skip, the internal value has the skip as key, and a
    bin that is not dirty is strictly sorted. *)
Inductive wf (at_ : string) : node -> Prop :=
| wf_term p l d :
    Forall (okv at_) l ->
    Forall (fun v => is_pre p (kof at_ v)) l ->
    (d = false -> ssorted at_ l) ->
    wf at_ (Node (KString p) None (VArray l) d)
| wf_branch p es iv d :
    (iv = VUndefined \/ (okv at_ iv /\ kof at_ iv = p)) ->
    Forall (fun e : string * node =>
              wf at_ (snd e) /\
              exists c q, fst e = String c "" /\ skip (snd e) = KString q /\
                          is_pre (p ++ String c "") q) (aprops es) ->
    wf at_ (Node (KString p) (Some es) iv d).

(** What the tree answers for a key: the walk of [find], with the bin
    search replaced by [res]. *)
Inductive lookup (at_ : string) : node -> string -> value -> Prop :=
| lk_term p l d s :
    lookup at_ (Node (KString p) None (VArray l) d) s (res at_ l s)
| lk_off p es iv d s :
    ~ is_pre p s -> lookup at_ (Node (KString p) (Some es) iv d) s VUndefined
| lk_here p es iv d :
    lookup at_ (Node (KString p) (Some es) iv d) p iv
| lk_none p es iv d c r :
    assoc (String c "") (aprops es) = None ->
    lookup at_ (Node (KString p) (Some es) iv d) (p ++ String c r) VUndefined
| lk_child p es iv d c r child v :
    assoc (String c "") (aprops es) = Some child ->
    lookup at_ child (p ++ String c r) v ->
    lookup at_ (Node (KString p) (Some es) iv d) (p ++ String c r) v.

(** The order of characters by code. *)
Definition cle (c d : ascii) : Prop := (N_of_ascii c <= N_of_ascii d)%N.
Definition clt (c d : ascii) : Prop := (N_of_ascii c < N_of_ascii d)%N.

(** A value with the one-character string [_explode] files it under. *)
Definition tag (ch : value -> ascii) (v : value) : value * value :=
  (VString (String (ch v) ""), v).
Definition tag_group (g : ascii * list value) : value * list value :=
  (VString (String (fst g) ""), snd g).

(** The character of a key that follows a prefix of length [n]. *)
Definition chr_at (at_ : string) (n : nat) (v : value) : ascii :=
  match substring n 1 (kof at_ v) with
  | String c _ => c
  | EmptyString => Ascii.zero
  end.

(** The runs [_explode] cuts a list into, by a character function: the
    loop [runs] on values tagged with one-character strings. *)
Fixpoint runs_by (ch : value -> ascii) (c : ascii) (acc rest : list value)
  : list (ascii * list value) :=
  match rest with
  | [] => [(c, rev acc)]
  | v :: t =>
      if Ascii.eqb c (ch v) then runs_by ch c (v :: acc) t
      else (c, rev acc) :: runs_by ch (ch v) [v] t
  end.

(** The runs of a list, from its first value on: [group_runs]. *)
Definition runs_of (ch : value -> ascii) (l : list value)
  : list (ascii * list value) :=
  match l with
  | [] => []
  | v :: t => runs_by ch (ch v) [v] t
  end.

(** The constructor call of [_explode], as a function of the slice. *)
Definition child_of (o : options) (fuel : nat) (vs : list value) : outcome node :=
  sk <- commonPrefix o vs ;;
  explode o fuel (Node sk None (VArray vs) false).

(** What [_explode] builds from a strictly sorted bin, with [fuel]. *)
Definition build_ok (at_ : string) (bs : Z) (fuel : nat) : Prop :=
  forall p l n',
    ssorted at_ l -> Forall (okv at_) l ->
    Forall (fun v => is_pre p (kof at_ v)) l ->
    explode (string_attr_options at_ bs) fuel
      (Node (KString p) None (VArray l) false) = Ret n' ->
    wf at_ n' /\ (forall s, lookup at_ n' s (res at_ l s)) /\
    (l <> [] -> exists p', skip n' = KString p' /\ is_pre p p').

(** No key the tree answers is longer than [M]. *)
Definition keys_le (at_ : string) (M : nat) (n : node) : Prop :=
  forall s r, lookup at_ n s r -> r <> VUndefined -> (String.length s <= M)%nat.

(** [new Trie({attr: at_, binSize: bs})] *)
Definition string_attr_config (at_ : string) (bs : Z) : config :=
  {| cfg_type := None; cfg_attr := Some at_;
     cfg_uniqueKeys := None; cfg_binSize := Some bs |}.

(** The tries of the string domain with [attr] and unique keys that
    [add] and [get] calls build from the constructor, with the values
    added so far, in the order of the calls. *)
Inductive built (at_ : string) (bs : Z) : Trie -> list value -> Prop :=
| built_new t :
    Trie.new (string_attr_config at_ bs) = Ret t -> built at_ bs t []
| built_add fuel v t l t' :
    built at_ bs t l -> okv at_ v -> Trie.add fuel v t = Ret t' ->
    built at_ bs t' (l ++ [v])
| built_get fuel k f t l r t' :
    built at_ bs t l -> Trie.get fuel (VString k) f t = Ret (r, t') ->
    built at_ bs t' l.

(** [new Trie({attr: "k", binSize: 1})] after [add({k: "a"})] and
    [add({k: "b"})]: the root has exploded into two edges. *)
Definition two_key_trie : outcome Trie :=
  t <- Trie.new (string_attr_config "k" 1) ;;
  t <- Trie.add 8 (entry "a") t ;;
  Trie.add 8 (entry "b") t.

(** [x => x.v === 1] as filter: it reads a property of its argument. *)
Definition reads_v : filter_fn :=
  fun x => v <- get_prop x "v" ;; Ret (strict_eq v (VNumber 1)).

Set Implicit Arguments.

(* ================================================================== *)
(** * Theorems *)

(** ** Outcomes *)

Lemma bind_Ret_inv {A B} (m : outcome A) (k : A -> outcome B) (b : B) :
  bind m k = Ret b -> exists a, m = Ret a /\ k a = Ret b.
Proof. destruct m; simpl; intros H; try discriminate; eauto. Qed.

(** Splits a hypothesis [x <- m ;; k = Ret b] into [m = Ret a] and
    [k a = Ret b]. *)
Ltac bind_inv H a E :=
  apply bind_Ret_inv in H; destruct H as (a & E & H).

(** ** Round trip *)

(** C1 (code defect).  In a trie built with default options, whatever the
    string [s], [get(s)] right after [add(s)] returns [undefined]: the bin
    search compares through the string comparator, which answers with a
    function, never with 0. *)
Theorem default_trie_get_after_add_is_absent (s : string) (fuel : nat) :
  (t <- Trie.new default_config ;;
   t <- Trie.add (S fuel) (VString s) t ;;
   '(found, _) <- Trie.get (S fuel) (VString s) None t ;;
   Ret found) = Ret VUndefined.
Proof.
  cbn. destruct s; reflexivity.
Qed.

(** C2 (code defect).  In the numeric scenario the three [add]s return,
    and both lookups throw a [TypeError]: [_search] builds its needle with
    [setKey({}, key)], which calls the data field [key.value]. *)
Theorem numeric_scenario_get_throws :
  (exists t, numeric_scenario = Ret t) /\
  (t <- numeric_scenario ;; Trie.get 8 (VNumber 0x1234567800000000) None t)
    = Throw TypeError /\
  (t <- numeric_scenario ;; Trie.get 8 (VNumber 0x1234000000000001) None t)
    = Throw TypeError.
Proof.
  split; [eexists; vm_compute; reflexivity|].
  split; vm_compute; reflexivity.
Qed.

(** ** The string comparator *)

(** C3 (code defect).  Without [attr], the string comparator returns a
    function for every pair of values, not a number; with [attr] it
    returns -1, 0 or 1 on values that carry string keys. *)
Theorem string_comparator_without_attr_is_a_function
    (a b : value) (unique : bool) (bin : Z) :
  StringKeys.comparator None a b = Ret CFunction /\
  opt_comparator {| uniqueKeys := unique; binSize := bin; attr := None;
                    typeOpts := Some StringType |} a b = Ret CFunction /\
  StringKeys.comparator (Some "k"%string) (entry "a") (entry "b")
    = Ret (CNumber (-1)).
Proof.
  assert (H : StringKeys.comparator None a b = Ret CFunction).
  { unfold StringKeys.comparator.
    assert (G : forall v, exists w,
               (if is_multi v then get_prop v "key" else Ret v) = Ret w).
    { intros v. destruct v as [| | | |c props]; simpl; eauto.
      destruct c; simpl; eauto.
      destruct (assoc "key" props); eauto. }
    destruct (G a) as (wa & ->). destruct (G b) as (wb & ->). reflexivity. }
  split; [exact H|]. split; [exact H|]. reflexivity.
Qed.

(** ** Compaction *)

(** C4 (code defect).  The tree is the one the claim describes; deleting
    the "b" entry returns it, but the root does not inherit the "a" child:
    [for .. of] sees no element in a jump table indexed by letters, the
    edge count is 0, the root becomes an empty terminal node, and the "a"
    value is no longer found. *)
Theorem compaction_drops_the_remaining_child :
  compaction_tree =
    Ret {| t_options := {| uniqueKeys := true; binSize := 1;
                           attr := Some "k"%string;
                           typeOpts := Some StringType |};
           root := Node (KString "")
                     (Some {| alength := 0;
                              aprops :=
                                [("a"%string,
                                  Node (KString "a") None (VArray [entry "a"]) false);
                                 ("b"%string,
                                  Node (KString "b") None (VArray [entry "b"]) false)]
                           |})
                     VUndefined false |} /\
  exists t,
    compaction_scenario = Ret (entry "b", t, VUndefined) /\
    root t = Node (KString "") None (VArray []) false.
Proof.
  split; [vm_compute; reflexivity|].
  eexists; split; vm_compute; reflexivity.
Qed.

(** ** Deleting from a bin *)

(** C5 (code defect).  In the duplicate-key scenario the entry found for
    "a" is a MultiValue of two members; [_delete] splits it into the keep
    part [{k:"a",v:1}] and the removed part [{k:"a",v:2}], and the removed
    part is returned, but the bin slot is not overwritten with the keep
    part: it still holds the MultiValue, now with one member. *)
Theorem delete_leaves_multivalue_in_slot :
  let kept := entry_v "a" 1 in
  let removed := entry_v "a" 2 in
  delete_ (duplicates_multi [kept; removed]) (Some v_is_2)
    = Ret (kept, removed, duplicates_multi [kept]) /\
  exists t,
    (t <- duplicates_tree ;; Trie.delete 8 (VString "a") (Some v_is_2) t)
      = Ret (removed, t) /\
    values (root t) = VArray [duplicates_multi [kept]; entry_v "b" 3].
Proof.
  split; [vm_compute; reflexivity|].
  eexists; split; vm_compute; reflexivity.
Qed.

(** ** Empty reset *)

(** C6 (code defect).  Numeric domain, two values in two children of the
    root.  Both deletes return what they removed and the trie is empty,
    yet the root is still a branching node and its skip is not reset:
    [for .. of] counts the holes of the jump table, so the edge count is
    3, never 0. *)
Theorem root_stays_branching_after_last_delete :
  exists t,
    empty_reset_scenario = Ret (entry_n 2, entry_n 1, t) /\
    is_terminal (root t) = false /\
    edges (root t) = Some {| alength := 3; aprops := [] |} /\
    skip (root t) <> opt_emptyPrefix (t_options t).
Proof.
  eexists. split; [vm_compute; reflexivity|].
  split; [reflexivity|]. split; [reflexivity|].
  vm_compute. discriminate.
Qed.

(** ** Unknown key domain *)

(** C9, the claim as stated fails: constructing a trie with the unknown
    type ["bogus"] returns a trie; nothing is thrown. *)
Lemma unknown_type_constructor_returns :
  (exists t, Trie.new unknown_type_config = Ret t) /\
  ~ (exists e, Trie.new unknown_type_config = Throw e).
Proof.
  split.
  - eexists. vm_compute. reflexivity.
  - intros (e & H). vm_compute in H. discriminate.
Qed.

(** C9, amended.  For an options object whose only members are the
    documented [type], [attr], [uniqueKeys] and [binSize] (it supplies no
    domain function of its own), with a [type] that names neither a key
    domain nor a property the table inherits and a [binSize] that is not
    negative, the constructor returns: it guards the resolution of the
    domain functions with [if (typeOpts)] and builds an empty terminal
    root.  The error is deferred: every [add], [get] and [delete] on that
    trie throws a [TypeError], and none of them reports a miss. *)
Theorem unknown_type_error_is_deferred
    (ty : string) (a : option string) (u : option bool) (b : option Z) :
  ty <> "string"%string -> ty <> "number"%string -> inherited ty = false ->
  (forall n, b = Some n -> 0 <= n) ->
  exists t,
    Trie.new {| cfg_type := Some ty; cfg_attr := a;
                cfg_uniqueKeys := u; cfg_binSize := b |} = Ret t /\
    typeOpts (t_options t) = None /\
    root t = Node KUndefined None (VArray []) false /\
    (forall fuel v, Trie.add fuel v t = Throw TypeError) /\
    (forall fuel k f, Trie.get fuel k f t = Throw TypeError) /\
    (forall fuel k f, Trie.delete fuel k f t = Throw TypeError).
Proof.
  intros Hs Hn Hi Hb.
  unfold Trie.new, KEY_TYPES; simpl.
  apply String.eqb_neq in Hs. apply String.eqb_neq in Hn.
  rewrite Hs, Hn, Hi. simpl.
  unfold new_Node, commonPrefix, opt_emptyPrefix; simpl.
  assert (Hle : (0 <=? match b with Some n => n | None => DEFAULT_binSize end) = true).
  { apply Z.leb_le. destruct b as [n|]; [apply Hb; reflexivity|].
    unfold DEFAULT_binSize; lia. }
  unfold len; simpl. rewrite Hle. simpl.
  eexists. split; [reflexivity|]. simpl.
  repeat split; reflexivity.
Qed.

Lemma unknown_type_error_is_deferred_witness :
  exists t,
    Trie.new unknown_type_config = Ret t /\
    typeOpts (t_options t) = None /\
    root t = Node KUndefined None (VArray []) false /\
    (forall fuel v, Trie.add fuel v t = Throw TypeError) /\
    (forall fuel k f, Trie.get fuel k f t = Throw TypeError) /\
    (forall fuel k f, Trie.delete fuel k f t = Throw TypeError).
Proof.
  apply (@unknown_type_error_is_deferred "bogus"%string None None None).
  - discriminate.
  - discriminate.
  - reflexivity.
  - intros n H; discriminate.
Defined.

(** ** Post-processing of [get] *)



(* ================================================================== *)
(** * Numeric keys: [match] and the common prefix *)

Unset Implicit Arguments.


Lemma field_bit s k w n :
  0 <= s -> 0 <= k -> 0 <= n ->
  Z.testbit (field s k w) n = (n <? k) && Z.testbit w (n + s).
Proof.
  intros Hs Hk Hn. unfold field.
  rewrite Z.land_spec, Z.shiftr_spec by lia.
  destruct (Z.ltb_spec n k).
  - rewrite Z.ones_spec_low by lia. now rewrite andb_true_r.
  - rewrite Z.ones_spec_high by lia. now rewrite andb_false_r.
Qed.

Lemma field_eq_iff s k a b :
  0 <= s -> 0 <= k ->
  field s k a = field s k b <->
  (forall n, 0 <= n < k -> Z.testbit a (n + s) = Z.testbit b (n + s)).
Proof.
  intros Hs Hk. split.
  - intros H n Hn.
    assert (E : Z.testbit (field s k a) n = Z.testbit (field s k b) n) by now rewrite H.
    rewrite !field_bit in E by lia.
    destruct (Z.ltb_spec n k); [exact E|lia].
  - intros H. apply Z.bits_inj'. intros n Hn.
    rewrite !field_bit by lia.
    destruct (Z.ltb_spec n k); [|reflexivity].
    simpl. apply H. lia.
Qed.

Lemma field_split s k1 k2 a b :
  0 <= s -> 0 <= k1 -> 0 <= k2 ->
  (field s (k1 + k2) a =? field s (k1 + k2) b) =
  (field s k1 a =? field s k1 b) && (field (s + k1) k2 a =? field (s + k1) k2 b).
Proof.
  intros Hs H1 H2. apply eq_true_iff_eq.
  rewrite andb_true_iff, !Z.eqb_eq, !field_eq_iff by lia.
  split.
  - intros H; split; intros n Hn.
    + apply H. lia.
    + replace (n + (s + k1)) with ((n + k1) + s) by lia. apply H. lia.
  - intros [Ha Hb] n Hn.
    destruct (Z.lt_ge_cases n k1).
    + apply Ha. lia.
    + replace (n + s) with ((n - k1) + (s + k1)) by lia. apply Hb. lia.
Qed.

Lemma field_mod s k m w :
  0 <= s -> 0 <= k -> s + k <= m -> field s k (w mod 2^m) = field s k w.
Proof.
  intros Hs Hk Hm. apply field_eq_iff; try lia.
  intros n Hn. apply Z.mod_pow2_bits_low. lia.
Qed.

Lemma int32_mod z : int32 z mod 2^32 = z mod 2^32.
Proof.
  unfold int32. rewrite Zminus_mod_idemp_l. f_equal. lia.
Qed.

Lemma field_int32 s k z :
  0 <= s -> 0 <= k -> s + k <= 32 -> field s k (int32 z) = field s k z.
Proof.
  intros. rewrite <- (field_mod s k 32 (int32 z)) by lia.
  rewrite int32_mod. apply field_mod; lia.
Qed.

Lemma field_shiftr s k t w :
  0 <= s -> 0 <= k -> 0 <= t -> field s k (Z.shiftr w t) = field (s + t) k w.
Proof.
  intros. apply Z.bits_inj'. intros n Hn.
  rewrite !field_bit by lia. rewrite Z.shiftr_spec by lia.
  now replace (n + s + t) with (n + (s + t)) by lia.
Qed.

Lemma field_shiftl_0 s k t w :
  0 <= s -> 0 <= k -> s + k <= t -> field s k (Z.shiftl w t) = 0.
Proof.
  intros. apply Z.bits_inj'. intros n Hn.
  rewrite field_bit by lia. rewrite Z.bits_0.
  destruct (Z.ltb_spec n k); [|reflexivity].
  simpl. apply Z.shiftl_spec_low. lia.
Qed.

Lemma field_lor s k a b :
  field s k (Z.lor a b) = Z.lor (field s k a) (field s k b).
Proof.
  unfold field. rewrite Z.shiftr_lor. apply Z.land_lor_distr_l.
Qed.

Lemma field_range s k w : 0 <= k -> 0 <= field s k w < 2^k.
Proof.
  intros. unfold field. rewrite Z.land_ones by lia. apply Z.mod_pos_bound.
  apply Z.pow_pos_nonneg; lia.
Qed.

Lemma int32_small z : 0 <= z < 2^31 -> int32 z = z.
Proof. intros. unfold int32. rewrite Z.mod_small; lia. Qed.

Lemma js_and_15 z : js_and z 0xF = field 0 4 z.
Proof.
  unfold js_and, field. rewrite Z.shiftr_0_r. change 15 with (Z.ones 4).
  apply int32_small.
  pose proof (field_range 0 4 z ltac:(lia)) as H. unfold field in H.
  rewrite Z.shiftr_0_r in H. change (2^4) with 16 in H. lia.
Qed.

(** [charAt] reads the nibble at [pos], counted from the top of the high
    word. *)
Lemma charAt_field v pos :
  0 <= pos < 16 ->
  NumericKey.charAt v pos =
    if pos <? 8 then field (28 - 4 * pos) 4 (high v)
    else field (60 - 4 * pos) 4 (low v).
Proof.
  intros Hpos. unfold NumericKey.charAt. rewrite js_and_15.
  remember (64 - (pos + 1) * 4) as y eqn:Ey.
  assert (Hy : 0 <= y < 64) by lia.
  unfold Long_shr_u.
  assert (Hl : Z.land y 63 = y).
  { change 63 with (Z.ones 6). rewrite Z.land_ones by lia.
    apply Z.mod_small. change (2^6) with 64. lia. }
  rewrite Hl.
  destruct (Z.eqb_spec y 0) as [E0|N0].
  - assert (pos = 15) by lia. subst pos. reflexivity.
  - destruct (Z.ltb_spec y 32) as [L32|G32].
    + assert (Hp : (pos <? 8) = false) by (apply Z.ltb_ge; lia).
      rewrite Hp. unfold fromBits; cbn [low]. rewrite field_int32 by lia.
      unfold js_or. rewrite field_int32 by lia. rewrite field_lor.
      unfold js_shl. rewrite field_int32 by lia.
      rewrite field_shiftl_0 by lia. rewrite Z.lor_0_r.
      unfold js_shru, uint32. rewrite field_shiftr by lia.
      rewrite field_mod by lia. f_equal. lia.
    + assert (Hp : (pos <? 8) = true) by (apply Z.ltb_lt; lia).
      rewrite Hp.
      destruct (Z.eqb_spec y 32) as [E32|N32].
      * unfold fromBits; cbn [low]. rewrite field_int32 by lia. f_equal. lia.
      * unfold fromBits; cbn [low]. rewrite field_int32 by lia.
        unfold js_shru, uint32. rewrite field_shiftr by lia.
        rewrite field_mod by lia. f_equal. lia.
Qed.

Lemma land_mask s k w :
  0 <= s -> 0 <= k ->
  Z.land w (Z.shiftl (Z.ones k) s) = Z.shiftl (field s k w) s.
Proof.
  intros Hs Hk. apply Z.bits_inj'. intros n Hn.
  rewrite Z.land_spec.
  destruct (Z.lt_ge_cases n s).
  - rewrite !Z.shiftl_spec_low by lia. apply andb_false_r.
  - rewrite !Z.shiftl_spec by lia. rewrite field_bit by lia.
    replace (n - s + s) with n by lia.
    destruct (Z.ltb_spec (n - s) k).
    + rewrite Z.ones_spec_low by lia. apply andb_comm.
    + rewrite Z.ones_spec_high by lia. apply andb_false_r.
Qed.

Lemma int32_eqb x y :
  0 <= x < 2^32 -> 0 <= y < 2^32 -> (int32 x =? int32 y) = (x =? y).
Proof.
  intros Hx Hy. apply eq_true_iff_eq. rewrite !Z.eqb_eq. split.
  - intros H. rewrite <- (Z.mod_small x (2^32)), <- (Z.mod_small y (2^32)) by lia.
    rewrite <- (int32_mod x), <- (int32_mod y). now rewrite H.
  - now intros ->.
Qed.

Lemma js_and_mask s k a b :
  0 <= s -> 0 <= k -> s + k <= 32 ->
  (js_and a (Z.shiftl (Z.ones k) s) =? js_and b (Z.shiftl (Z.ones k) s)) =
  (field s k a =? field s k b).
Proof.
  intros Hs Hk Hsk. unfold js_and. rewrite !land_mask by lia.
  assert (R : forall w, 0 <= Z.shiftl (field s k w) s < 2^32).
  { intros w. pose proof (field_range s k w Hk) as [H0 H1].
    rewrite Z.shiftl_mul_pow2 by lia.
    assert (0 < 2^s) by (apply Z.pow_pos_nonneg; lia).
    split; [nia|].
    apply Z.lt_le_trans with (2^k * 2^s); [nia|].
    rewrite <- Z.pow_add_r by lia. apply Z.pow_le_mono_r; lia. }
  rewrite int32_eqb by apply R.
  apply eq_true_iff_eq. rewrite !Z.eqb_eq. split.
  - intros H. rewrite !Z.shiftl_mul_pow2 in H by lia.
    apply Z.mul_reg_r in H; [exact H|].
    apply Z.pow_nonzero; lia.
  - now intros ->.
Qed.

Lemma field_js_shr s k t w :
  0 <= s -> 0 <= k -> 0 <= t -> s + t + k <= 32 ->
  field s k (js_shr w t) = field (s + t) k w.
Proof.
  intros. unfold js_shr. rewrite field_shiftr by lia. apply field_int32; lia.
Qed.

Lemma int32_eq_field a b :
  is_int32 a -> is_int32 b -> (a =? b) = (field 0 32 a =? field 0 32 b).
Proof.
  unfold is_int32. intros Ha Hb. apply eq_true_iff_eq. rewrite !Z.eqb_eq.
  split; [now intros ->|].
  unfold field. rewrite !Z.shiftr_0_r, !Z.land_ones by lia.
  intros H.
  pose proof (Z.div_mod a (2^32) ltac:(lia)).
  pose proof (Z.div_mod b (2^32) ltac:(lia)).
  pose proof (Z.mod_pos_bound a (2^32) ltac:(lia)).
  pose proof (Z.mod_pos_bound b (2^32) ltac:(lia)).
  lia.
Qed.

Lemma field_halves s k k1 s2 k2 a b :
  k = k1 + k2 -> s2 = s + k1 -> 0 <= s -> 0 <= k1 -> 0 <= k2 ->
  (field s k a =? field s k b) =
  (field s k1 a =? field s k1 b) && (field s2 k2 a =? field s2 k2 b).
Proof. intros -> ->. apply field_split. Qed.

Lemma field_js_shr_at s k t s2 w :
  s2 = s + t -> 0 <= s -> 0 <= k -> 0 <= t -> s + t + k <= 32 ->
  field s k (js_shr w t) = field s2 k w.
Proof. intros ->. apply field_js_shr. Qed.


Lemma cmp_leading a b :
  is_int32 a -> is_int32 b ->
  cmp a b = leading (fun i => nib a i =? nib b i) 0 8.
Proof.
  intros Ha Hb. unfold cmp.
  rewrite (int32_eq_field a b Ha Hb).
  change 0xFFFF0000 with (Z.shiftl (Z.ones 16) 16).
  change 0xFF00 with (Z.shiftl (Z.ones 8) 8).
  change 0xF0 with (Z.shiftl (Z.ones 4) 4).
  rewrite (js_and_mask 16 16 a b) by lia.
  rewrite (field_halves 0 32 16 16 16 a b) by lia.
  rewrite (field_halves 0 16 8 8 8 a b) by lia.
  rewrite (field_halves 16 16 8 24 8 a b) by lia.
  rewrite (field_halves 0 8 4 4 4 a b), (field_halves 8 8 4 12 4 a b),
          (field_halves 16 8 4 20 4 a b), (field_halves 24 8 4 28 4 a b) by lia.
  cbn [leading]. unfold nib.
  change (28 - 4 * 0) with 28. change (28 - 4 * (0 + 1)) with 24.
  change (28 - 4 * (0 + 1 + 1)) with 20.
  change (28 - 4 * (0 + 1 + 1 + 1)) with 16.
  change (28 - 4 * (0 + 1 + 1 + 1 + 1)) with 12.
  change (28 - 4 * (0 + 1 + 1 + 1 + 1 + 1)) with 8.
  change (28 - 4 * (0 + 1 + 1 + 1 + 1 + 1 + 1)) with 4.
  change (28 - 4 * (0 + 1 + 1 + 1 + 1 + 1 + 1 + 1)) with 0.
  remember (field 28 4 a =? field 28 4 b) as e0 eqn:H0.
  remember (field 24 4 a =? field 24 4 b) as e1 eqn:H1.
  remember (field 20 4 a =? field 20 4 b) as e2 eqn:H2.
  remember (field 16 4 a =? field 16 4 b) as e3 eqn:H3.
  remember (field 12 4 a =? field 12 4 b) as e4 eqn:H4.
  remember (field 8 4 a =? field 8 4 b) as e5 eqn:H5.
  remember (field 4 4 a =? field 4 4 b) as e6 eqn:H6.
  remember (field 0 4 a =? field 0 4 b) as e7 eqn:H7.
  destruct (e3 && e2 && (e1 && e0)) eqn:T1; cbv beta iota;
    rewrite (js_and_mask 8 8) by lia.
  - rewrite (field_halves 8 8 4 12 4 a b) by lia. rewrite <- H5, <- H4.
    destruct (e5 && e4) eqn:T2; cbv beta iota;
      rewrite (js_and_mask 4 4) by lia.
    + rewrite <- H6. clear - T1 T2.
      destruct e0, e1, e2, e3, e4, e5, e6, e7; simpl in T1, T2;
        try discriminate; reflexivity.
    + rewrite !(field_js_shr_at 4 4 8 12) by lia. rewrite <- H4. clear - T1 T2.
      destruct e0, e1, e2, e3, e4, e5, e6, e7; simpl in T1, T2;
        try discriminate; reflexivity.
  - rewrite !(field_js_shr_at 8 8 16 24) by lia.
    rewrite (field_halves 24 8 4 28 4 a b) by lia. rewrite <- H1, <- H0.
    destruct (e1 && e0) eqn:T2; cbv beta iota;
      rewrite (js_and_mask 4 4) by lia.
    + rewrite !(field_js_shr_at 4 4 16 20) by lia. rewrite <- H2. clear - T1 T2.
      destruct e0, e1, e2, e3, e4, e5, e6, e7; simpl in T1, T2;
        try discriminate; reflexivity.
    + rewrite !(field_js_shr_at 4 4 8 12) by lia.
      rewrite !(field_js_shr_at 12 4 16 28) by lia. rewrite <- H0. clear - T1 T2.
      destruct e0, e1, e2, e3, e4, e5, e6, e7; simpl in T1, T2;
        try discriminate; reflexivity.
Qed.

Lemma leading_ext f g i n :
  (forall j, i <= j < i + Z.of_nat n -> f j = g j) ->
  leading f i n = leading g i n.
Proof.
  revert i. induction n as [|n IH]; intros i H; [reflexivity|].
  cbn [leading]. rewrite (H i) by lia.
  destruct (g i); [|reflexivity]. f_equal. apply IH. intros j Hj. apply H. lia.
Qed.

Lemma leading_bound f i n : 0 <= leading f i n <= Z.of_nat n.
Proof.
  revert i. induction n as [|n IH]; intros i; cbn [leading]; [lia|].
  specialize (IH (i + 1)). destruct (f i); lia.
Qed.

Lemma leading_app f i n m :
  leading f i (n + m) =
    if leading f i n =? Z.of_nat n
    then Z.of_nat n + leading f (i + Z.of_nat n) m
    else leading f i n.
Proof.
  revert i. induction n as [|n IH]; intros i.
  - cbn [leading Nat.add Z.of_nat]. rewrite Z.add_0_r. reflexivity.
  - cbn [leading Nat.add]. destruct (f i).
    + rewrite IH. pose proof (leading_bound f (i + 1) n).
      replace (i + Z.of_nat (S n)) with (i + 1 + Z.of_nat n) by lia.
      destruct (Z.eqb_spec (leading f (i + 1) n) (Z.of_nat n)) as [E|E];
        destruct (Z.eqb_spec (1 + leading f (i + 1) n) (Z.of_nat (S n))); lia.
    + destruct (Z.eqb_spec 0 (Z.of_nat (S n))); [lia|reflexivity].
Qed.

Lemma leading_shift f d i n :
  leading f (i + d) n = leading (fun j => f (j + d)) i n.
Proof.
  revert i. induction n as [|n IH]; intros i; [reflexivity|].
  cbn [leading]. destruct (f (i + d)); [|reflexivity].
  f_equal. rewrite <- IH. f_equal. lia.
Qed.

Lemma cmp_refl a : cmp a a = 8.
Proof. unfold cmp. now rewrite Z.eqb_refl. Qed.

Lemma cmp_lt_8 a b : a <> b -> 0 <= cmp a b < 8.
Proof.
  intros H. unfold cmp. apply Z.eqb_neq in H. rewrite H.
  destruct (js_and a 4294901760 =? js_and b 4294901760).
  - destruct (js_and a 65280 =? js_and b 65280).
    + destruct (js_and a 240 =? js_and b 240); lia.
    + destruct (js_and (js_shr a 8) 240 =? js_and (js_shr b 8) 240); lia.
  - destruct (js_and (js_shr a 16) 65280 =? js_and (js_shr b 16) 65280).
    + destruct (js_and (js_shr a 16) 240 =? js_and (js_shr b 16) 240); lia.
    + destruct (js_and (js_shr (js_shr a 16) 8) 240 =? js_and (js_shr (js_shr b 16) 8) 240); lia.
Qed.

Lemma common_nibbles_words a b :
  Long_wf a -> Long_wf b ->
  common_nibbles a b =
    if high a =? high b then 8 + cmp (low a) (low b)
    else cmp (high a) (high b).
Proof.
  intros [Hal Hah] [Hbl Hbh]. unfold common_nibbles.
  change 16%nat with (8 + 8)%nat. rewrite leading_app.
  change (Z.of_nat 8) with 8. change (0 + 8) with (0 + 8).
  assert (Hhi : leading (fun i => NumericKey.charAt a i =? NumericKey.charAt b i) 0 8
                = cmp (high a) (high b)).
  { rewrite cmp_leading by assumption. apply leading_ext.
    intros j Hj. change (Z.of_nat 8) with 8 in Hj.
    rewrite !charAt_field by lia.
    assert (E : (j <? 8) = true) by (apply Z.ltb_lt; lia).
    rewrite E. reflexivity. }
  assert (Hlo : leading (fun i => NumericKey.charAt a i =? NumericKey.charAt b i) (0 + 8) 8
                = cmp (low a) (low b)).
  { rewrite cmp_leading by assumption. rewrite leading_shift. apply leading_ext.
    intros j Hj. change (Z.of_nat 8) with 8 in Hj.
    rewrite !charAt_field by lia.
    assert (E : (j + 8 <? 8) = false) by (apply Z.ltb_ge; lia).
    rewrite E. unfold nib.
    replace (60 - 4 * (j + 8)) with (28 - 4 * j) by lia. reflexivity. }
  rewrite Hhi, Hlo.
  destruct (Z.eqb_spec (high a) (high b)) as [E|E].
  - rewrite E, cmp_refl. reflexivity.
  - pose proof (cmp_lt_8 _ _ E).
    destruct (Z.eqb_spec (cmp (high a) (high b)) 8); [lia|reflexivity].
Qed.

(** C7.  For two numeric keys whose halves are 32-bit integers and whose
    lengths lie between 0 and 16, [match] returns the number of leading
    nibbles the two 64-bit values share, position 0 the most significant,
    capped at the smaller of the two lengths; two equal keys of length 16
    match at 16. *)
Theorem numeric_match_is_common_prefix a la b lb :
  Long_wf a -> Long_wf b -> 0 <= la <= 16 -> 0 <= lb <= 16 ->
  NumericKey.match_ a la b lb = Z.min (Z.min la lb) (common_nibbles a b).
Proof.
  intros Ha Hb Hla Hlb. rewrite common_nibbles_words by assumption.
  unfold NumericKey.match_.
  destruct (Z.eqb_spec la lb) as [El|El];
    destruct (Z.eqb_spec (high a) (high b)) as [Eh|Eh];
    destruct (Z.eqb_spec (low a) (low b)) as [Eo|Eo]; cbn [andb];
    try (pose proof (cmp_lt_8 _ _ Eh)); try (pose proof (cmp_lt_8 _ _ Eo));
    try rewrite Eo, cmp_refl;
    destruct (Z.ltb_spec 0 (Z.min la lb)); lia.
Qed.

Lemma numeric_match_is_common_prefix_witness :
  NumericKey.match_ (Long_fromNumber 0x1234567800000000) 16
                    (Long_fromNumber 0x1234000000000001) 16
  = Z.min (Z.min 16 16)
      (common_nibbles (Long_fromNumber 0x1234567800000000)
                      (Long_fromNumber 0x1234000000000001)).
Proof.
  apply numeric_match_is_common_prefix.
  - split; split; vm_compute; congruence.
  - split; split; vm_compute; congruence.
  - lia.
  - lia.
Defined.

(* ================================================================== *)
(** * The bin bound *)

Ltac inv_bind H :=
  let a := fresh "a" in
  let E := fresh "E" in
  apply bind_Ret_inv in H; destruct H as (a & E & H).

Ltac inv_Ret H := injection H; clear H; intros; subst.

Section ForallAssoc.
Variable T : Type.
Variable P : T -> Prop.
Let P' := fun e : string * T => P (snd e).

Lemma Forall_assoc name l c :
  Forall (fun e : string * T => P (snd e)) l -> assoc name l = Some c -> P c.
Proof.
  induction 1 as [|[k w] t Hw Ht IH]; simpl; [discriminate|].
  destruct (String.eqb k name); [intros [= <-]; exact Hw|exact IH].
Qed.

Lemma Forall_assoc_set name v l :
  Forall (fun e : string * T => P (snd e)) l -> P v ->
  Forall (fun e : string * T => P (snd e)) (assoc_set name v l).
Proof.
  intros Hl Hv. induction Hl as [|[k w] t Hw Ht IH]; simpl.
  - constructor; [exact Hv|constructor].
  - destruct (String.eqb k name); constructor; assumption.
Qed.

Lemma Forall_assoc_remove name l :
  Forall (fun e : string * T => P (snd e)) l ->
  Forall (fun e : string * T => P (snd e)) (assoc_remove name l).
Proof.
  induction 1 as [|[k w] t Hw Ht IH]; simpl; [constructor|].
  destruct (String.eqb k name); [assumption|constructor; assumption].
Qed.

Lemma arr_get_Forall (a : jsarray T) x c :
  Forall (fun e : string * T => P (snd e)) (aprops a) ->
  arr_get a x = Ret (Some c) -> P c.
Proof.
  intros Ha H. unfold arr_get in H. inv_bind H. inv_Ret H.
  eapply Forall_assoc; eauto.
Qed.

Lemma arr_set_Forall (a a' : jsarray T) x v :
  Forall (fun e : string * T => P (snd e)) (aprops a) -> P v ->
  arr_set a x v = Ret a' ->
  Forall (fun e : string * T => P (snd e)) (aprops a').
Proof.
  intros Ha Hv H. unfold arr_set in H. inv_bind H. inv_Ret H. simpl.
  apply Forall_assoc_set; assumption.
Qed.

Lemma arr_delete_Forall (a a' : jsarray T) x :
  Forall (fun e : string * T => P (snd e)) (aprops a) ->
  arr_delete a x = Ret a' ->
  Forall (fun e : string * T => P (snd e)) (aprops a').
Proof.
  intros Ha H. unfold arr_delete in H. inv_bind H. inv_Ret H. simpl.
  apply Forall_assoc_remove; assumption.
Qed.

Lemma arr_at_Forall (a : jsarray T) i c :
  Forall (fun e : string * T => P (snd e)) (aprops a) ->
  arr_at a i = Some c -> P c.
Proof. intros Ha H. eapply Forall_assoc; eauto. Qed.
End ForallAssoc.

Lemma as_array_inv v l : as_array v = Ret l -> v = VArray l.
Proof. destruct v; simpl; intros H; try discriminate. now inv_Ret H. Qed.

Section Sorting.
Variable o : options.

Lemma sort_insert_length x l l' :
  sort_insert o x l = Ret l' -> List.length l' = S (List.length l).
Proof.
  revert l'. induction l as [|y t IH]; simpl; intros l' H.
  - now inv_Ret H.
  - inv_bind H. destruct (cmp_sort_gt0 a).
    + now inv_Ret H.
    + inv_bind H. inv_Ret H. simpl. apply IH in E0. now rewrite E0.
Qed.

Lemma sort_into_length sorted todo l' :
  sort_into o sorted todo = Ret l' ->
  List.length l' = (List.length sorted + List.length todo)%nat.
Proof.
  revert sorted l'. induction todo as [|x t IH]; simpl; intros sorted l' H.
  - inv_Ret H. lia.
  - inv_bind H. apply IH in H. apply sort_insert_length in E. lia.
Qed.

Lemma array_sort_length arr l' :
  array_sort o arr = Ret l' -> List.length l' = List.length arr.
Proof. intros H. apply sort_into_length in H. exact H. Qed.

Lemma collapse_length cur rest r :
  collapse o cur rest = Ret r ->
  (1 <= List.length r <= S (List.length rest))%nat.
Proof.
  revert cur r. induction rest as [|x t IH]; simpl; intros cur r H.
  - inv_Ret H. simpl. lia.
  - inv_bind H. destruct (cmp_is0 a).
    + inv_bind H. apply IH in H. lia.
    + inv_bind H. inv_Ret H. apply IH in E0. simpl. lia.
Qed.

(** What [_sortValues] does to a node: nothing, or it replaces the bin
    by one that is no longer and is empty only if the bin was. *)
Lemma sortValues_inv this this' :
  sortValues o this = Ret this' ->
  this' = this \/
  exists l l',
    values this = VArray l /\
    this' = Node (skip this) (edges this) (VArray l') false /\
    (List.length l' <= List.length l)%nat /\
    (l <> [] -> l' <> []).
Proof.
  unfold sortValues. destruct (dirty this); [|intros H; inv_Ret H; now left].
  intros H. right. inv_bind H. apply as_array_inv in E.
  inv_bind H. inv_bind H. inv_Ret H.
  apply array_sort_length in E0.
  exists a, a1. split; [assumption|]. split; [reflexivity|].
  destruct a0 as [|x [|y t]].
  - inv_Ret E1. split; [simpl in *; lia|]. destruct a; [congruence|discriminate].
  - inv_Ret E1. split; [lia|]. discriminate.
  - apply collapse_length in E1. split; [simpl in *; lia|].
    intros _ ->. simpl in E1. lia.
Qed.
End Sorting.

Lemma runs_nonempty x acc rest :
  acc <> [] -> Forall (fun g : value * list value => snd g <> []) (runs x acc rest).
Proof.
  revert x acc. induction rest as [|[c v] t IH]; intros x acc Hacc; simpl.
  - constructor; [|constructor]. simpl. intros E. apply Hacc.
    apply (f_equal (@rev value)) in E. now rewrite rev_involutive in E.
  - destruct (strict_eq x c).
    + apply IH. discriminate.
    + constructor.
      * simpl. intros E. apply Hacc.
        apply (f_equal (@rev value)) in E. now rewrite rev_involutive in E.
      * apply IH. discriminate.
Qed.

Lemma group_runs_nonempty l :
  Forall (fun g : value * list value => snd g <> []) (group_runs l).
Proof.
  destruct l as [|[c v] t]; simpl; [constructor|].
  apply runs_nonempty. discriminate.
Qed.

Lemma populate_Forall (P : node -> Prop) mk groups es es' :
  (forall x vs n, In (x, vs) groups -> mk vs = Ret n -> P n) ->
  Forall (fun e : string * node => P (snd e)) (aprops es) ->
  populate mk groups es = Ret es' ->
  Forall (fun e : string * node => P (snd e)) (aprops es').
Proof.
  revert es. induction groups as [|[x vs] t IH]; intros es Hmk Hes H; simpl in H.
  - now inv_Ret H.
  - inv_bind H. inv_bind H.
    apply (IH a0); [intros; eapply Hmk; [right|]; eassumption| |assumption].
    eapply arr_set_Forall; [exact Hes| |exact E0].
    eapply Hmk; [left; reflexivity|exact E].
Qed.

Section Invariant.
Variable o : options.
Let bs := binSize o.

Lemma sortValues_bounded this this' :
  bounded bs this -> sortValues o this = Ret this' -> bounded bs this'.
Proof.
  intros Hb H.
  apply sortValues_inv in H as [->|(l & l' & Hv & -> & Hlen & _)]; [assumption|].
  inversion Hb; subst; simpl in *.
  - inv_Ret Hv. constructor. unfold len in *. lia.
  - constructor. assumption.
Qed.

Lemma sortValues_terminal this this' :
  edges this = None -> sortValues o this = Ret this' -> edges this' = None.
Proof.
  intros He H.
  apply sortValues_inv in H as [->|(l & l' & Hv & -> & _)]; assumption.
Qed.

Lemma explode_bounded fuel this n :
  edges this = None -> explode o fuel this = Ret n -> bounded bs n.
Proof.
  revert this n. induction fuel as [|fuel IH]; intros this n He H;
    [discriminate|].
  cbn [explode] in H. inv_bind H. apply as_array_inv in E.
  destruct (len a <=? binSize o) eqn:L.
  { inv_Ret H. destruct n as [sk es vs d]. simpl in *. subst.
    constructor. apply Z.leb_le. exact L. }
  inv_bind H. pose proof (sortValues_terminal _ _ He E0) as He0.
  inv_bind H. apply as_array_inv in E1.
  destruct (len a1 <=? binSize o) eqn:L1.
  { inv_Ret H. destruct n as [sk es vs d]. simpl in *. subst.
    constructor. apply Z.leb_le. exact L1. }
  inv_bind H. inv_bind H. inv_bind H.
  match type of H with
  | (let '(_, _) := ?m in _) = _ => destruct m as [internal rest]
  end.
  inv_bind H. inv_Ret H. constructor.
  eapply populate_Forall with (es := arr_empty); [|apply Forall_nil|exact E5].
  intros x vs n Hin Hmk. simpl in Hmk. inv_bind Hmk.
  eapply IH; [|exact Hmk]. reflexivity.
Qed.

(** With a bin size below 1 a bin that is too long always explodes, and
    so do the bins of the children. *)
Lemma explode_branchy fuel this n l :
  bs < 1 -> edges this = None -> values this = VArray l -> bs < len l ->
  explode o fuel this = Ret n -> branchy n.
Proof.
  intros Hbs. revert this n l.
  induction fuel as [|fuel IH]; intros this n l He Hv Hl H; [discriminate|].
  cbn [explode] in H. rewrite Hv in H. simpl in H.
  destruct (Z.leb_spec (len l) (binSize o)) as [L|L]; [unfold bs in Hl; lia|].
  inv_bind H. inv_bind H. apply as_array_inv in E0.
  assert (Hl1 : bs < len a0).
  { apply sortValues_inv in E as [->|(l0 & l' & Hv0 & -> & Hlen & Hne)].
    - rewrite Hv in E0. inv_Ret E0. exact Hl.
    - simpl in E0. inv_Ret E0. rewrite Hv in Hv0. inv_Ret Hv0.
      destruct l0 as [|x t]; unfold len in *; simpl in *; [lia|].
      destruct a0; [exfalso; apply Hne; [discriminate|reflexivity]|].
      simpl. lia. }
  destruct (Z.leb_spec (len a0) (binSize o)) as [L1|L1]; [unfold bs in Hl1; lia|].
  inv_bind H. inv_bind H. inv_bind H.
  match type of H with
  | (let '(_, _) := ?m in _) = _ => destruct m as [internal rest]
  end.
  inv_bind H. inv_Ret H. constructor.
  pose proof (group_runs_nonempty rest) as Hne.
  eapply populate_Forall with (es := arr_empty); [|apply Forall_nil|exact E4].
  intros x vs n Hin Hmk. simpl in Hmk. inv_bind Hmk.
  eapply (IH (Node a5 None (VArray vs) false) _ vs); [reflexivity|reflexivity| |exact Hmk].
  rewrite Forall_forall in Hne. specialize (Hne _ Hin). simpl in Hne.
  destruct vs; [congruence|]. unfold len; simpl. lia.
Qed.

Lemma insert_inv k v this this' :
  insert o k v this = Ret this' ->
  edges this' = edges this /\
  exists arr, values this = VArray arr /\ values this' = VArray (arr ++ [v]).
Proof.
  unfold insert. intros H. inv_bind H. inv_bind H. inv_bind H. inv_bind H.
  apply as_array_inv in E2. inv_bind H. inv_Ret H. simpl.
  split; [reflexivity|]. eauto.
Qed.

Lemma new_Node_bounded fuel vs n :
  new_Node o fuel vs = Ret n -> bounded bs n.
Proof.
  unfold new_Node. intros H. inv_bind H.
  eapply explode_bounded; [|exact H]. reflexivity.
Qed.

Lemma new_Node_branchy fuel vs n :
  bs < 1 -> bs < len vs -> new_Node o fuel vs = Ret n -> branchy n.
Proof.
  unfold new_Node. intros Hbs Hl H. inv_bind H.
  eapply explode_branchy; [exact Hbs| | |exact Hl|exact H]; reflexivity.
Qed.

Lemma add_bounded fuel k v this n :
  bounded bs this -> add o fuel k v this = Ret n -> bounded bs n.
Proof.
  revert k v this n. induction fuel as [|fuel IH]; intros k v this n Hb H;
    [discriminate|].
  cbn [add] in H. destruct (edges this) as [es|] eqn:He.
  - inv_bind H. inv_bind H.
    assert (Hes : Forall (fun e : string * node => bounded bs (snd e)) (aprops es)).
    { inversion Hb; subst; simpl in He; [discriminate|]. now inv_Ret He. }
    destruct (a =? a0).
    + inv_bind H. destruct (a =? a1).
      * inv_bind H. inv_Ret H. constructor. exact Hes.
      * inv_bind H. inv_bind H. inv_bind H. inv_bind H. inv_Ret H.
        constructor. eapply arr_set_Forall; [exact Hes| |exact E5].
        destruct a3 as [c|].
        -- eapply IH; [|exact E4]. eapply arr_get_Forall; [exact Hes|exact E3].
        -- eapply new_Node_bounded; exact E4.
    + inv_bind H. inv_bind H. inv_bind H. inv_bind H. inv_bind H.
      eapply IH; [|exact H]. constructor.
      eapply arr_set_Forall with (a := arr_empty); [apply Forall_nil| |exact E5].
      constructor. exact Hes.
  - inv_bind H. apply insert_inv in E as [Ee _].
    eapply explode_bounded; [|exact H]. congruence.
Qed.

Lemma branchy_edges_inv this :
  branchy this ->
  exists es, edges this = Some es /\
             Forall (fun e : string * node => branchy (snd e)) (aprops es).
Proof. intros H. inversion H; subst. simpl. eauto. Qed.

Lemma add_branchy fuel k v this n :
  bs < 1 -> branchy this \/ edges this = None ->
  add o fuel k v this = Ret n -> branchy n.
Proof.
  intros Hbs. revert k v this n.
  induction fuel as [|fuel IH]; intros k v this n Hb H; [discriminate|].
  cbn [add] in H. destruct (edges this) as [es|] eqn:He.
  - destruct Hb as [Hb|Hb]; [|discriminate].
    apply branchy_edges_inv in Hb as (es0 & He0 & Hes).
    rewrite He in He0. inv_Ret He0.
    inv_bind H. inv_bind H.
    destruct (a =? a0).
    + inv_bind H. destruct (a =? a1).
      * inv_bind H. inv_Ret H. constructor. exact Hes.
      * inv_bind H. inv_bind H. inv_bind H. inv_bind H. inv_Ret H.
        constructor. eapply arr_set_Forall; [exact Hes| |exact E5].
        destruct a3 as [c|].
        -- eapply IH; [|exact E4]. left.
           eapply arr_get_Forall; [exact Hes|exact E3].
        -- eapply new_Node_branchy; [exact Hbs| |exact E4].
           unfold len; simpl. lia.
    + inv_bind H. inv_bind H. inv_bind H. inv_bind H. inv_bind H.
      eapply IH; [|exact H]. left. constructor.
      eapply arr_set_Forall with (a := arr_empty); [apply Forall_nil| |exact E5].
      constructor. exact Hes.
  - inv_bind H. apply insert_inv in E as (Ee & arr & _ & Hv).
    eapply explode_branchy; [exact Hbs| |exact Hv| |exact H].
    + congruence.
    + unfold len. rewrite length_app. simpl. lia.
Qed.
End Invariant.

Lemma list_remove_length i l :
  (List.length (list_remove i l) <= List.length l)%nat.
Proof.
  revert i. induction l as [|x t IH]; intros [|i]; simpl; try lia.
  specialize (IH i). lia.
Qed.

Lemma list_update_length i v l :
  List.length (list_update i v l) = List.length l.
Proof.
  revert i. induction l as [|x t IH]; intros [|i]; simpl; try lia.
  now rewrite IH.
Qed.

Section Invariant2.
Variable o : options.
Let bs := binSize o.

Lemma search_inv k this r this' :
  search o k this = Ret (r, this') -> sortValues o this = Ret this'.
Proof.
  unfold search. intros H. inv_bind H. inv_bind H. inv_bind H. inv_bind H.
  inv_Ret H. exact E.
Qed.

(** [find] rebuilds the path to the node the callback worked on: a
    property of nodes that branching nodes have exactly when their
    children do is kept if the callback keeps it. *)
Lemma find_preserves (P : node -> Prop) (R : Type) fuel nd k
    (cb : node -> bool -> outcome (R * node)) r nd' :
  (forall n es, P n -> edges n = Some es ->
                Forall (fun e : string * node => P (snd e)) (aprops es)) ->
  (forall sk es v d,
      Forall (fun e : string * node => P (snd e)) (aprops es) ->
      P (Node sk (Some es) v d)) ->
  (forall n m x n', P n -> cb n m = Ret (x, n') -> P n') ->
  P nd -> find o fuel nd k cb = Ret (r, nd') -> P nd'.
Proof.
  intros Hinv Hmk Hcb. revert nd r nd'.
  induction fuel as [|fuel IH]; intros nd r nd' Hnd H; [discriminate|].
  cbn [find] in H. inv_bind H. inv_bind H.
  destruct (negb (a =? a0)); [eapply Hcb; eassumption|].
  destruct (edges nd) as [es|] eqn:He; [|eapply Hcb; eassumption].
  inv_bind H. destruct (a =? a1); [eapply Hcb; eassumption|].
  inv_bind H. inv_bind H. destruct a3 as [c|]; [|eapply Hcb; eassumption].
  inv_bind H. destruct a3 as [x c']. inv_bind H. inv_Ret H.
  apply Hmk. pose proof (Hinv _ _ Hnd He) as Hes.
  eapply arr_set_Forall; [exact Hes| |exact E5].
  eapply IH; [|exact E4]. eapply arr_get_Forall; [exact Hes|exact E3].
Qed.

Lemma bounded_children n es :
  bounded bs n -> edges n = Some es ->
  Forall (fun e : string * node => bounded bs (snd e)) (aprops es).
Proof.
  intros H He. inversion H; subst; simpl in He; [discriminate|].
  now inv_Ret He.
Qed.

Lemma branchy_children n es :
  branchy n -> edges n = Some es ->
  Forall (fun e : string * node => branchy (snd e)) (aprops es).
Proof. intros H He. inversion H; subst; simpl in He. now inv_Ret He. Qed.

Lemma get_bounded fuel k this r this' :
  bounded bs this -> get o fuel k this = Ret (r, this') -> bounded bs this'.
Proof.
  intros Hb H. unfold get in H.
  eapply find_preserves with (P := bounded bs); [| | |exact Hb|exact H].
  - apply bounded_children.
  - intros. constructor. assumption.
  - intros n m x n' Hn Hc. cbv beta in Hc.
    destruct (negb m); [now inv_Ret Hc|].
    destruct (edges n); [now inv_Ret Hc|].
    apply search_inv in Hc. eapply sortValues_bounded; eassumption.
Qed.

Lemma get_branchy fuel k this r this' :
  branchy this -> get o fuel k this = Ret (r, this') -> branchy this'.
Proof.
  intros Hb H. unfold get in H.
  eapply find_preserves with (P := branchy); [| | |exact Hb|exact H].
  - apply branchy_children.
  - intros. constructor. assumption.
  - intros n m x n' Hn Hc. cbv beta in Hc.
    destruct (negb m); [now inv_Ret Hc|].
    destruct (edges n) eqn:He; [now inv_Ret Hc|].
    inversion Hn; subst; discriminate.
Qed.

Lemma get_terminal fuel k this r this' :
  edges this = None -> get o fuel k this = Ret (r, this') ->
  edges this' = None.
Proof.
  intros He H. unfold get in H. destruct fuel as [|fuel]; [discriminate|].
  cbn [find] in H. inv_bind H. inv_bind H. rewrite He in H.
  destruct (negb (a =? a0)); cbn in H.
  - inv_Ret H. exact He.
  - apply search_inv in H. eapply sortValues_terminal; eassumption.
Qed.

Lemma compact_bounded path child this n :
  1 <= bs -> bounded bs this -> compact path child this = Ret n ->
  bounded bs n.
Proof.
  intros Hbs Hb H. unfold compact in H.
  destruct (edges child); [now inv_Ret H|].
  inv_bind H. destruct (negb (len a =? 0)); [now inv_Ret H|].
  destruct (edges this) as [es|] eqn:He; [|discriminate].
  inv_bind H.
  assert (Hes : Forall (fun e : string * node => bounded bs (snd e)) (aprops a0)).
  { eapply arr_delete_Forall; [|exact E0]. eapply bounded_children; eassumption. }
  destruct (alength a0 =? 0).
  - inv_Ret H.
    destruct (truthy (values this)); constructor; unfold len; simpl; lia.
  - destruct ((alength a0 =? 1) && is_undefined (values this)).
    + destruct (arr_at a0 (alength a0 - 1)) as [c|] eqn:Hc; [|discriminate].
      inv_Ret H. eapply arr_at_Forall in Hc; [|exact Hes].
      destruct c; exact Hc.
    + inv_Ret H. constructor. exact Hes.
Qed.

Lemma compact_of_branching path child this n :
  edges child <> None -> compact path child this = Ret n -> n = this.
Proof.
  intros He H. unfold compact in H.
  destruct (edges child); [now inv_Ret H|congruence].
Qed.

(** Deleting in a terminal node leaves a terminal node whose bin is no
    longer than before. *)
Lemma delete_terminal fuel k f this r this' :
  edges this = None -> bounded bs this ->
  delete o fuel k f this = Ret (r, this') ->
  edges this' = None /\ bounded bs this'.
Proof.
  intros He Hb H. destruct fuel as [|fuel]; [discriminate|].
  cbn [delete] in H. inv_bind H. inv_bind H.
  destruct (negb (a =? a0)); [inv_Ret H; now split|].
  rewrite He in H. inv_bind H.
  pose proof (sortValues_terminal _ _ _ He E1) as He1.
  pose proof (sortValues_bounded _ _ _ Hb E1) as Hb1.
  inv_bind H. inv_bind H. apply as_array_inv in E3. inv_bind H.
  destruct (0 <=? a4); [|inv_Ret H; now split].
  inv_bind H. destruct a5 as [[keep removed] val']. inv_Ret H.
  simpl. split; [exact He1|]. rewrite He1.
  inversion Hb1; subst; simpl in *; [|discriminate]. inv_Ret E3.
  constructor. unfold len in *.
  destruct (is_undefined keep).
  - pose proof (list_remove_length (Z.to_nat a4) a3). lia.
  - rewrite list_update_length. lia.
Qed.

Lemma delete_bounded fuel k f this r this' :
  1 <= bs -> bounded bs this ->
  delete o fuel k f this = Ret (r, this') -> bounded bs this'.
Proof.
  intros Hbs. revert this r this'.
  induction fuel as [|fuel IH]; intros this r this' Hb H; [discriminate|].
  destruct (edges this) as [es|] eqn:He;
    [|eapply delete_terminal; eassumption].
  cbn [delete] in H. inv_bind H. inv_bind H.
  destruct (negb (a =? a0)); [now inv_Ret H|].
  rewrite He in H. inv_bind H.
  pose proof (bounded_children _ _ Hb He) as Hes.
  destruct (a =? a1).
  - inv_bind H. destruct a2 as [[keep removed] val']. inv_Ret H.
    constructor. exact Hes.
  - inv_bind H. inv_bind H. destruct a3 as [c|]; [|now inv_Ret H].
    inv_bind H. destruct a3 as [ret c']. inv_bind H.
    assert (Hb' : bounded bs (Node (skip this) (Some a3) (values this) (dirty this))).
    { constructor. eapply arr_set_Forall; [exact Hes| |exact E5].
      eapply IH; [|exact E4]. eapply arr_get_Forall; [exact Hes|exact E3]. }
    destruct (negb (is_undefined ret)).
    + inv_bind H. inv_Ret H. eapply compact_bounded; eassumption.
    + inv_Ret H. exact Hb'.
Qed.

Lemma delete_branchy fuel k f this r this' :
  branchy this -> delete o fuel k f this = Ret (r, this') -> branchy this'.
Proof.
  revert this r this'.
  induction fuel as [|fuel IH]; intros this r this' Hb H; [discriminate|].
  cbn [delete] in H. inv_bind H. inv_bind H.
  destruct (negb (a =? a0)); [now inv_Ret H|].
  destruct (branchy_edges_inv _ Hb) as (es & He & Hes).
  rewrite He in H. inv_bind H.
  destruct (a =? a1).
  - inv_bind H. destruct a2 as [[keep removed] val']. inv_Ret H.
    constructor. exact Hes.
  - inv_bind H. inv_bind H. destruct a3 as [c|]; [|now inv_Ret H].
    inv_bind H. destruct a3 as [ret c']. inv_bind H.
    assert (Hc' : branchy c').
    { eapply IH; [|exact E4]. eapply arr_get_Forall; [exact Hes|exact E3]. }
    assert (Hb' : branchy (Node (skip this) (Some a3) (values this) (dirty this))).
    { constructor. eapply arr_set_Forall; [exact Hes|exact Hc'|exact E5]. }
    destruct (negb (is_undefined ret)).
    + inv_bind H. inv_Ret H.
      apply compact_of_branching in E6; [now subst|].
      inversion Hc'; subst; discriminate.
    + inv_Ret H. exact Hb'.
Qed.
End Invariant2.


Lemma bounded_bin_of bs n l : bin_of n l -> bounded bs n -> len l <= bs.
Proof.
  induction 1 as [sk l d|sk es v d p c l Hin Hbin IH]; intros Hb;
    inversion Hb; subst.
  - assumption.
  - apply IH. rewrite Forall_forall in H0. exact (H0 _ Hin).
Qed.

Lemma branchy_bin_of n l : bin_of n l -> branchy n -> False.
Proof.
  induction 1 as [sk l d|sk es v d p c l Hin Hbin IH]; intros Hb;
    inversion Hb; subst.
  apply IH. rewrite Forall_forall in H0. exact (H0 _ Hin).
Qed.

Lemma trie_inv_bins t l :
  trie_inv t -> bin_of (root t) l -> len l <= binSize (t_options t).
Proof.
  intros [[_ Hb]|[_ [Hb|[_ Hb]]]] Hbin.
  - eapply bounded_bin_of; eassumption.
  - exfalso. eapply branchy_bin_of; eassumption.
  - eapply bounded_bin_of; eassumption.
Qed.

Lemma new_inv cfg t : Trie.new cfg = Ret t -> trie_inv t.
Proof.
  unfold Trie.new. intros H. inv_bind H. inv_bind H. inv_Ret H.
  unfold trie_inv. cbn [t_options root].
  match type of E0 with new_Node ?o _ _ = _ => set (opts := o) in * end.
  destruct (Z.lt_ge_cases (binSize opts) 1) as [L|L].
  - right. split; [exact L|].
    destruct (Z.lt_ge_cases (binSize opts) 0) as [L0|L0].
    + left. eapply new_Node_branchy; [exact L| |exact E0]. exact L0.
    + right. split; [|eapply new_Node_bounded; exact E0].
      unfold new_Node in E0. inv_bind E0. cbn [explode values as_array bind] in E0.
      assert (Hle : (len (@nil value) <=? binSize opts) = true)
        by (apply Z.leb_le; change (len (@nil value)) with 0; lia).
      rewrite Hle in E0. now inv_Ret E0.
  - left. split; [lia|]. eapply new_Node_bounded; exact E0.
Qed.

Lemma add_inv fuel v t t' : trie_inv t -> Trie.add fuel v t = Ret t' -> trie_inv t'.
Proof.
  unfold Trie.add, trie_inv. intros Hi H. inv_bind H. inv_bind H. inv_Ret H.
  cbn [t_options root].
  destruct Hi as [[L Hb]|[L Hb]].
  - left. split; [exact L|]. eapply add_bounded; eassumption.
  - right. split; [exact L|]. left.
    eapply add_branchy; [exact L| |exact E0].
    destruct Hb as [Hb|[He _]]; [now left|now right].
Qed.

Lemma get_inv fuel k f t r t' :
  trie_inv t -> Trie.get fuel k f t = Ret (r, t') -> trie_inv t'.
Proof.
  unfold Trie.get, trie_inv. intros Hi H. inv_bind H. inv_bind H.
  destruct a0 as [ret rt].
  assert (Ht' : t' = {| t_options := t_options t; root := rt |}).
  { destruct (is_multi ret).
    - inv_bind H. inv_bind H. inv_bind H. now inv_Ret H.
    - inv_bind H. now inv_Ret H. }
  subst t'. cbn [t_options root]. clear H.
  destruct Hi as [[L Hb]|[L Hb]].
  - left. split; [exact L|]. eapply get_bounded; eassumption.
  - right. split; [exact L|]. destruct Hb as [Hb|[He Hb]].
    + left. eapply get_branchy; eassumption.
    + right. split; [eapply get_terminal|eapply get_bounded]; eassumption.
Qed.

Lemma bounded_reskip bs sk sk' e v d :
  bounded bs (Node sk e v d) -> bounded bs (Node sk' e v d).
Proof. intros H. inversion H; subst; constructor; assumption. Qed.

Lemma delete_inv fuel k f t r t' :
  trie_inv t -> Trie.delete fuel k f t = Ret (r, t') -> trie_inv t'.
Proof.
  unfold Trie.delete, trie_inv. intros Hi H. inv_bind H. inv_bind H.
  destruct a0 as [ret rt]. inv_bind H. inv_Ret H. cbn [t_options root].
  assert (Hreset : forall P : node -> Prop,
             (forall sk sk' e v d, P (Node sk e v d) -> P (Node sk' e v d)) ->
             P rt -> P a0).
  { intros P HP Hrt. destruct (edges rt) eqn:He; [now inv_Ret E1|].
    inv_bind E1. inv_Ret E1. destruct (len a1 =? 0); [|exact Hrt].
    destruct rt as [sk e v d]; simpl in *; subst e. eapply HP; exact Hrt. }
  destruct Hi as [[L Hb]|[L Hb]].
  - left. split; [exact L|]. apply Hreset; [apply bounded_reskip|].
    eapply delete_bounded; eassumption.
  - right. split; [exact L|]. destruct Hb as [Hb|[He Hb]].
    + left. apply Hreset.
      * intros sk sk' e v d Hn. inversion Hn; subst. constructor. assumption.
      * eapply delete_branchy; eassumption.
    + right. destruct (delete_terminal _ _ _ _ _ _ _ He Hb E0) as [He' Hb'].
      apply (Hreset (fun n => edges n = None /\ bounded (binSize (t_options t)) n)).
      * intros sk sk' e v d [Hn1 Hn2]. split; [exact Hn1|].
        eapply bounded_reskip; exact Hn2.
      * now split.
Qed.

Lemma reachable_inv cfg t : reachable cfg t -> trie_inv t.
Proof.
  induction 1.
  - eapply new_inv; eassumption.
  - eapply add_inv; eassumption.
  - eapply get_inv; eassumption.
  - eapply delete_inv; eassumption.
Qed.

Lemma nodup_length keys :
  (List.length (nodup key_eq_dec keys) <= List.length keys)%nat.
Proof.
  induction keys as [|x t IH]; simpl; [lia|].
  destruct (in_dec key_eq_dec x t); simpl; lia.
Qed.

Lemma mapM_length {A B} (f : A -> outcome B) l l' :
  mapM f l = Ret l' -> List.length l' = List.length l.
Proof.
  revert l'. induction l as [|x t IH]; simpl; intros l' H.
  - now inv_Ret H.
  - inv_bind H. inv_bind H. inv_Ret H. simpl. now rewrite (IH _ E0).
Qed.

(** C8.  In every trie reached from the constructor by [add], [get] and
    [delete] calls that return, every bin of a terminal node holds at most
    [binSize] values, and so at most [binSize] distinct keys.  (Inside
    [add] the bin is one longer between [_insert] and [_explode].) *)
Theorem bins_hold_at_most_binSize cfg t l :
  reachable cfg t -> bin_of (root t) l ->
  len l <= binSize (t_options t) /\
  forall keys, mapM (opt_getKey (t_options t)) l = Ret keys ->
               distinct_count keys <= binSize (t_options t).
Proof.
  intros Hr Hbin.
  pose proof (trie_inv_bins _ _ (reachable_inv _ _ Hr) Hbin) as Hlen.
  split; [exact Hlen|].
  intros keys Hk. apply mapM_length in Hk. unfold distinct_count.
  pose proof (nodup_length keys). unfold len in *. lia.
Qed.

Lemma bins_hold_at_most_binSize_witness :
  let t := {| t_options := {| uniqueKeys := true; binSize := 1;
                              attr := Some "k"%string;
                              typeOpts := Some StringType |};
              root := Node (KString "")
                        (Some {| alength := 0;
                                 aprops :=
                                   [("a"%string,
                                     Node (KString "a") None (VArray [entry "a"]) false);
                                    ("b"%string,
                                     Node (KString "b") None (VArray [entry "b"]) false)]
                              |})
                        VUndefined false |} in
  len [entry "a"] <= binSize (t_options t) /\
  forall keys, mapM (opt_getKey (t_options t)) [entry "a"] = Ret keys ->
               distinct_count keys <= binSize (t_options t).
Proof.
  intros t.
  apply (bins_hold_at_most_binSize (string_k_config 1 true) t).
  - eapply reach_add with (fuel := 8%nat) (v := entry "b").
    + eapply reach_add with (fuel := 8%nat) (v := entry "a").
      * apply reach_new. vm_compute. reflexivity.
      * vm_compute. reflexivity.
    + vm_compute. reflexivity.
  - eapply bin_below; [left; reflexivity|constructor].
Defined.

(* ================================================================== *)
(** * String keys: [match] and [prefix] *)

Lemma string_match_bounds a b :
  0 <= string_match a b <= Z.min (Z.of_nat (String.length a)) (Z.of_nat (String.length b)).
Proof.
  revert b. induction a as [|x a IH]; intros [|y b]; cbn [string_match String.length]; try lia.
  destruct (Ascii.eqb x y); [|lia]. specialize (IH b). lia.
Qed.

Lemma string_match_sym a b : string_match a b = string_match b a.
Proof.
  revert b. induction a as [|x a IH]; intros [|y b]; cbn [string_match]; try reflexivity.
  rewrite (Ascii.eqb_sym x y). destruct (Ascii.eqb y x); [|reflexivity].
  now rewrite IH.
Qed.

Lemma string_match_refl a : string_match a a = Z.of_nat (String.length a).
Proof.
  induction a as [|x a IH]; cbn [string_match String.length]; [reflexivity|].
  rewrite Ascii.eqb_refl, IH. lia.
Qed.

Lemma string_match_prefix a b :
  substring 0 (Z.to_nat (string_match a b)) a =
  substring 0 (Z.to_nat (string_match a b)) b.
Proof.
  revert b. induction a as [|x a IH]; intros [|y b]; cbn [string_match]; try reflexivity.
  destruct (Ascii.eqb_spec x y) as [->|N]; [|reflexivity].
  pose proof (string_match_bounds a b).
  replace (Z.to_nat (1 + string_match a b)) with (S (Z.to_nat (string_match a b))) by lia.
  cbn [substring]. now rewrite IH.
Qed.

Lemma string_match_differs a b :
  string_match a b < Z.of_nat (String.length a) ->
  string_match a b < Z.of_nat (String.length b) ->
  substring (Z.to_nat (string_match a b)) 1 a <>
  substring (Z.to_nat (string_match a b)) 1 b.
Proof.
  revert b. induction a as [|x a IH]; intros [|y b]; cbn [string_match String.length]; try lia.
  destruct (Ascii.eqb_spec x y) as [->|N].
  - intros Ha Hb. pose proof (string_match_bounds a b).
    replace (Z.to_nat (1 + string_match a b)) with (S (Z.to_nat (string_match a b))) by lia.
    cbn [substring]. apply IH; lia.
  - intros _ _. cbn. destruct a, b; cbn; congruence.
Qed.

Lemma substring_length n s :
  (n <= String.length s)%nat -> String.length (substring 0 n s) = n.
Proof.
  revert s. induction n as [|n IH]; intros [|x s] H; simpl in H; simpl;
    try reflexivity; try lia.
  f_equal. apply IH. lia.
Qed.

Lemma string_match_substring n s :
  (n <= String.length s)%nat ->
  string_match s (substring 0 n s) = Z.of_nat n.
Proof.
  revert s. induction n as [|n IH]; intros [|x s] H; simpl in H;
    cbn [substring string_match]; try reflexivity; try lia.
  rewrite Ascii.eqb_refl, IH by lia. lia.
Qed.

(** X1.  String [match] is the length of the longest common prefix: it is
    symmetric, not beyond either key, the two keys have the same prefix
    of that length, and unless it is the length of one of them the keys
    differ in the next character. *)
Theorem string_match_is_longest_common_prefix (a b : string) :
  exists n,
    StringKeys.match_ (KString a) (KString b) = Ret n /\
    StringKeys.match_ (KString b) (KString a) = Ret n /\
    0 <= n <= Z.min (Z.of_nat (String.length a)) (Z.of_nat (String.length b)) /\
    StringKeys.prefix (KString a) n = StringKeys.prefix (KString b) n /\
    (n = Z.of_nat (String.length a) \/ n = Z.of_nat (String.length b) \/
     key_charAt (KString a) n <> key_charAt (KString b) n).
Proof.
  exists (string_match a b). cbn [StringKeys.match_ StringKeys.prefix key_charAt].
  pose proof (string_match_bounds a b) as Hb.
  split; [reflexivity|]. split; [now rewrite (string_match_sym b a)|].
  split; [exact Hb|]. split; [now rewrite string_match_prefix|].
  destruct (Z.eq_dec (string_match a b) (Z.of_nat (String.length a))) as [E|Na];
    [now left|].
  destruct (Z.eq_dec (string_match a b) (Z.of_nat (String.length b))) as [E|Nb];
    [now right; left|].
  right; right.
  destruct (Z.ltb_spec (string_match a b) 0); [lia|].
  intros Heq. injection Heq. apply string_match_differs; lia.
Qed.

(** X2.  The prefix that [_insert] and the split of [add] store as the
    new skip has the length [match] returned, and [find] accepts it for
    the key and for the old skip: [match] against it is its length. *)
Theorem string_prefix_of_match_matches (key sk : string) :
  exists n p,
    StringKeys.match_ (KString key) (KString sk) = Ret n /\
    StringKeys.prefix (KString sk) n = Ret (KString p) /\
    key_length (KString p) = Ret n /\
    StringKeys.match_ (KString key) (KString p) = Ret n /\
    StringKeys.match_ (KString sk) (KString p) = Ret n.
Proof.
  exists (string_match key sk), (substring 0 (Z.to_nat (string_match key sk)) sk).
  pose proof (string_match_bounds key sk) as Hb.
  cbn [StringKeys.match_ StringKeys.prefix key_length].
  split; [reflexivity|]. split; [reflexivity|].
  assert (Hl : String.length (substring 0 (Z.to_nat (string_match key sk)) sk)
               = Z.to_nat (string_match key sk)) by (apply substring_length; lia).
  split; [rewrite Hl; f_equal; lia|].
  split; f_equal.
  - rewrite <- string_match_prefix. rewrite string_match_substring by lia. lia.
  - rewrite string_match_substring by lia. lia.
Qed.

(* ================================================================== *)
(** * Numeric keys: nibbles, [cmp], and the key a value carries *)

Lemma field_div s k w : 0 <= s -> 0 <= k -> field s k w = (w / 2^s) mod 2^k.
Proof.
  intros. unfold field. rewrite Z.land_ones, Z.shiftr_div_pow2 by lia. reflexivity.
Qed.

Lemma Long_unsigned_low s v :
  0 <= s -> s + 4 <= 32 -> field s 4 (Long_unsigned v) = field s 4 (low v).
Proof.
  intros. rewrite <- (field_mod s 4 32 (Long_unsigned v)) by lia.
  unfold Long_unsigned, uint32.
  rewrite Z.add_comm, Z.mod_add by lia. rewrite Z.mod_mod by lia.
  apply field_mod; lia.
Qed.

Lemma Long_unsigned_high s v :
  0 <= s -> s + 4 <= 32 -> field (s + 32) 4 (Long_unsigned v) = field s 4 (high v).
Proof.
  intros. rewrite <- field_shiftr by lia.
  rewrite Z.shiftr_div_pow2 by lia. unfold Long_unsigned, uint32.
  rewrite Z.div_add_l by lia.
  rewrite (Z.div_small (low v mod 2^32)) by (apply Z.mod_pos_bound; lia).
  rewrite Z.add_0_r. apply field_mod; lia.
Qed.

(** X3.  [charAt(pos)] is nibble [pos] of the 64-bit value, counted from
    the most significant end; it lies between 0 and 15. *)
Theorem charAt_is_nibble_from_the_top (v : Long) (pos : Z) :
  0 <= pos < 16 ->
  NumericKey.charAt v pos = (Long_unsigned v / 16 ^ (15 - pos)) mod 16 /\
  0 <= NumericKey.charAt v pos <= 15.
Proof.
  intros Hpos.
  assert (E : NumericKey.charAt v pos = field (60 - 4 * pos) 4 (Long_unsigned v)).
  { rewrite charAt_field by lia. destruct (Z.ltb_spec pos 8).
    - replace (60 - 4 * pos) with ((28 - 4 * pos) + 32) by lia.
      symmetry. apply Long_unsigned_high; lia.
    - symmetry. apply Long_unsigned_low; lia. }
  split.
  - rewrite E, field_div by lia. change 16 with (2^4) at 1.
    rewrite <- Z.pow_mul_r by lia.
    replace (4 * (15 - pos)) with (60 - 4 * pos) by lia. reflexivity.
  - rewrite E. pose proof (field_range (60 - 4 * pos) 4 (Long_unsigned v) ltac:(lia)).
    change (2^4) with 16 in *. lia.
Qed.

Lemma charAt_is_nibble_from_the_top_witness :
  NumericKey.charAt (fromBits 0 305419896) 2
    = (Long_unsigned (fromBits 0 305419896) / 16 ^ (15 - 2)) mod 16 /\
  0 <= NumericKey.charAt (fromBits 0 305419896) 2 <= 15.
Proof. apply (charAt_is_nibble_from_the_top (fromBits 0 305419896) 2). lia. Defined.

Lemma cmp_sym a b : cmp a b = cmp b a.
Proof.
  unfold cmp. rewrite (Z.eqb_sym b a). destruct (a =? b); [reflexivity|].
  rewrite (Z.eqb_sym (js_and b 4294901760)).
  destruct (js_and a 4294901760 =? js_and b 4294901760); cbv beta iota.
  - rewrite (Z.eqb_sym (js_and b 65280)).
    destruct (js_and a 65280 =? js_and b 65280); cbv beta iota.
    + now rewrite (Z.eqb_sym (js_and b 240)).
    + now rewrite (Z.eqb_sym (js_and (js_shr b 8) 240)).
  - rewrite (Z.eqb_sym (js_and (js_shr b 16) 65280)).
    destruct (js_and (js_shr a 16) 65280 =? js_and (js_shr b 16) 65280); cbv beta iota.
    + now rewrite (Z.eqb_sym (js_and (js_shr b 16) 240)).
    + now rewrite (Z.eqb_sym (js_and (js_shr (js_shr b 16) 8) 240)).
Qed.

Lemma cmp_range a b : 0 <= cmp a b <= 8.
Proof.
  destruct (Z.eq_dec a b) as [->|N].
  - rewrite cmp_refl. lia.
  - pose proof (cmp_lt_8 a b N). lia.
Qed.

(** X4.  [cmp] is symmetric, lies between 0 and 8, and is 8 exactly for
    equal words. *)
Theorem cmp_is_8_exactly_on_equal_words (a b : Z) :
  cmp a b = cmp b a /\ 0 <= cmp a b <= 8 /\ (cmp a b = 8 <-> a = b).
Proof.
  split; [apply cmp_sym|]. split; [apply cmp_range|].
  destruct (Z.eq_dec a b) as [->|N].
  - rewrite cmp_refl. tauto.
  - pose proof (cmp_lt_8 a b N). split; [lia|congruence].
Qed.

(** X5.  Numeric [match] is symmetric, never negative and never beyond
    the shorter key. *)
Theorem numeric_match_symmetric_and_bounded (a b : Long) (la lb : Z) :
  0 <= la -> 0 <= lb ->
  NumericKey.match_ a la b lb = NumericKey.match_ b lb a la /\
  0 <= NumericKey.match_ a la b lb <= Z.min la lb.
Proof.
  intros Ha Hb. unfold NumericKey.match_.
  rewrite (Z.eqb_sym lb la), (Z.eqb_sym (high b)), (Z.eqb_sym (low b)).
  rewrite (Z.min_comm lb la), (cmp_sym (low b)), (cmp_sym (high b)).
  pose proof (cmp_range (low a) (low b)) as Hl.
  pose proof (cmp_range (high a) (high b)) as Hh.
  destruct (Z.eqb_spec la lb) as [E|E]; cbn [andb].
  - destruct ((high a =? high b) && (low a =? low b)).
    + subst. split; [reflexivity|lia].
    + split; [reflexivity|].
      destruct (0 <? Z.min la lb) eqn:P; [|apply Z.ltb_ge in P; lia].
      destruct (high a =? high b); lia.
  - split; [reflexivity|].
    destruct (0 <? Z.min la lb) eqn:P; [|apply Z.ltb_ge in P; lia].
    destruct (high a =? high b); lia.
Qed.

Lemma numeric_match_symmetric_and_bounded_witness :
  NumericKey.match_ (fromBits 0 305397760) 16 (fromBits 0 305419896) 12
    = NumericKey.match_ (fromBits 0 305419896) 12 (fromBits 0 305397760) 16 /\
  0 <= NumericKey.match_ (fromBits 0 305397760) 16 (fromBits 0 305419896) 12
    <= Z.min 16 12.
Proof.
  apply (numeric_match_symmetric_and_bounded
           (fromBits 0 305397760) (fromBits 0 305419896) 16 12); lia.
Defined.

Lemma int32_id z : is_int32 z -> int32 z = z.
Proof. unfold is_int32, int32. intros H. rewrite Z.mod_small; lia. Qed.

Lemma int32_range z : is_int32 (int32 z).
Proof.
  unfold is_int32, int32.
  pose proof (Z.mod_pos_bound (z + 2^31) (2^32) ltac:(lia)). lia.
Qed.

Lemma int32_of_uint32 z : is_int32 z -> int32 (uint32 z) = z.
Proof.
  intros H. unfold int32, uint32.
  rewrite Zplus_mod_idemp_l. unfold is_int32 in H. rewrite Z.mod_small; lia.
Qed.

Lemma int32_congr x y : x mod 2^32 = y mod 2^32 -> int32 x = int32 y.
Proof.
  intros H. unfold int32.
  rewrite <- (Zplus_mod_idemp_l x), <- (Zplus_mod_idemp_l y), H. reflexivity.
Qed.

Lemma Long_toZ_range l :
  Long_wf l -> - 2^63 <= Long_toZ l < 2^63.
Proof.
  intros [Hl Hh]. unfold Long_toZ, uint32, is_int32 in *.
  pose proof (Z.mod_pos_bound (low l) (2^32) ltac:(lia)). lia.
Qed.

(** Writing the halves of the integer [z] gives back a [Long] that stands
    for [z]. *)
Lemma fromBits_of_toZ l :
  Long_wf l -> fromBits (Long_toZ l) (Long_toZ l / 2^32) = l.
Proof.
  intros [Hl Hh]. destruct l as [lo hi]. cbn [low high] in *.
  unfold fromBits, Long_toZ. cbn [low high]. f_equal.
  - rewrite <- (int32_of_uint32 lo Hl) at 2. apply int32_congr.
    rewrite Z.add_comm, Z.mod_add by lia. reflexivity.
  - rewrite Z.add_comm, Z.div_add by lia.
    unfold uint32. rewrite (Z.div_small (lo mod 2^32)) by (apply Z.mod_pos_bound; lia).
    apply int32_id. exact Hh.
Qed.

Lemma Long_fromNumber_toZ l :
  Long_wf l -> Long_fromNumber (Long_toZ l) = l.
Proof.
  intros Hwf. pose proof (Long_toZ_range l Hwf) as Hr.
  pose proof (fromBits_of_toZ l Hwf) as Hb.
  unfold Long_fromNumber.
  destruct (Z.leb_spec (Long_toZ l) (- 2^63)) as [L|L].
  { assert (E : Long_toZ l = - 2^63) by lia. rewrite E in Hb.
    rewrite <- Hb. reflexivity. }
  destruct (Z.leb_spec (2^63) (Long_toZ l + 1)) as [M|M].
  { assert (E : Long_toZ l = 2^63 - 1) by lia. rewrite E in Hb.
    rewrite <- Hb. reflexivity. }
  destruct (Z.ltb_spec (Long_toZ l) 0) as [N|N].
  - unfold Long_neg.
    set (z := Long_toZ l) in *.
    assert (Hp : Long_toZ (fromBits (- z mod 2^32) (- z / 2^32)) = - z).
    { unfold Long_toZ, fromBits. cbn [low high].
      assert (Hq : 0 <= - z / 2^32 < 2^31).
      { split; [apply Z.div_pos; lia|]. apply Z.div_lt_upper_bound; lia. }
      rewrite (int32_id (- z / 2^32)) by (unfold is_int32; lia).
      unfold uint32. rewrite int32_mod. rewrite Z.mod_mod by lia.
      pose proof (Z.div_mod (- z) (2^32) ltac:(lia)). lia. }
    rewrite Hp. rewrite Z.opp_involutive. exact Hb.
  - rewrite <- Hb at 3. unfold fromBits. f_equal.
    apply int32_congr. apply Z.mod_mod. lia.
Qed.

Lemma Long_toNumber_toZ l z :
  Long_toNumber l = Ret z -> z = Long_toZ l.
Proof.
  unfold Long_toNumber, Long_toZ, js_shru. rewrite Z.shiftr_0_r.
  destruct (exact_double _); [|discriminate]. now intros [= <-].
Qed.

Lemma Long_fromNumber_wf n : Long_wf (Long_fromNumber n).
Proof.
  unfold Long_fromNumber.
  destruct (n <=? - 2^63); [split; apply int32_range|].
  destruct (2^63 <=? n + 1); [split; apply int32_range|].
  destruct (n <? 0); split; apply int32_range.
Qed.

Lemma assoc_set_same {T} name (v : T) l : assoc name (assoc_set name v l) = Some v.
Proof.
  induction l as [|[k w] t IH]; simpl.
  - now rewrite String.eqb_refl.
  - destruct (String.eqb k name) eqn:E; simpl; rewrite E; [reflexivity|exact IH].
Qed.

Lemma assoc_set_other {T} name name' (v : T) l :
  name <> name' -> assoc name' (assoc_set name v l) = assoc name' l.
Proof.
  intros N. induction l as [|[k w] t IH]; simpl.
  - destruct (String.eqb_spec name name'); [congruence|reflexivity].
  - destruct (String.eqb_spec k name) as [->|Nk]; simpl.
    + destruct (String.eqb_spec name name'); [congruence|reflexivity].
    + destruct (String.eqb k name'); [reflexivity|exact IH].
Qed.

Lemma get_set_prop v name x v' :
  set_prop v name x = Ret v' -> get_prop v' name = Ret x.
Proof.
  destruct v as [| | | |c props]; simpl; try discriminate.
  destruct (inherited name); [discriminate|]. intros [= <-]. simpl.
  now rewrite assoc_set_same.
Qed.

Lemma set_prop_class v name x v' :
  set_prop v name x = Ret v' -> is_multi v' = is_multi v.
Proof.
  destruct v as [| | | |c props]; simpl; try discriminate.
  destruct (inherited name); [discriminate|]. now intros [= <-].
Qed.

(** X6.  In the string domain a value carries the key it was given, with
    or without [attr]: [getKey(setKey(v, k))] is [k], so that the needle
    of a search and a MultiValue are found under the key they were built
    for. *)
Theorem string_getKey_of_setKey (a : option string) (v v' : value) (s : string) :
  StringKeys.setKey a v (KString s) = Ret v' ->
  StringKeys.getKey a v' = Ret (KString s).
Proof.
  intros H. destruct a as [at_|]; simpl in H |- *.
  - apply get_set_prop in H. rewrite H. reflexivity.
  - destruct (is_multi v) eqn:M.
    + rewrite (set_prop_class _ _ _ _ H), M.
      apply get_set_prop in H. rewrite H. reflexivity.
    + injection H as <-. reflexivity.
Qed.

Lemma string_getKey_of_setKey_witness :
  StringKeys.getKey (Some "k"%string) (entry "ab") = Ret (KString "ab").
Proof.
  apply (string_getKey_of_setKey (Some "k"%string) (VObject PlainObject [])
           (entry "ab") "ab"%string).
  reflexivity.
Defined.

(** X7.  In the numeric domain with [attr] a value carries the full key
    it was given, for a key whose halves are 32-bit integers and that a
    number holds exactly: [getKey(setKey(v, k))] is [k]. *)
Theorem numeric_getKey_of_setKey (at_ : string) (v v' : value) (l : Long) :
  Long_wf l ->
  NumberKeys.setKey (Some at_) v (KNumeric l 16) = Ret v' ->
  NumberKeys.getKey (Some at_) v' = Ret (KNumeric l 16).
Proof.
  intros Hwf H. simpl in H |- *.
  destruct (NumericKey.toNumber l) as [z| |] eqn:E; simpl in H; try discriminate.
  apply Long_toNumber_toZ in E. subst z.
  apply get_set_prop in H. rewrite H. simpl.
  now rewrite Long_fromNumber_toZ.
Qed.

Lemma numeric_getKey_of_setKey_witness :
  NumberKeys.getKey (Some "k"%string) (entry_n 4294967298)
    = Ret (KNumeric (fromBits 2 1) 16).
Proof.
  apply (numeric_getKey_of_setKey "k"%string (VObject PlainObject [])
           (entry_n 4294967298) (fromBits 2 1)).
  - split; vm_compute; (split; [discriminate|reflexivity]).
  - vm_compute. reflexivity.
Defined.

(* ================================================================== *)
(** * [_delete] on a MultiValue *)

Lemma partitionM_pure (p : value -> bool) l :
  partitionM (Some (fun x => Ret (p x))) l
  = Ret (filter (fun x => negb (p x)) l, filter p l).
Proof.
  induction l as [|x t IH]; simpl; [reflexivity|].
  rewrite IH. simpl. destruct (p x); reflexivity.
Qed.

Lemma partitionM_none l : partitionM None l = Ret ([], l).
Proof. induction l as [|x t IH]; simpl; [reflexivity|]. now rewrite IH. Qed.

(** X8.  [_delete] on a MultiValue partitions its members by the filter,
    in order: the removed part is what the filter accepts, coerced; the
    MultiValue keeps the rest, and is itself the keep part only while
    more than one member stays.  Without a filter every member is
    removed. *)
Theorem delete__partitions_members
    (props : list (string * value)) (l : list value) (p : value -> bool) :
  assoc "values" props = Some (VArray l) ->
  let val := VObject MultiValue props in
  let kept := filter (fun x => negb (p x)) l in
  let val' := VObject MultiValue (assoc_set "values" (VArray kept) props) in
  delete_ val (Some (fun x => Ret (p x)))
    = Ret (if 1 <? len kept then val' else coerceArray kept,
           coerceArray (filter p l), val') /\
  members val' = Ret kept /\
  delete_ val None
    = Ret (VUndefined, coerceArray l,
           VObject MultiValue (assoc_set "values" (VArray []) props)).
Proof.
  intros Hv val kept val'. unfold delete_, members. simpl. rewrite Hv. simpl.
  rewrite partitionM_pure, partitionM_none. simpl.
  split; [reflexivity|]. split; [|reflexivity].
  clear. induction props as [|[k w] t IH]; simpl; [reflexivity|].
  destruct (String.eqb k "values") eqn:E; simpl; rewrite E; [reflexivity|exact IH].
Qed.

Lemma delete__partitions_members_witness :
  let props := [("values"%string, VArray [VNumber 1; VNumber 2; VNumber 3])] in
  let p := fun x => strict_eq x (VNumber 2) in
  let val := VObject MultiValue props in
  let kept := filter (fun x => negb (p x)) [VNumber 1; VNumber 2; VNumber 3] in
  let val' := VObject MultiValue (assoc_set "values" (VArray kept) props) in
  delete_ val (Some (fun x => Ret (p x)))
    = Ret (if 1 <? len kept then val' else coerceArray kept,
           coerceArray (filter p [VNumber 1; VNumber 2; VNumber 3]), val') /\
  members val' = Ret kept /\
  delete_ val None
    = Ret (VUndefined, coerceArray [VNumber 1; VNumber 2; VNumber 3],
           VObject MultiValue (assoc_set "values" (VArray []) props)).
Proof.
  intros props p.
  apply (delete__partitions_members props [VNumber 1; VNumber 2; VNumber 3] p).
  reflexivity.
Defined.

(* ================================================================== *)
(** * Numeric keys: [prefix] *)

Lemma int32_bit z i : 0 <= i < 32 -> Z.testbit (int32 z) i = Z.testbit z i.
Proof.
  intros Hi. rewrite <- (Z.mod_pow2_bits_low (int32 z) 32 i) by lia.
  rewrite int32_mod. apply Z.mod_pow2_bits_low. lia.
Qed.

Lemma js_shru_bit a t i :
  0 <= i -> 0 <= t ->
  Z.testbit (js_shru a t) i = (i + t <? 32) && Z.testbit a (i + t).
Proof.
  intros Hi Ht. unfold js_shru, uint32. rewrite Z.shiftr_spec by lia.
  destruct (Z.ltb_spec (i + t) 32).
  - rewrite Z.mod_pow2_bits_low by lia. reflexivity.
  - rewrite Z.mod_pow2_bits_high by lia. reflexivity.
Qed.

Lemma js_shl_bit a t i :
  0 <= i < 32 -> 0 <= t ->
  Z.testbit (js_shl a t) i = (t <=? i) && Z.testbit a (i - t).
Proof.
  intros Hi Ht. unfold js_shl. rewrite int32_bit by lia.
  destruct (Z.leb_spec t i).
  - rewrite Z.shiftl_spec by lia. reflexivity.
  - rewrite Z.shiftl_spec_low by lia. reflexivity.
Qed.

Lemma js_or_bit a b i :
  0 <= i < 32 -> Z.testbit (js_or a b) i = Z.testbit a i || Z.testbit b i.
Proof. intros Hi. unfold js_or. rewrite int32_bit by lia. apply Z.lor_spec. Qed.

Lemma bit64_fromBits lo hi i :
  0 <= i < 64 ->
  bit64 (fromBits lo hi) i =
    if i <? 32 then Z.testbit lo i else Z.testbit hi (i - 32).
Proof.
  intros Hi. unfold bit64, fromBits. cbn [low high].
  destruct (Z.ltb_spec i 32); apply int32_bit; lia.
Qed.

Ltac bit_cases :=
  repeat match goal with
         | |- context [Z.ltb ?a ?b] => destruct (Z.ltb_spec a b)
         | |- context [Z.leb ?a ?b] => destruct (Z.leb_spec a b)
         end;
  try lia; cbn [andb orb]; rewrite ?orb_false_r, ?Z.bits_0;
  try reflexivity; try (f_equal; lia).

(** [shr_u] moves the bits down and fills with zeros. *)
Lemma bit64_shr_u l y i :
  0 <= y < 64 -> 0 <= i < 64 ->
  bit64 (Long_shr_u l y) i = (i + y <? 64) && bit64 l (i + y).
Proof.
  intros Hy Hi. unfold Long_shr_u.
  change 63 with (Z.ones 6). rewrite Z.land_ones by lia.
  change (2 ^ 6) with 64. rewrite Z.mod_small by lia.
  destruct (Z.eqb_spec y 0) as [->|Hy0].
  { rewrite Z.add_0_r. destruct (Z.ltb_spec i 64); [reflexivity|lia]. }
  destruct (Z.ltb_spec y 32) as [Hlt|Hge].
  - rewrite bit64_fromBits by lia. unfold bit64.
    destruct (Z.ltb_spec i 32) as [Hi32|Hi32].
    + rewrite js_or_bit, js_shru_bit, js_shl_bit by lia. bit_cases.
    + rewrite js_shru_bit by lia. bit_cases.
  - destruct (Z.eqb_spec y 32) as [->|Hy32].
    + rewrite bit64_fromBits by lia. unfold bit64. bit_cases.
    + rewrite bit64_fromBits by lia. unfold bit64.
      destruct (Z.ltb_spec i 32).
      * rewrite js_shru_bit by lia. bit_cases.
      * bit_cases.
Qed.

(** [shl] moves the bits up and fills with zeros. *)
Lemma bit64_shl l y i :
  0 <= y < 64 -> 0 <= i < 64 ->
  bit64 (Long_shl l y) i = (y <=? i) && bit64 l (i - y).
Proof.
  intros Hy Hi. unfold Long_shl.
  change 63 with (Z.ones 6). rewrite Z.land_ones by lia.
  change (2 ^ 6) with 64. rewrite Z.mod_small by lia.
  destruct (Z.eqb_spec y 0) as [->|Hy0].
  { rewrite Z.sub_0_r. destruct (Z.leb_spec 0 i); [reflexivity|lia]. }
  destruct (Z.ltb_spec y 32) as [Hlt|Hge].
  - rewrite bit64_fromBits by lia. unfold bit64.
    destruct (Z.ltb_spec i 32) as [Hi32|Hi32].
    + rewrite js_shl_bit by lia. bit_cases.
    + rewrite js_or_bit, js_shl_bit, js_shru_bit by lia. bit_cases.
  - rewrite bit64_fromBits by lia. unfold bit64.
    destruct (Z.ltb_spec i 32) as [Hi32|Hi32].
    + bit_cases.
    + rewrite js_shl_bit by lia. bit_cases.
Qed.

(** A nibble is given by its four bits. *)
Lemma charAt_bits v w pos :
  0 <= pos < 16 ->
  (forall j, 0 <= j < 4 -> bit64 v (60 - 4 * pos + j) = bit64 w (60 - 4 * pos + j)) ->
  NumericKey.charAt v pos = NumericKey.charAt w pos.
Proof.
  intros Hpos H. rewrite !charAt_field by lia.
  destruct (Z.ltb_spec pos 8).
  - apply field_eq_iff; try lia. intros j Hj. specialize (H j Hj). unfold bit64 in H.
    destruct (Z.ltb_spec (60 - 4 * pos + j) 32); [lia|].
    replace (j + (28 - 4 * pos)) with (60 - 4 * pos + j - 32) by lia. exact H.
  - apply field_eq_iff; try lia. intros j Hj. specialize (H j Hj). unfold bit64 in H.
    destruct (Z.ltb_spec (60 - 4 * pos + j) 32); [|lia].
    replace (j + (60 - 4 * pos)) with (60 - 4 * pos + j) by lia. exact H.
Qed.

Lemma charAt_zero_bits v pos :
  0 <= pos < 16 ->
  (forall j, 0 <= j < 4 -> bit64 v (60 - 4 * pos + j) = false) ->
  NumericKey.charAt v pos = 0.
Proof.
  intros Hpos H.
  rewrite (charAt_bits v (fromBits 0 0) pos Hpos).
  - rewrite charAt_field by lia.
    change (high (fromBits 0 0)) with 0. change (low (fromBits 0 0)) with 0.
    unfold field. rewrite !Z.shiftr_0_l. destruct (pos <? 8); reflexivity.
  - intros j Hj. rewrite (H j Hj). rewrite bit64_fromBits by lia.
    destruct (60 - 4 * pos + j <? 32); symmetry; apply Z.bits_0.
Qed.

Lemma shifted_wf lo hi : Long_wf (fromBits lo hi).
Proof. split; apply int32_range. Qed.

Lemma Long_shl_wf l y : Long_wf l -> Long_wf (Long_shl l y).
Proof.
  intros H. unfold Long_shl.
  destruct (Z.land y 63 =? 0); [exact H|].
  destruct (Z.land y 63 <? 32); apply shifted_wf.
Qed.

Lemma Long_shr_u_wf l y : Long_wf l -> Long_wf (Long_shr_u l y).
Proof.
  intros H. unfold Long_shr_u.
  destruct (Z.land y 63 =? 0); [exact H|].
  destruct (Z.land y 63 <? 32); [apply shifted_wf|].
  destruct (Z.land y 63 =? 32); apply shifted_wf.
Qed.

(** X19.  [prefix(n)] of a numeric key, when it returns, is the key of
    length [n] that keeps the first [n] nibbles and has zeros after
    them.  [prefix(0)] keeps every nibble: its shift count 64 is taken
    modulo 64. *)
Theorem numeric_prefix_keeps_the_leading_nibbles (v : Long) (n : Z) (k : key) :
  Long_wf v -> 0 <= n <= 16 ->
  NumericKey.prefix v n = Ret k ->
  exists v',
    k = KNumeric v' n /\
    forall pos, 0 <= pos < 16 ->
      NumericKey.charAt v' pos =
        if (pos <? n) || (n =? 0) then NumericKey.charAt v pos else 0.
Proof.
  intros Hwf Hn H. unfold NumericKey.prefix in H.
  set (y := 64 - n * 4) in *.
  destruct (Long_toNumber (Long_shl (Long_shr_u v y) y)) as [z| |] eqn:E;
    cbn [bind] in H; try discriminate.
  apply Long_toNumber_toZ in E. subst z.
  cbn [NumericKey.new] in H. injection H as <-.
  rewrite Long_fromNumber_toZ by (apply Long_shl_wf, Long_shr_u_wf, Hwf).
  eexists. split; [reflexivity|]. intros pos Hpos.
  destruct (Z.eq_dec n 0) as [->|N0].
  { rewrite orb_true_r. reflexivity. }
  destruct (Z.eq_dec n 16) as [->|N16].
  { destruct (Z.ltb_spec pos 16); [|lia]. reflexivity. }
  destruct (Z.eqb_spec n 0) as [|_]; [contradiction|]. rewrite orb_false_r.
  assert (Hy : 0 <= y < 64) by (unfold y; lia).
  assert (Hbit : forall i, 0 <= i < 64 ->
            bit64 (Long_shl (Long_shr_u v y) y) i = (y <=? i) && bit64 v i).
  { intros i Hi. rewrite bit64_shl by lia.
    destruct (Z.leb_spec y i); cbn [andb]; [|reflexivity].
    rewrite bit64_shr_u by lia.
    replace (i - y + y) with i by lia.
    destruct (Z.ltb_spec i 64); [reflexivity|lia]. }
  destruct (Z.ltb_spec pos n).
  - apply charAt_bits; [exact Hpos|]. intros j Hj. rewrite Hbit by lia.
    destruct (Z.leb_spec y (60 - 4 * pos + j)); [reflexivity|unfold y in *; lia].
  - apply charAt_zero_bits; [exact Hpos|]. intros j Hj. rewrite Hbit by lia.
    destruct (Z.leb_spec y (60 - 4 * pos + j)); [unfold y in *; lia|reflexivity].
Qed.

Lemma numeric_prefix_keeps_the_leading_nibbles_witness :
  exists v',
    KNumeric (fromBits 0 305397760) 4 = KNumeric v' 4 /\
    forall pos, 0 <= pos < 16 ->
      NumericKey.charAt v' pos =
        if (pos <? 4) || (4 =? 0)
        then NumericKey.charAt (fromBits 2023406814 305419896) pos else 0.
Proof.
  apply (numeric_prefix_keeps_the_leading_nibbles
           (fromBits 2023406814 305419896) 4 (KNumeric (fromBits 0 305397760) 4)).
  - split; vm_compute; (split; [discriminate|reflexivity]).
  - lia.
  - vm_compute. reflexivity.
Defined.

(* ================================================================== *)
(** * Strings: order and prefixes *)

Lemma ascii_compare_refl c : Ascii.compare c c = Eq.
Proof. unfold Ascii.compare. apply N.compare_refl. Qed.

Lemma string_compare_refl s : String.compare s s = Eq.
Proof. induction s as [|c s IH]; simpl; [reflexivity|]. now rewrite ascii_compare_refl. Qed.

Lemma slt_irrefl s : String.ltb s s = false.
Proof. unfold String.ltb. now rewrite string_compare_refl. Qed.

Lemma ascii_compare_trans_lt a b c :
  Ascii.compare a b = Lt -> Ascii.compare b c = Lt -> Ascii.compare a c = Lt.
Proof.
  unfold Ascii.compare. rewrite !N.compare_lt_iff. lia.
Qed.

Lemma string_compare_trans a b c :
  String.compare a b = Lt -> String.compare b c = Lt -> String.compare a c = Lt.
Proof.
  revert b c. induction a as [|x a IH]; intros [|y b] [|z c]; simpl; try congruence.
  destruct (Ascii.compare x y) eqn:Exy; try discriminate;
    destruct (Ascii.compare y z) eqn:Eyz; try discriminate; intros H1 H2.
  - apply Ascii.compare_eq_iff in Exy, Eyz. subst. rewrite ascii_compare_refl.
    eapply IH; eassumption.
  - apply Ascii.compare_eq_iff in Exy. subst. now rewrite Eyz.
  - apply Ascii.compare_eq_iff in Eyz. subst. now rewrite Exy.
  - now rewrite (ascii_compare_trans_lt _ _ _ Exy Eyz).
Qed.

Lemma slt_trans a b c : slt a b -> slt b c -> slt a c.
Proof.
  unfold slt, String.ltb. intros H1 H2.
  destruct (String.compare a b) eqn:E1; try discriminate.
  destruct (String.compare b c) eqn:E2; try discriminate.
  now rewrite (string_compare_trans _ _ _ E1 E2).
Qed.

Lemma slt_total a b : String.ltb a b = false -> String.ltb b a = false -> a = b.
Proof.
  unfold String.ltb. rewrite (String.compare_antisym b a).
  destruct (String.compare a b) eqn:E; simpl; try discriminate.
  intros _ _. now apply String.compare_eq_iff.
Qed.

Lemma slt_asym a b : String.ltb a b = true -> String.ltb b a = false.
Proof.
  unfold String.ltb. rewrite (String.compare_antisym b a).
  destruct (String.compare a b); simpl; congruence.
Qed.

Lemma compare_append p a b :
  String.compare (p ++ a) (p ++ b) = String.compare a b.
Proof. induction p as [|c p IH]; simpl; [reflexivity|]. now rewrite ascii_compare_refl. Qed.

Lemma string_match_append p a b :
  string_match (p ++ a) (p ++ b) = Z.of_nat (String.length p) + string_match a b.
Proof.
  induction p as [|c p IH]; cbn [append string_match String.length]; [lia|].
  rewrite Ascii.eqb_refl, IH. lia.
Qed.

Lemma append_nil_r s : (s ++ "")%string = s.
Proof. induction s; simpl; congruence. Qed.

Lemma append_assoc a b c : ((a ++ b) ++ c)%string = (a ++ (b ++ c))%string.
Proof. induction a; simpl; congruence. Qed.

Lemma length_append a b : String.length (a ++ b) = (String.length a + String.length b)%nat.
Proof. induction a; simpl; congruence. Qed.

(** [match(x, p) = |p|] says that [p] is a prefix of [x]. *)
Lemma match_full_iff x p :
  string_match x p = Z.of_nat (String.length p) <-> is_pre p x.
Proof.
  split.
  - revert x. induction p as [|c p IH]; intros x H.
    + exists x. reflexivity.
    + destruct x as [|d x]; cbn [string_match String.length] in H; [lia|].
      destruct (Ascii.eqb_spec d c) as [->|N].
      * destruct (IH x) as (r & ->); [lia|]. exists r. reflexivity.
      * lia.
  - intros (r & ->). rewrite <- (append_nil_r p) at 2.
    rewrite string_match_append. destruct r; cbn; lia.
Qed.

Lemma substring_append_at p r n :
  substring (String.length p) n (p ++ r) = substring 0 n r.
Proof. induction p as [|c p IH]; simpl; [reflexivity|exact IH]. Qed.

Lemma substring_0_append p r :
  substring 0 (String.length p) (p ++ r) = p.
Proof. induction p as [|c p IH]; simpl; [destruct r; reflexivity|now rewrite IH]. Qed.

Lemma is_pre_refl p : is_pre p p.
Proof. exists ""%string. now rewrite append_nil_r. Qed.

Lemma is_pre_trans a b c : is_pre a b -> is_pre b c -> is_pre a c.
Proof. intros (r & ->) (r' & ->). exists (r ++ r')%string. apply append_assoc. Qed.

Lemma append_inv_l p a b : (p ++ a)%string = (p ++ b)%string -> a = b.
Proof. induction p; simpl; intros H; [exact H|]. injection H. auto. Qed.

(** The prefix of length [match(a, b)] is a prefix of both, and any
    common prefix is a prefix of it. *)
Lemma lcp_is_pre a b :
  is_pre (substring 0 (Z.to_nat (string_match a b)) a) a /\
  is_pre (substring 0 (Z.to_nat (string_match a b)) a) b.
Proof.
  revert b. induction a as [|x a IH]; intros b.
  - cbn. split; [exists ""%string|exists b]; reflexivity.
  - destruct b as [|y b]; cbn [string_match].
    + cbn. split; [exists (String x a)|exists ""%string]; reflexivity.
    + destruct (Ascii.eqb_spec x y) as [->|N].
      * pose proof (string_match_bounds a b).
        replace (Z.to_nat (1 + string_match a b)) with (S (Z.to_nat (string_match a b))) by lia.
        cbn [substring]. destruct (IH b) as [(r1 & H1) (r2 & H2)].
        split; [exists r1|exists r2]; cbn; congruence.
      * cbn. split; [exists (String x a)|exists (String y b)]; reflexivity.
Qed.

Lemma lcp_greatest q a b :
  is_pre q a -> is_pre q b ->
  is_pre q (substring 0 (Z.to_nat (string_match a b)) a).
Proof.
  intros (ra & ->) (rb & ->).
  rewrite string_match_append.
  pose proof (string_match_bounds ra rb).
  replace (Z.to_nat (Z.of_nat (String.length q) + string_match ra rb))
    with (String.length q + Z.to_nat (string_match ra rb))%nat by lia.
  exists (substring 0 (Z.to_nat (string_match ra rb)) ra).
  generalize (Z.to_nat (string_match ra rb)). clear.
  induction q as [|c q IH]; intros n; cbn; [reflexivity|]. now rewrite IH.
Qed.

(* ================================================================== *)
(** * The string domain with [attr] and unique keys *)

Section Attr.
Variable at_ : string.
Variable bs : Z.
Hypothesis at_truthy : at_ <> ""%string.
Hypothesis at_own : inherited at_ = false.

Let o := string_attr_options at_ bs.

Lemma truthy_at : truthy_attr (Some at_) = Some at_.
Proof.
  unfold truthy_attr. destruct (String.eqb_spec at_ ""); [contradiction|reflexivity].
Qed.

Lemma okv_get v : okv at_ v -> get_prop v at_ = Ret (VString (kof at_ v)).
Proof. intros (props & s & -> & H). simpl. now rewrite H. Qed.

Lemma okv_not_multi v : okv at_ v -> is_multi v = false.
Proof. intros (props & s & -> & H). reflexivity. Qed.

Lemma okv_defined v : okv at_ v -> v <> VUndefined.
Proof. intros (props & s & -> & H). discriminate. Qed.

Lemma getKey_okv v : okv at_ v -> opt_getKey o v = Ret (KString (kof at_ v)).
Proof.
  intros H. unfold opt_getKey, o. cbn [typeOpts attr string_attr_options].
  rewrite truthy_at. cbn [StringKeys.getKey]. rewrite (okv_get v H). reflexivity.
Qed.

Lemma comparator_okv a b :
  okv at_ a -> okv at_ b -> opt_comparator o a b = Ret (CNumber (c3 (kof at_ a) (kof at_ b))).
Proof.
  intros Ha Hb. unfold opt_comparator, o. cbn [typeOpts attr string_attr_options].
  rewrite truthy_at. cbn [StringKeys.comparator].
  rewrite (okv_get a Ha), (okv_get b Hb). cbn [bind three_way js_lt].
  unfold c3. destruct (String.ltb (kof at_ a) (kof at_ b)); cbn; [reflexivity|].
  destruct (String.ltb (kof at_ b) (kof at_ a)); reflexivity.
Qed.

Lemma c3_gt x y : cmp_sort_gt0 (CNumber (c3 x y)) = String.ltb y x.
Proof.
  unfold c3. destruct (String.ltb x y) eqn:E; [rewrite (slt_asym _ _ E); reflexivity|].
  destruct (String.ltb y x); reflexivity.
Qed.

Lemma c3_is0 x y : cmp_is0 (CNumber (c3 x y)) = String.eqb x y.
Proof.
  unfold c3. destruct (String.eqb_spec x y) as [->|N].
  - rewrite slt_irrefl. reflexivity.
  - destruct (String.ltb x y) eqn:E; [reflexivity|].
    destruct (String.ltb y x) eqn:E'; [reflexivity|].
    exfalso. apply N. now apply slt_total.
Qed.

Lemma c3_ge0 x y : cmp_ge0 (CNumber (c3 x y)) = negb (String.ltb x y).
Proof.
  unfold c3. destruct (String.ltb x y); [reflexivity|].
  destruct (String.ltb y x); reflexivity.
Qed.

Lemma c3_le0 x y : cmp_le0 (CNumber (c3 x y)) = negb (String.ltb y x).
Proof.
  unfold c3. destruct (String.ltb x y) eqn:E; [rewrite (slt_asym _ _ E); reflexivity|].
  destruct (String.ltb y x); reflexivity.
Qed.

Lemma needle_okv s : okv at_ (needle at_ s) /\ kof at_ (needle at_ s) = s.
Proof.
  split.
  - exists [(at_, VString s)], s. split; [reflexivity|]. simpl. now rewrite String.eqb_refl.
  - simpl. now rewrite String.eqb_refl.
Qed.

Lemma setKey_needle s :
  opt_setKey o (VObject PlainObject []) (KString s) = Ret (needle at_ s).
Proof.
  unfold opt_setKey, o. cbn [typeOpts attr string_attr_options].
  rewrite truthy_at. cbn [StringKeys.setKey key_as_value bind set_prop].
  rewrite at_own. reflexivity.
Qed.

(** ** The last value under a key *)

Lemma lastk_In s l v : lastk at_ s l = Some v -> In v l /\ kof at_ v = s.
Proof.
  induction l as [|x t IH]; simpl; [discriminate|].
  destruct (lastk at_ s t) as [w|].
  - intros [= <-]. destruct (IH eq_refl). auto.
  - destruct (String.eqb_spec (kof at_ x) s); [|discriminate].
    intros [= <-]. auto.
Qed.

Lemma lastk_None s l : lastk at_ s l = None <-> (forall v, In v l -> kof at_ v <> s).
Proof.
  induction l as [|x t IH]; simpl.
  - split; [intros _ v []|reflexivity].
  - destruct (lastk at_ s t) as [w|] eqn:E.
    + split; [discriminate|]. intros H. exfalso.
      destruct (lastk_In _ _ _ E) as [Hin Hk]. apply (H w); auto.
    + destruct (String.eqb_spec (kof at_ x) s) as [Ek|Nk].
      * split; [discriminate|]. intros H. exfalso. apply (H x); auto.
      * split; [|reflexivity]. intros _ v [<-|Hv]; [exact Nk|].
        apply (proj1 IH eq_refl v Hv).
Qed.

Lemma lastk_app s l1 l2 :
  lastk at_ s (l1 ++ l2) =
    match lastk at_ s l2 with Some v => Some v | None => lastk at_ s l1 end.
Proof.
  induction l1 as [|x t IH]; simpl.
  - destruct (lastk at_ s l2); reflexivity.
  - rewrite IH. destruct (lastk at_ s l2); reflexivity.
Qed.

(** ** Sorting and folding equal keys *)

Lemma sort_insert_spec x sorted l' :
  okv at_ x -> Forall (okv at_) sorted -> nsorted at_ sorted ->
  sort_insert o x sorted = Ret l' ->
  nsorted at_ l' /\ Forall (okv at_) l' /\
  (forall v, In v l' <-> v = x \/ In v sorted) /\
  (forall s, lastk at_ s l' =
             if String.eqb (kof at_ x) s then Some x else lastk at_ s sorted).
Proof.
  intros Hx. revert l'. induction sorted as [|y t IH]; intros l' Hok Hs H.
  - simpl in H. inv_Ret H. split; [repeat constructor|].
    split; [repeat constructor; exact Hx|].
    split; [intros v; simpl; intuition congruence|]. intros s. simpl. reflexivity.
  - simpl in H. inversion Hok as [|? ? Hy Ht]; subst.
    inversion Hs as [|? ? Hst Hall]; subst.
    rewrite (comparator_okv y x Hy Hx) in H. cbn [bind] in H.
    rewrite c3_gt in H.
    destruct (String.ltb (kof at_ x) (kof at_ y)) eqn:Lt.
    + inv_Ret H. split.
      { constructor; [exact Hs|]. constructor; [now apply slt_asym|].
        rewrite Forall_forall in Hall |- *. intros w Hw. specialize (Hall w Hw).
        destruct (String.ltb (kof at_ w) (kof at_ x)) eqn:Lw; [|reflexivity].
        exfalso. pose proof (slt_trans _ _ _ Lw Lt) as T. unfold slt in T. congruence. }
      split; [constructor; assumption|].
      split; [intros v; simpl; intuition congruence|].
      intros s. cbn [lastk].
      destruct (lastk at_ s t) as [w|] eqn:Lk; [|].
      * destruct (lastk_In _ _ _ Lk) as [Hin Hk].
        rewrite Forall_forall in Hall. specialize (Hall w Hin).
        destruct (String.eqb_spec (kof at_ x) s) as [E|N]; [|reflexivity].
        exfalso.
        assert (T : slt (kof at_ x) (kof at_ w)).
        { destruct (String.ltb (kof at_ y) (kof at_ w)) eqn:Lyw.
          - eapply slt_trans; eassumption.
          - rewrite <- (slt_total _ _ Lyw Hall). exact Lt. }
        rewrite Hk, E in T. unfold slt in T. rewrite slt_irrefl in T. discriminate.
      * destruct (String.eqb_spec (kof at_ y) s) as [Ey|Ny].
        -- destruct (String.eqb_spec (kof at_ x) s) as [E|N]; [|reflexivity].
           exfalso. rewrite E, Ey, slt_irrefl in Lt. discriminate.
        -- reflexivity.
    + inv_bind H. inv_Ret H.
      destruct (IH a Ht Hst E) as (Hn & Hok' & Hin & Hlk).
      split.
      { constructor; [exact Hn|]. rewrite Forall_forall in Hall |- *.
        intros w Hw. apply Hin in Hw as [->|Hw]; [exact Lt|now apply Hall]. }
      split; [constructor; assumption|].
      split; [intros v; simpl; rewrite Hin; intuition congruence|].
      intros s. cbn [lastk]. rewrite Hlk.
      destruct (String.eqb (kof at_ x) s); [reflexivity|].
      reflexivity.
Qed.

Lemma sort_into_spec todo : forall sorted l',
  Forall (okv at_) todo -> Forall (okv at_) sorted -> nsorted at_ sorted ->
  sort_into o sorted todo = Ret l' ->
  nsorted at_ l' /\ Forall (okv at_) l' /\
  (forall v, In v l' <-> In v sorted \/ In v todo) /\
  (forall s, lastk at_ s l' = lastk at_ s (sorted ++ todo)).
Proof.
  induction todo as [|x t IH]; intros sorted l' Ht Hok Hs H; simpl in H.
  - inv_Ret H. rewrite app_nil_r. repeat split; try assumption; simpl; intuition congruence.
  - inv_bind H. inversion Ht as [|? ? Hx Ht']; subst.
    destruct (sort_insert_spec x sorted a Hx Hok Hs E) as (Hn & Hok' & Hin & Hlk).
    destruct (IH a l' Ht' Hok' Hn H) as (Hn2 & Hok2 & Hin2 & Hlk2).
    split; [exact Hn2|]. split; [exact Hok2|].
    split.
    + intros v. rewrite Hin2, Hin. simpl. intuition congruence.
    + intros s. rewrite Hlk2, !lastk_app. cbn [lastk].
      destruct (lastk at_ s t); [reflexivity|]. rewrite Hlk.
      destruct (String.eqb (kof at_ x) s); reflexivity.
Qed.

Lemma assign_unique new old : assign o new old = Ret new.
Proof. reflexivity. Qed.

Lemma collapse_spec rest : forall cur r,
  Forall (okv at_) (cur :: rest) -> nsorted at_ (cur :: rest) ->
  collapse o cur rest = Ret r ->
  ssorted at_ r /\ Forall (okv at_) r /\
  (forall v, In v r -> In v (cur :: rest)) /\
  (forall s, lastk at_ s r = lastk at_ s (cur :: rest)).
Proof.
  induction rest as [|x t IH]; intros cur r Hok Hs H; simpl in H.
  - inv_Ret H. split; [repeat constructor|]. split; [exact Hok|].
    split; [tauto|reflexivity].
  - inversion Hok as [|? ? Hc Hok']; subst. inversion Hok' as [|? ? Hx Ht]; subst.
    inversion Hs as [|? ? Hs' Hall]; subst.
    rewrite (comparator_okv cur x Hc Hx) in H. cbn [bind] in H.
    rewrite c3_is0 in H.
    destruct (String.eqb_spec (kof at_ cur) (kof at_ x)) as [E|N].
    + try rewrite assign_unique in H. cbn [bind] in H.
      destruct (IH x r Hok' Hs' H) as (Hss & Hokr & Hin & Hlk).
      split; [exact Hss|]. split; [exact Hokr|].
      split; [intros v Hv; right; now apply Hin|].
      intros s. rewrite Hlk. cbn [lastk].
      destruct (lastk at_ s t); [reflexivity|].
      destruct (String.eqb_spec (kof at_ x) s) as [Ex|Nx]; [reflexivity|].
      destruct (String.eqb_spec (kof at_ cur) s); [congruence|reflexivity].
    + inv_bind H. inv_Ret H.
      destruct (IH x a Hok' Hs' E) as (Hss & Hokr & Hin & Hlk).
      split.
      { constructor; [exact Hss|].
        inversion Hall as [|? ? Hcx Hct]; subst.
        rewrite Forall_forall. intros w Hw. apply Hin in Hw.
        assert (Lcx : slt (kof at_ cur) (kof at_ x)).
        { unfold slt. destruct (String.ltb (kof at_ cur) (kof at_ x)) eqn:L; [reflexivity|].
          exfalso. apply N. now apply slt_total. }
        destruct Hw as [<-|Hw]; [exact Lcx|].
        inversion Hs' as [|? ? _ Hxt]; subst. rewrite Forall_forall in Hxt.
        specialize (Hxt w Hw).
        destruct (String.ltb (kof at_ x) (kof at_ w)) eqn:Lxw.
        - eapply slt_trans; eassumption.
        - rewrite <- (slt_total _ _ Lxw Hxt). exact Lcx. }
      split; [constructor; assumption|].
      split; [intros v [<-|Hv]; [now left|right; now apply Hin]|].
      intros s. cbn [lastk] in *. rewrite Hlk. reflexivity.
Qed.

Lemma ssorted_lastk l v :
  ssorted at_ l -> In v l -> lastk at_ (kof at_ v) l = Some v.
Proof.
  induction 1 as [|x t Hs IH Hall]; intros Hin; [destruct Hin|].
  cbn [lastk]. destruct Hin as [<-|Hin].
  - destruct (lastk at_ (kof at_ x) t) as [w|] eqn:Lk.
    + exfalso. destruct (lastk_In _ _ _ Lk) as [Hw Hk].
      rewrite Forall_forall in Hall. specialize (Hall w Hw).
      rewrite Hk, slt_irrefl in Hall. discriminate.
    + now rewrite String.eqb_refl.
  - now rewrite (IH Hin).
Qed.

(** [_sortValues] on a bin of keyed objects: the bin becomes strictly
    sorted and answers every lookup as before. *)
Lemma sortValues_spec p l d this' :
  Forall (okv at_) l -> (d = false -> ssorted at_ l) ->
  sortValues o (Node p None (VArray l) d) = Ret this' ->
  exists l', this' = Node p None (VArray l') false /\
             ssorted at_ l' /\ Forall (okv at_) l' /\
             (forall v, In v l' -> In v l) /\
             (forall s, lastk at_ s l' = lastk at_ s l) /\
             (l <> [] -> l' <> []) /\
             (Datatypes.length l' <= Datatypes.length l)%nat.
Proof.
  intros Hok Hd H. unfold sortValues in H. cbn [dirty values as_array bind skip edges] in H.
  destruct d.
  - inv_bind H. inv_bind H. inv_Ret H.
    destruct (sort_into_spec l [] a Hok (Forall_nil _) (SSorted_nil _) E)
      as (Hn & Hoka & Hin & Hlk).
    pose proof (sort_into_length _ _ _ _ E) as Hlen. simpl in Hlen.
    exists a0. split; [reflexivity|].
    destruct a as [|x [|y t]].
    + inv_Ret E0. repeat split; auto; try constructor.
      * intros v []. 
      * intros N. destruct l; [congruence|discriminate].
      * lia.
    + inv_Ret E0. repeat split; auto.
      * repeat constructor.
      * intros v Hv. apply Hin in Hv. simpl in Hv. tauto.
      * discriminate.
      * lia.
    + destruct (collapse_spec _ _ _ Hoka Hn E0) as (Hss & Hokr & Hin' & Hlk').
      pose proof (collapse_length _ _ _ _ E0) as Hcl.
      repeat split; auto.
      * intros v Hv. apply Hin' in Hv. apply Hin in Hv. simpl in Hv. tauto.
      * intros s. rewrite Hlk', Hlk. reflexivity.
      * intros _ ->. simpl in Hcl. lia.
      * simpl in *. lia.
  - inv_Ret H. exists l. repeat split; auto.
Qed.

(** ** The binary search *)

Lemma ssorted_nth l i j :
  ssorted at_ l -> (i < j < Datatypes.length l)%nat ->
  String.ltb (kof at_ (nth i l VUndefined)) (kof at_ (nth j l VUndefined)) = true.
Proof.
  intros Hs. revert i j. induction Hs as [|x t Hs IH Hall]; intros i j Hij.
  - simpl in Hij. lia.
  - destruct j as [|j]; [lia|]. destruct i as [|i].
    + simpl. rewrite Forall_forall in Hall. apply Hall. apply nth_In. simpl in Hij. lia.
    + simpl. apply IH. simpl in Hij. lia.
Qed.

Lemma okv_nth l j :
  Forall (okv at_) l -> (j < Datatypes.length l)%nat -> okv at_ (nth j l VUndefined).
Proof. intros H Hj. rewrite Forall_forall in H. apply H. now apply nth_In. Qed.

Lemma bounds_eq_loop_spec a s :
  ssorted at_ a -> Forall (okv at_) a ->
  forall fuel lo hi i,
  0 <= lo -> hi < len a ->
  (forall j, 0 <= j < lo ->
     String.ltb (kof at_ (nth (Z.to_nat j) a VUndefined)) s = true) ->
  (forall j, hi < j < len a ->
     String.ltb s (kof at_ (nth (Z.to_nat j) a VUndefined)) = true) ->
  bounds_eq_loop o fuel a (needle at_ s) lo hi = Ret i ->
  (i = -1 /\ forall v, In v a -> kof at_ v <> s) \/
  (0 <= i < len a /\ kof at_ (nth (Z.to_nat i) a VUndefined) = s).
Proof.
  intros Hs Hok. induction fuel as [|fuel IH]; intros lo hi i Hlo Hhi Hbelow Habove H;
    [discriminate|].
  cbn [bounds_eq_loop] in H.
  destruct (Z.leb_spec lo hi) as [L|L].
  - set (m := Z.shiftr (lo + hi) 1) in *.
    assert (Hm : lo <= m <= hi).
    { unfold m. rewrite Z.shiftr_div_pow2 by lia. change (2^1) with 2.
      pose proof (Z.div_mod (lo + hi) 2 ltac:(lia)).
      pose proof (Z.mod_pos_bound (lo + hi) 2 ltac:(lia)). lia. }
    unfold len in *.
    assert (Hmn : (Z.to_nat m < Datatypes.length a)%nat) by lia.
    pose proof (okv_nth a _ Hok Hmn) as Hokm.
    destruct (needle_okv s) as [Hokn Hkn].
    rewrite (comparator_okv _ _ Hokm Hokn) in H. cbn [bind] in H.
    rewrite c3_is0, c3_le0, Hkn in H.
    destruct (String.eqb_spec (kof at_ (nth (Z.to_nat m) a VUndefined)) s) as [E|N].
    + injection H as <-. right. split; [lia|exact E].
    + destruct (String.ltb s (kof at_ (nth (Z.to_nat m) a VUndefined))) eqn:Lt; cbn [negb] in H.
      * apply (IH lo (m - 1) i); try lia; try assumption.
        intros j Hj. destruct (Z.eq_dec j m) as [->|Nj]; [exact Lt|].
        eapply slt_trans; [exact Lt|].
        apply ssorted_nth; [exact Hs|lia].
      * assert (Lm : String.ltb (kof at_ (nth (Z.to_nat m) a VUndefined)) s = true).
        { destruct (String.ltb (kof at_ (nth (Z.to_nat m) a VUndefined)) s) eqn:L'; [reflexivity|].
          exfalso. apply N. now apply slt_total. }
        apply (IH (m + 1) hi i); try lia; try assumption.
        intros j Hj. destruct (Z.eq_dec j m) as [->|Nj]; [exact Lm|].
        eapply slt_trans; [|exact Lm].
        apply ssorted_nth; [exact Hs|lia].
  - inv_Ret H. left. split; [reflexivity|].
    intros v Hv. apply In_nth with (d := VUndefined) in Hv as (j & Hj & <-).
    intros E. unfold len in *.
    destruct (Z.lt_ge_cases (Z.of_nat j) lo) as [Lj|Lj].
    + specialize (Hbelow (Z.of_nat j) ltac:(lia)). rewrite Nat2Z.id in Hbelow.
      rewrite E, slt_irrefl in Hbelow. discriminate.
    + specialize (Habove (Z.of_nat j) ltac:(lia)). rewrite Nat2Z.id in Habove.
      rewrite E, slt_irrefl in Habove. discriminate.
Qed.

Lemma bounds_eq_spec a s i :
  ssorted at_ a -> Forall (okv at_) a ->
  bounds_eq o a (needle at_ s) = Ret i ->
  (if i <? 0 then VUndefined else nth (Z.to_nat i) a VUndefined) = res at_ a s /\
  (0 <= i -> kof at_ (nth (Z.to_nat i) a VUndefined) = s /\ i < len a) /\
  (i < 0 -> forall v, In v a -> kof at_ v <> s).
Proof.
  intros Hs Hok H. unfold bounds_eq in H.
  apply (bounds_eq_loop_spec a s Hs Hok) in H; try lia.
  - destruct H as [[-> Hno]|[Hi Hk]].
    + split; [|split; [lia|intros _; exact Hno]].
      cbn. unfold res. apply lastk_None in Hno. now rewrite Hno.
    + split; [|split; [intros _; split; [exact Hk|lia]|lia]].
      destruct (Z.ltb_spec i 0); [lia|]. unfold res.
      rewrite <- Hk. rewrite ssorted_lastk; [reflexivity|exact Hs|].
      apply nth_In. unfold len in *. lia.
Qed.

Lemma search_spec p l d s r this' :
  Forall (okv at_) l -> (d = false -> ssorted at_ l) ->
  search o (KString s) (Node p None (VArray l) d) = Ret (r, this') ->
  r = res at_ l s /\
  exists l', this' = Node p None (VArray l') false /\
             ssorted at_ l' /\ Forall (okv at_) l' /\
             (forall v, In v l' -> In v l) /\
             (forall s, lastk at_ s l' = lastk at_ s l).
Proof.
  intros Hok Hd H. unfold search in H. inv_bind H.
  destruct (sortValues_spec _ _ _ _ Hok Hd E) as (l' & -> & Hs & Hok' & Hin & Hlk & _).
  rewrite setKey_needle in H. cbn [bind values as_array] in H.
  inv_bind H. inv_Ret H.
  destruct (bounds_eq_spec _ _ _ Hs Hok' E0) as (Hr & _).
  split.
  - rewrite Hr. unfold res. now rewrite Hlk.
  - exists l'. repeat split; auto.
Qed.

(** ** The walk of [find] *)

Lemma pre_cases p s :
  is_pre p s -> s = p \/ exists c r, s = (p ++ String c r)%string.
Proof.
  intros ([|c r] & ->); [left; apply append_nil_r|right; eauto].
Qed.

Lemma pre_length p s : is_pre p s -> (String.length p <= String.length s)%nat.
Proof. intros (r & ->). rewrite length_append. lia. Qed.

Lemma append_cons_neq p c r : (p ++ String c r)%string <> p.
Proof.
  intros H. apply (f_equal String.length) in H. rewrite length_append in H.
  simpl in H. lia.
Qed.

Lemma charAt_after p c r :
  key_charAt (KString (p ++ String c r)) (Z.of_nat (String.length p))
  = Ret (VString (String c "")).
Proof.
  cbn [key_charAt]. destruct (Z.ltb_spec (Z.of_nat (String.length p)) 0); [lia|].
  rewrite Nat2Z.id, substring_append_at. destruct r; reflexivity.
Qed.

Lemma arr_get_name {T} (es : jsarray T) name :
  arr_get es (VString name) = Ret (assoc name (aprops es)).
Proof. reflexivity. Qed.

Lemma arr_set_name {T} (es es' : jsarray T) name c :
  arr_set es (VString name) c = Ret es' ->
  aprops es' = assoc_set name c (aprops es).
Proof. unfold arr_set. cbn. intros [= <-]. reflexivity. Qed.

Lemma assoc_In {T} name (l : list (string * T)) c :
  assoc name l = Some c -> In (name, c) l.
Proof.
  induction l as [|[k w] t IH]; simpl; [discriminate|].
  destruct (String.eqb_spec k name) as [->|N].
  - intros [= <-]. now left.
  - intros H. right. now apply IH.
Qed.

Lemma Forall_assoc_set_pair {T} (P : string * T -> Prop) name c l :
  Forall P l -> P (name, c) -> Forall P (assoc_set name c l).
Proof.
  intros Hl Hc. induction Hl as [|[k w] t Hw Ht IH]; simpl.
  - constructor; [exact Hc|constructor].
  - destruct (String.eqb_spec k name) as [->|N]; constructor; assumption.
Qed.

Lemma wf_child p es iv d name c :
  wf at_ (Node (KString p) (Some es) iv d) ->
  assoc name (aprops es) = Some c ->
  wf at_ c /\ exists ch q, name = String ch "" /\ skip c = KString q /\
                           is_pre (p ++ String ch "") q.
Proof.
  intros Hwf Ha. inversion Hwf as [|p' es' iv' d' Hiv Hes]; subst.
  apply assoc_In in Ha. rewrite Forall_forall in Hes.
  exact (Hes _ Ha).
Qed.

Lemma lookup_term_inv p l d s r :
  lookup at_ (Node (KString p) None (VArray l) d) s r -> r = res at_ l s.
Proof. intros H. inversion H; subst. reflexivity. Qed.

Lemma lookup_branch_inv p es iv d s r :
  lookup at_ (Node (KString p) (Some es) iv d) s r ->
  (~ is_pre p s /\ r = VUndefined) \/
  (s = p /\ r = iv) \/
  (exists c r0, s = (p ++ String c r0)%string /\
     ((assoc (String c "") (aprops es) = None /\ r = VUndefined) \/
      (exists child, assoc (String c "") (aprops es) = Some child /\
                     lookup at_ child s r))).
Proof.
  intros H. inversion H; subst.
  - left. auto.
  - right; left. auto.
  - right; right. eexists _, _. split; [reflexivity|]. left. auto.
  - right; right. eexists _, _. split; [reflexivity|]. right. eauto.
Qed.

(** The three places a key can be relative to a branching node. *)
Lemma key_cases p s :
  ~ is_pre p s \/ s = p \/ exists c r, s = (p ++ String c r)%string.
Proof.
  destruct (Z.eq_dec (string_match s p) (Z.of_nat (String.length p))) as [E|N].
  - apply match_full_iff in E. right. now apply pre_cases.
  - left. intros H. apply N. now apply match_full_iff.
Qed.

Lemma lookup_branch_cases p es iv d s r :
  lookup at_ (Node (KString p) (Some es) iv d) s r ->
  (~ is_pre p s -> r = VUndefined) /\
  (s = p -> r = iv) /\
  (forall c r0, s = (p ++ String c r0)%string ->
     match assoc (String c "") (aprops es) with
     | None => r = VUndefined
     | Some child => lookup at_ child s r
     end).
Proof.
  intros H. apply lookup_branch_inv in H
    as [[Hn ->]|[[-> ->]|(c & r0 & -> & [[Ha ->]|(child & Ha & Hl)])]].
  - split; [reflexivity|]. split.
    + intros ->. exfalso. apply Hn, is_pre_refl.
    + intros c r0 ->. exfalso. apply Hn. eexists; reflexivity.
  - split; [intros Hn; exfalso; apply Hn, is_pre_refl|]. split; [reflexivity|].
    intros c r0 E. exfalso. eapply append_cons_neq. symmetry. exact E.
  - split; [reflexivity|]. split.
    + intros E. exfalso. eapply append_cons_neq. exact E.
    + intros c' r' E. apply append_inv_l in E. injection E as <- <-.
      now rewrite Ha.
  - split; [intros Hn; exfalso; apply Hn; eexists; reflexivity|]. split.
    + intros E. exfalso. eapply append_cons_neq. exact E.
    + intros c' r' E. apply append_inv_l in E. injection E as <- <-.
      now rewrite Ha.
Qed.

Lemma res_off p l s :
  Forall (fun v => is_pre p (kof at_ v)) l -> ~ is_pre p s -> res at_ l s = VUndefined.
Proof.
  intros Hp Hn. unfold res.
  assert (E : lastk at_ s l = None).
  { apply lastk_None. intros v Hv E. apply Hn. rewrite <- E.
    rewrite Forall_forall in Hp. now apply Hp. }
  now rewrite E.
Qed.

Lemma match_key s p :
  opt_match o (KString s) (KString p) = Ret (string_match s p).
Proof. reflexivity. Qed.

Lemma match_not_full p c r :
  (string_match (p ++ String c r) p =? Z.of_nat (String.length (p ++ String c r))) = false.
Proof.
  apply Z.eqb_neq. pose proof (string_match_bounds (p ++ String c r) p).
  rewrite length_append in *. simpl String.length in *. lia.
Qed.

Lemma length_not_full p c r :
  (Z.of_nat (String.length p) =? Z.of_nat (String.length (p ++ String c r))) = false.
Proof.
  apply Z.eqb_neq. rewrite length_append. simpl String.length. lia.
Qed.

Lemma match_pre p s : is_pre p s -> string_match s p = Z.of_nat (String.length p).
Proof. apply match_full_iff. Qed.

Lemma get_spec fuel : forall n s r r' n',
  wf at_ n -> lookup at_ n s r ->
  get o fuel (KString s) n = Ret (r', n') ->
  r' = r /\ wf at_ n' /\ skip n' = skip n /\
  (forall s' x, lookup at_ n s' x -> lookup at_ n' s' x).
Proof.
  unfold get. induction fuel as [|fuel IH]; intros n s r r' n' Hwf Hlk H;
    [discriminate|].
  cbn [find] in H.
  inversion Hwf as [p l d Hok Hpre Hsort|p es iv d Hiv Hes]; subst;
    cbn [skip edges values dirty] in H; rewrite match_key in H;
    cbn [bind key_length] in H.
  - (* terminal *)
    apply lookup_term_inv in Hlk. subst r.
    destruct (Z.eqb_spec (string_match s p) (Z.of_nat (String.length p))) as [E|N];
      cbn [negb] in H.
    + apply search_spec in H as (-> & l' & -> & Hs' & Hok' & Hin & Hlk'); try assumption.
      split; [reflexivity|].
      split.
      { constructor; [exact Hok'| |intros _; exact Hs'].
        rewrite Forall_forall in Hpre |- *. intros v Hv. apply Hpre. now apply Hin. }
      split; [reflexivity|].
      intros s' x Hx. apply lookup_term_inv in Hx. subst x.
      replace (res at_ l s') with (res at_ l' s') by (unfold res; now rewrite Hlk').
      constructor.
    + inv_Ret H.
      split; [|split; [exact Hwf|split; [reflexivity|auto]]].
      symmetry. apply res_off with (p := p); [exact Hpre|].
      intros Hp. apply N. now apply match_full_iff.
  - (* branching *)
    apply lookup_branch_cases in Hlk as (Hoff & Hhere & Hdown).
    destruct (key_cases p s) as [Hn|[->|(c & r0 & ->)]].
    + assert (Hne : (string_match s p =? Z.of_nat (String.length p)) = false).
      { apply Z.eqb_neq. intros E. apply Hn. now apply match_full_iff. }
      rewrite Hne in H. cbn [negb] in H. inv_Ret H.
      split; [now rewrite Hoff|]. split; [exact Hwf|]. split; [reflexivity|auto].
    + rewrite string_match_refl, !Z.eqb_refl in H. cbn [negb] in H. inv_Ret H.
      split; [now rewrite Hhere|]. split; [exact Hwf|]. split; [reflexivity|auto].
    + rewrite match_pre in H by (eexists; reflexivity).
      rewrite Z.eqb_refl in H. cbn [negb] in H.
      rewrite length_not_full in H.
      rewrite charAt_after in H. cbn [bind] in H.
      rewrite arr_get_name in H. cbn [bind] in H.
      specialize (Hdown c r0 eq_refl).
      destruct (assoc (String c "") (aprops es)) as [child|] eqn:Ha.
      * inv_bind H. destruct a as [x c']. inv_bind H. inv_Ret H.
        destruct (wf_child _ _ _ _ _ _ Hwf Ha) as (Hwc & ch & q & Hname & Hskip & Hq).
        destruct (IH _ _ _ _ _ Hwc Hdown E) as (-> & Hwc' & Hsk' & Hfr).
        apply arr_set_name in E0.
        split; [reflexivity|]. split.
        { constructor; [exact Hiv|]. rewrite E0.
          apply Forall_assoc_set_pair; [exact Hes|]. cbn [fst snd].
          split; [exact Hwc'|]. exists ch, q. rewrite Hsk'. auto. }
        split; [reflexivity|].
        intros s' x0 Hx.
        apply lookup_branch_inv in Hx
          as [[Hn' ->]|[[-> ->]|(c2 & r2 & -> & [[Ha2 ->]|(child2 & Ha2 & Hl2)])]].
        -- now apply lk_off.
        -- apply lk_here.
        -- apply lk_none. rewrite E0.
           destruct (String.eqb_spec (String c "") (String c2 "")) as [Ec|Nc].
           ++ rewrite <- Ec, Ha in Ha2. discriminate.
           ++ rewrite assoc_set_other by exact Nc. exact Ha2.
        -- destruct (String.eqb_spec (String c "") (String c2 "")) as [Ec|Nc].
           ++ injection Ec as <-. rewrite Ha in Ha2. inv_Ret Ha2.
              eapply lk_child; [rewrite E0; apply assoc_set_same|].
              now apply Hfr.
           ++ eapply lk_child; [rewrite E0, assoc_set_other by exact Nc; exact Ha2|].
              exact Hl2.
      * injection H as <- <-.
        split; [now rewrite Hdown|]. split; [exact Hwf|]. split; [reflexivity|auto].
Qed.

(** ** Order and prefixes *)

Lemma pre_le a b : is_pre a b -> String.ltb b a = false.
Proof.
  intros (r & ->). unfold String.ltb.
  rewrite <- (append_nil_r a) at 2. rewrite compare_append.
  destruct r; reflexivity.
Qed.

Lemma between_pre q : forall a b x,
  is_pre q a -> is_pre q b ->
  String.ltb x a = false -> String.ltb b x = false -> is_pre q x.
Proof.
  induction q as [|c q IH]; intros a b x (ra & ->) (rb & ->) Hax Hxb.
  - exists x. reflexivity.
  - cbn [append] in *. destruct x as [|d x].
    + discriminate.
    + unfold String.ltb in Hax, Hxb. cbn [String.compare] in Hax, Hxb.
      rewrite (Ascii.compare_antisym c d) in Hxb.
      destruct (Ascii.compare d c) eqn:Edc; cbn [CompOpp] in Hxb; try discriminate.
      apply Ascii.compare_eq_iff in Edc. subst d.
      destruct (IH (q ++ ra)%string (q ++ rb)%string x) as (r & ->).
      * eexists; reflexivity.
      * eexists; reflexivity.
      * exact Hax.
      * exact Hxb.
      * exists r. reflexivity.
Qed.

Lemma char_mono pl c1 r1 c2 r2 :
  String.ltb (pl ++ String c1 r1) (pl ++ String c2 r2) = true -> cle c1 c2.
Proof.
  unfold String.ltb. rewrite compare_append. cbn [String.compare].
  unfold cle, Ascii.compare.
  destruct (N.compare_spec (N_of_ascii c1) (N_of_ascii c2)); try lia;
    try discriminate.
Qed.

Lemma cle_neq_clt c d : cle c d -> c <> d -> clt c d.
Proof.
  unfold cle, clt. intros H N.
  destruct (N.eq_dec (N_of_ascii c) (N_of_ascii d)) as [E|E]; [|lia].
  exfalso. apply N. rewrite <- (ascii_N_embedding c), <- (ascii_N_embedding d).
  now rewrite E.
Qed.

Lemma mapM_pure {A B} (f : A -> outcome B) (g : A -> B) l :
  (forall v, In v l -> f v = Ret (g v)) -> mapM f l = Ret (map g l).
Proof.
  induction l as [|x t IH]; intros H; simpl; [reflexivity|].
  rewrite (H x (or_introl eq_refl)). cbn [bind].
  rewrite IH by (intros v Hv; apply H; now right). reflexivity.
Qed.

Lemma combine_map {A B} (f : A -> B) l :
  combine (map f l) l = map (fun v => (f v, v)) l.
Proof. induction l; simpl; congruence. Qed.

Lemma ssorted_last l :
  ssorted at_ l -> forall v, In v l ->
  v = List.last l VUndefined \/
  String.ltb (kof at_ v) (kof at_ (List.last l VUndefined)) = true.
Proof.
  induction 1 as [|x t Hs IH Hall]; intros v Hv; [destruct Hv|].
  destruct t as [|y t'].
  - destruct Hv as [<-|[]]. now left.
  - change (List.last (x :: y :: t') VUndefined) with (List.last (y :: t') VUndefined).
    destruct Hv as [<-|Hv].
    + right. rewrite Forall_forall in Hall. apply Hall.
      destruct (IH y (or_introl eq_refl)) as [E|L].
      * rewrite <- E. now left.
      * clear -t'. revert y. induction t' as [|z t IH]; intros y; [now left|].
        right. apply IH.
    + now apply IH.
Qed.

Lemma last_In (l : list value) : l <> [] -> In (List.last l VUndefined) l.
Proof.
  induction l as [|x [|y t] IH]; intros H; [congruence|now left|].
  right. apply IH. discriminate.
Qed.

(** [commonPrefix] of a sorted bin is the longest prefix all its keys
    share. *)
Lemma commonPrefix_spec l :
  ssorted at_ l -> Forall (okv at_) l -> l <> [] ->
  exists pv, commonPrefix o l = Ret (KString pv) /\
             (forall v, In v l -> is_pre pv (kof at_ v)) /\
             (forall q, (forall v, In v l -> is_pre q (kof at_ v)) -> is_pre q pv).
Proof.
  intros Hs Hok Hne. destruct l as [|x [|y t]]; [congruence| |].
  - inversion Hok; subst. exists (kof at_ x). cbn [commonPrefix].
    split; [now apply getKey_okv|]. split.
    + intros v [<-|[]]. apply is_pre_refl.
    + intros q Hq. apply Hq. now left.
  - remember (List.last (x :: y :: t) VUndefined) as lst eqn:El.
    assert (Hx : okv at_ x) by (inversion Hok; assumption).
    assert (Hl : okv at_ lst).
    { rewrite Forall_forall in Hok. apply Hok. subst lst. apply last_In. discriminate. }
    exists (substring 0 (Z.to_nat (string_match (kof at_ x) (kof at_ lst))) (kof at_ x)).
    split.
    { cbn [commonPrefix]. rewrite <- El.
      rewrite (getKey_okv x Hx). cbn [bind].
      rewrite (getKey_okv _ Hl). cbn [bind]. reflexivity. }
    destruct (lcp_is_pre (kof at_ x) (kof at_ lst)) as [Hp1 Hp2].
    split.
    + intros v Hv. eapply between_pre; [exact Hp1|exact Hp2| |].
      * inversion Hs as [|? ? _ Hall]; subst. destruct Hv as [<-|Hv].
        -- apply slt_irrefl.
        -- rewrite Forall_forall in Hall. apply slt_asym. now apply Hall.
      * rewrite El. destruct (ssorted_last _ Hs v Hv) as [<-|L]; [apply slt_irrefl|].
        now apply slt_asym.
    + intros q Hq. apply lcp_greatest.
      * apply Hq. now left.
      * apply Hq. subst lst. apply last_In. discriminate.
Qed.

(** ** The runs of [_explode] *)

Lemma runs_runs_by ch : forall rest c acc,
  runs (VString (String c "")) acc (map (tag ch) rest)
  = map tag_group (runs_by ch c acc rest).
Proof.
  induction rest as [|v t IH]; intros c acc; [reflexivity|].
  cbn [map runs runs_by tag strict_eq]. cbn [String.eqb].
  destruct (Ascii.eqb c (ch v)); cbn [andb].
  - apply IH.
  - cbn [map]. f_equal. apply IH.
Qed.

Lemma group_runs_runs_of ch l :
  group_runs (map (tag ch) l) = map tag_group (runs_of ch l).
Proof. destruct l as [|v t]; [reflexivity|]. apply runs_runs_by. Qed.

Lemma runs_by_spec ch : forall rest c acc,
  acc <> [] -> (forall v, In v acc -> ch v = c) ->
  List.concat (map snd (runs_by ch c acc rest)) = rev acc ++ rest /\
  Forall (fun g => snd g <> [] /\ forall v, In v (snd g) -> ch v = fst g)
         (runs_by ch c acc rest).
Proof.
  induction rest as [|v t IH]; intros c acc Hne Hacc; cbn [runs_by].
  - cbn. rewrite app_nil_r. split; [reflexivity|].
    constructor; [|constructor]. cbn. split.
    + intros E. apply Hne. apply (f_equal (@rev value)) in E.
      now rewrite rev_involutive in E.
    + intros w Hw. apply Hacc. now apply in_rev.
  - destruct (Ascii.eqb_spec c (ch v)) as [E|N].
    + destruct (IH c (v :: acc)) as [Hc Hf]; [discriminate| |].
      * intros w [<-|Hw]; [now symmetry|now apply Hacc].
      * split; [|exact Hf]. rewrite Hc. cbn [rev]. now rewrite <- app_assoc.
    + destruct (IH (ch v) [v]) as [Hc Hf]; [discriminate| |].
      * intros w [<-|[]]. reflexivity.
      * split.
        -- cbn [map List.concat snd]. rewrite Hc. reflexivity.
        -- constructor; [|exact Hf]. cbn. split.
           ++ intros E. apply Hne. apply (f_equal (@rev value)) in E.
              now rewrite rev_involutive in E.
           ++ intros w Hw. apply Hacc. now apply in_rev.
Qed.

Lemma runs_by_chars ch : forall rest c acc,
  Forall (fun v => cle c (ch v)) rest ->
  StronglySorted (fun v w => cle (ch v) (ch w)) rest ->
  StronglySorted clt (map fst (runs_by ch c acc rest)) /\
  Forall (cle c) (map fst (runs_by ch c acc rest)).
Proof.
  induction rest as [|v t IH]; intros c acc Hc Hs; cbn [runs_by].
  - cbn. split; [repeat constructor|]. constructor; [|constructor].
    unfold cle. lia.
  - inversion Hc as [|? ? Hcv Hct]; subst. inversion Hs as [|? ? Hst Hvt]; subst.
    destruct (Ascii.eqb_spec c (ch v)) as [E|N].
    + apply IH; assumption.
    + destruct (IH (ch v) [v] Hvt Hst) as [Hss Hle].
      pose proof (cle_neq_clt _ _ Hcv N) as Hlt.
      cbn [map fst]. split.
      * constructor; [exact Hss|]. rewrite Forall_forall in Hle |- *.
        intros d Hd. specialize (Hle d Hd). unfold clt, cle in *. lia.
      * constructor; [unfold cle; lia|]. rewrite Forall_forall in Hle |- *.
        intros d Hd. specialize (Hle d Hd). unfold clt, cle in *. lia.
Qed.

Lemma clt_sorted_NoDup l : StronglySorted clt l -> NoDup l.
Proof.
  induction 1 as [|c t Hs IH Hall]; constructor; [|exact IH].
  intros Hin. rewrite Forall_forall in Hall. specialize (Hall c Hin).
  unfold clt in Hall. lia.
Qed.

Lemma ssorted_app l1 l2 : ssorted at_ (l1 ++ l2) -> ssorted at_ l1 /\ ssorted at_ l2.
Proof.
  induction l1 as [|x t IH]; cbn [app]; intros H.
  - split; [constructor|exact H].
  - inversion H as [|? ? Hs Hall]; subst. destruct (IH Hs) as [H1 H2].
    split; [|exact H2]. constructor; [exact H1|].
    rewrite Forall_forall in Hall |- *. intros w Hw. apply Hall.
    apply in_or_app. now left.
Qed.

Lemma ssorted_concat ls :
  ssorted at_ (List.concat ls) -> forall l, In l ls -> ssorted at_ l.
Proof.
  induction ls as [|l0 t IH]; cbn [List.concat]; intros H l Hin; [destruct Hin|].
  destruct Hin as [<-|Hl].
  - apply (ssorted_app _ _ H).
  - apply IH; [apply (ssorted_app _ _ H)|exact Hl].
Qed.

(** ** Filling the jump table *)

Lemma In_assoc_set {T} name name' (v v' : T) l :
  In (name', v') (assoc_set name v l) -> (name', v') = (name, v) \/ In (name', v') l.
Proof.
  induction l as [|[k w] t IH]; simpl.
  - intros [E|[]]. left. now symmetry.
  - destruct (String.eqb_spec k name) as [->|N]; simpl.
    + intros [E|H]; [left; now symmetry|right; now right].
    + intros [E|H]; [right; now left|].
      destruct (IH H) as [E|H']; [now left|right; now right].
Qed.

Lemma populate_spec mk : forall gs es0 es,
  populate mk (map tag_group gs) es0 = Ret es ->
  NoDup (map fst gs) ->
  (forall name, (forall g, In g gs -> String (fst g) "" <> name) ->
                assoc name (aprops es) = assoc name (aprops es0)) /\
  (forall c vs, In (c, vs) gs ->
                exists n, mk vs = Ret n /\
                          assoc (String c "") (aprops es) = Some n) /\
  (forall name n, In (name, n) (aprops es) ->
                  In (name, n) (aprops es0) \/
                  exists c vs, In (c, vs) gs /\ name = String c "" /\ mk vs = Ret n).
Proof.
  induction gs as [|[c vs] t IH]; intros es0 es H Hnd.
  - cbn in H. inv_Ret H. split; [reflexivity|]. split; [intros ? ? []|auto].
  - cbn [map tag_group populate fst snd] in H. inv_bind H. inv_bind H.
    apply arr_set_name in E0.
    inversion Hnd as [|? ? Hnin Hnd']; subst.
    destruct (IH a0 es H Hnd') as (Hother & Hgroups & Hentries).
    split; [|split].
    + intros name Hname. rewrite Hother by (intros g Hg; apply Hname; now right).
      rewrite E0. apply assoc_set_other. apply (Hname (c, vs)). now left.
    + intros c' vs' [E'|Hin].
      * injection E' as <- <-. exists a. split; [exact E|].
        rewrite Hother.
        -- rewrite E0. apply assoc_set_same.
        -- intros g Hg Eg. injection Eg as Eg. apply Hnin.
           rewrite <- Eg. apply in_map. exact Hg.
      * now apply Hgroups.
    + intros name n Hin. destruct (Hentries name n Hin) as [H0|(c' & vs' & Hg & -> & Hmk)].
      * rewrite E0 in H0. apply In_assoc_set in H0 as [E'|H0]; [|now left].
        injection E' as -> ->. right. exists c, vs. split; [now left|auto].
      * right. exists c', vs'. split; [now right|auto].
Qed.

(** ** Building a branching node *)

Lemma long_key pl v :
  is_pre pl (kof at_ v) -> String.length (kof at_ v) <> String.length pl ->
  exists r, kof at_ v = (pl ++ String (chr_at at_ (String.length pl) v) r)%string.
Proof.
  intros Hp Hl. destruct (pre_cases _ _ Hp) as [E|(c & r & E)].
  - rewrite E in Hl. congruence.
  - exists r. unfold chr_at. rewrite E at 1. rewrite E at 1.
    rewrite substring_append_at. cbn. destruct r; reflexivity.
Qed.

Lemma NoDup_fst_unique {A B} (l : list (A * B)) a b b' :
  NoDup (map fst l) -> In (a, b) l -> In (a, b') l -> b = b'.
Proof.
  induction l as [|[x y] t IH]; intros Hnd H1 H2; [destruct H1|].
  cbn in Hnd. inversion Hnd as [|? ? Hnin Hnd']; subst.
  destruct H1 as [E1|H1], H2 as [E2|H2].
  - congruence.
  - injection E1 as -> ->. exfalso. apply Hnin.
    change a with (fst (a, b')). now apply in_map.
  - injection E2 as -> ->. exfalso. apply Hnin.
    change a with (fst (a, b)). now apply in_map.
  - now apply IH.
Qed.

Lemma ssorted_chars pl l :
  ssorted at_ l ->
  (forall v, In v l ->
     exists r, kof at_ v = (pl ++ String (chr_at at_ (String.length pl) v) r)%string) ->
  StronglySorted (fun v w => cle (chr_at at_ (String.length pl) v)
                                 (chr_at at_ (String.length pl) w)) l.
Proof.
  induction 1 as [|a t Hst IH Ha]; intros Hlong; constructor.
  - apply IH. intros w Hw. apply Hlong. now right.
  - rewrite Forall_forall in Ha |- *. intros w Hw. specialize (Ha w Hw).
    destruct (Hlong a (or_introl eq_refl)) as (ra & Ea).
    destruct (Hlong w (or_intror Hw)) as (rw & Ew).
    rewrite Ea, Ew in Ha. eapply char_mono. exact Ha.
Qed.

Lemma runs_of_facts pl lr :
  ssorted at_ lr -> Forall (okv at_) lr ->
  (forall v, In v lr ->
     exists r, kof at_ v = (pl ++ String (chr_at at_ (String.length pl) v) r)%string) ->
  List.concat (map snd (runs_of (chr_at at_ (String.length pl)) lr)) = lr /\
  Forall (fun g => snd g <> [] /\
                   forall v, In v (snd g) -> chr_at at_ (String.length pl) v = fst g)
         (runs_of (chr_at at_ (String.length pl)) lr) /\
  NoDup (map fst (runs_of (chr_at at_ (String.length pl)) lr)).
Proof.
  intros Hs Hok Hlong. destruct lr as [|v0 t]; cbn [runs_of].
  - repeat split; constructor.
  - destruct (runs_by_spec (chr_at at_ (String.length pl)) t
                (chr_at at_ (String.length pl) v0) [v0]) as [Hc Hf].
    + discriminate.
    + intros w [<-|[]]. reflexivity.
    + split; [exact Hc|]. split; [exact Hf|].
      apply clt_sorted_NoDup.
      inversion Hs as [|? ? Hst Hall]; subst.
      apply runs_by_chars.
      * rewrite Forall_forall in Hall |- *. intros w Hw. specialize (Hall w Hw).
        destruct (Hlong v0 (or_introl eq_refl)) as (r0 & E0).
        destruct (Hlong w (or_intror Hw)) as (rw & Ew).
        rewrite E0, Ew in Hall. eapply char_mono. exact Hall.
      * apply ssorted_chars; [exact Hst|].
        intros w Hw. apply Hlong. now right.
Qed.

Lemma build_branch fuel pv internal lr es :
  build_ok at_ bs fuel ->
  ssorted at_ lr -> Forall (okv at_) lr ->
  (forall v, In v lr ->
     exists r, kof at_ v = (pv ++ String (chr_at at_ (String.length pv) v) r)%string) ->
  (internal = VUndefined \/ (okv at_ internal /\ kof at_ internal = pv)) ->
  populate (child_of o fuel)
    (map tag_group (runs_of (chr_at at_ (String.length pv)) lr)) arr_empty = Ret es ->
  wf at_ (Node (KString pv) (Some es) internal false) /\
  (forall s, lookup at_ (Node (KString pv) (Some es) internal false) s
               (if String.eqb s pv then internal else res at_ lr s)).
Proof.
  intros Hrec Hs Hok Hlong Hiv Hpop.
  destruct (runs_of_facts pv lr Hs Hok Hlong) as (Hcat & Huni & Hnd).
  set (ch := chr_at at_ (String.length pv)) in *.
  set (gs := runs_of ch lr) in *.
  destruct (populate_spec _ _ _ _ Hpop Hnd) as (Hother & Hgroups & Hentries).
  assert (Hseg : forall c vs, In (c, vs) gs ->
            vs <> [] /\ ssorted at_ vs /\ Forall (okv at_) vs /\
            (forall v, In v vs -> In v lr /\ ch v = c)).
  { intros c vs Hin. rewrite Forall_forall in Huni.
    destruct (Huni _ Hin) as [Hne Hch]. cbn [fst snd] in *.
    assert (Hsub : forall v, In v vs -> In v lr).
    { intros v Hv. rewrite <- Hcat. apply in_concat. exists vs. split; [|exact Hv].
      change vs with (snd (c, vs)). now apply in_map. }
    split; [exact Hne|]. split.
    - apply (ssorted_concat (map snd gs)); [now rewrite Hcat|].
      change vs with (snd (c, vs)). now apply in_map.
    - split.
      + rewrite Forall_forall in Hok |- *. intros v Hv. apply Hok. now apply Hsub.
      + intros v Hv. split; [now apply Hsub|now apply Hch]. }
  assert (Hchild : forall c vs n, In (c, vs) gs -> child_of o fuel vs = Ret n ->
            wf at_ n /\ (forall s, lookup at_ n s (res at_ vs s)) /\
            exists q, skip n = KString q /\ is_pre (pv ++ String c "") q).
  { intros c vs n Hin Hmk. destruct (Hseg c vs Hin) as (Hne & Hsv & Hokv & Hvs).
    unfold child_of in Hmk.
    destruct (commonPrefix_spec vs Hsv Hokv Hne) as (pvv & Hcp & Hall & Hgreat).
    rewrite Hcp in Hmk. cbn [bind] in Hmk.
    destruct (Hrec pvv vs n Hsv Hokv) as (Hw & Hl & Hsk); [|exact Hmk|].
    { rewrite Forall_forall. exact Hall. }
    split; [exact Hw|]. split; [exact Hl|].
    destruct (Hsk Hne) as (p' & Hp' & Hpre). exists p'. split; [exact Hp'|].
    eapply is_pre_trans; [|exact Hpre]. apply Hgreat.
    intros v Hv. destruct (Hvs v Hv) as [Hlr Hc].
    destruct (Hlong v Hlr) as (r & E). rewrite E. fold ch. rewrite Hc.
    exists r. rewrite append_assoc. reflexivity. }
  split.
  - constructor; [exact Hiv|]. rewrite Forall_forall. intros [name n] Hin.
    destruct (Hentries name n Hin) as [[]|(c & vs & Hg & -> & Hmk)].
    cbn [fst snd]. destruct (Hchild c vs n Hg Hmk) as (Hw & _ & q & Hq & Hpre).
    split; [exact Hw|]. eauto.
  - intros s. destruct (key_cases pv s) as [Hn|[->|(c & r & ->)]].
    + assert (E : String.eqb s pv = false).
      { apply String.eqb_neq. intros ->. apply Hn, is_pre_refl. }
      rewrite E. rewrite (res_off pv).
      * now apply lk_off.
      * rewrite Forall_forall. intros v Hv. destruct (Hlong v Hv) as (r & ->).
        eexists; reflexivity.
      * exact Hn.
    + rewrite String.eqb_refl. apply lk_here.
    + assert (E : String.eqb (pv ++ String c r) pv = false).
      { apply String.eqb_neq. apply append_cons_neq. }
      rewrite E.
      assert (Hkey : forall v, In v lr -> kof at_ v = (pv ++ String c r)%string ->
                               ch v = c).
      { intros v Hv Ek. destruct (Hlong v Hv) as (r' & E'). fold ch in E'.
        rewrite E' in Ek. apply append_inv_l in Ek. now injection Ek. }
      assert (Hin_group : forall v, In v lr -> exists vs, In (ch v, vs) gs /\ In v vs).
      { intros v Hv. rewrite <- Hcat in Hv. apply in_concat in Hv as (vs & Hvs & Hv).
        apply in_map_iff in Hvs as ([c' vs'] & Evs & Hg). cbn in Evs. subst vs'.
        exists vs. split; [|exact Hv].
        rewrite Forall_forall in Huni. destruct (Huni _ Hg) as [_ Hch].
        cbn [fst snd] in Hch. now rewrite (Hch v Hv). }
      destruct (in_dec ascii_dec c (map fst gs)) as [Hc|Hc].
      * apply in_map_iff in Hc as ([c' vs] & Ec & Hg). cbn in Ec. subst c'.
        destruct (Hgroups c vs Hg) as (n & Hmk & Ha).
        destruct (Hchild c vs n Hg Hmk) as (_ & Hl & _).
        eapply lk_child; [exact Ha|].
        replace (res at_ lr (pv ++ String c r)) with (res at_ vs (pv ++ String c r));
          [apply Hl|].
        destruct (Hseg c vs Hg) as (_ & Hsv & _ & Hvs).
        unfold res. destruct (lastk at_ (pv ++ String c r) lr) as [v|] eqn:Lk.
        -- destruct (lastk_In _ _ _ Lk) as [Hv Hk].
           destruct (Hin_group v Hv) as (vs' & Hg' & Hv').
           rewrite (Hkey v Hv Hk) in Hg'.
           rewrite (NoDup_fst_unique gs c vs vs' Hnd Hg Hg').
           rewrite <- Hk. now rewrite (ssorted_lastk vs' v)
             by (try exact Hv'; rewrite <- (NoDup_fst_unique gs c vs vs' Hnd Hg Hg'); exact Hsv).
        -- assert (E' : lastk at_ (pv ++ String c r) vs = None).
           { apply lastk_None. intros v Hv. apply (proj1 (lastk_None _ _) Lk).
             now apply Hvs. }
           now rewrite E'.
      * assert (Ha : assoc (String c "") (aprops es) = None).
        { rewrite Hother; [reflexivity|]. intros g Hg Eg. injection Eg as Eg.
          apply Hc. rewrite <- Eg. now apply in_map. }
        replace (res at_ lr (pv ++ String c r)) with VUndefined; [now apply lk_none|].
        unfold res.
        assert (E' : lastk at_ (pv ++ String c r) lr = None).
        { apply lastk_None. intros v Hv Ek. apply Hc.
          destruct (Hin_group v Hv) as (vs & Hg & _). rewrite (Hkey v Hv Ek) in Hg.
          change c with (fst (c, vs)). now apply in_map. }
        now rewrite E'.
Qed.

Lemma ncf_okv pv v :
  okv at_ v -> is_pre pv (kof at_ v) ->
  (k <- opt_getKey o v ;;
   kl <- key_length k ;;
   (if kl =? Z.of_nat (String.length pv) then Ret VUndefined
    else key_charAt k (Z.of_nat (String.length pv))))
  = Ret (if Z.of_nat (String.length (kof at_ v)) =? Z.of_nat (String.length pv)
         then VUndefined
         else fst (tag (chr_at at_ (String.length pv)) v)).
Proof.
  intros Hv Hp. rewrite (getKey_okv v Hv). cbn [bind key_length].
  destruct (Z.of_nat (String.length (kof at_ v)) =? Z.of_nat (String.length pv)) eqn:E;
    [reflexivity|].
  apply Z.eqb_neq in E.
  destruct (long_key pv v Hp ltac:(lia)) as [r Er].
  pose proof (charAt_after pv (chr_at at_ (String.length pv) v) r) as C.
  rewrite <- Er in C. exact C.
Qed.

Lemma res_cons_internal x t s :
  (forall v, In v t -> kof at_ v <> kof at_ x) ->
  res at_ (x :: t) s = if String.eqb s (kof at_ x) then x else res at_ t s.
Proof.
  intros Hne. unfold res. cbn [lastk].
  destruct (String.eqb_spec s (kof at_ x)) as [->|Hs].
  - destruct (lastk at_ (kof at_ x) t) as [w|] eqn:E.
    + apply lastk_In in E as [Hin Hk]. exfalso. exact (Hne _ Hin Hk).
    + now rewrite String.eqb_refl.
  - destruct (lastk at_ s t); [reflexivity|].
    destruct (String.eqb_spec (kof at_ x) s); [congruence|reflexivity].
Qed.

Lemma res_absent l s :
  (forall v, In v l -> kof at_ v <> s) -> res at_ l s = VUndefined.
Proof. intros H. unfold res. apply lastk_None in H. now rewrite H. Qed.

(** One step of [_explode] on a strictly sorted bin that is too long:
    the prefix, the internal value, the values that go to the children,
    and the node as a function of the children. *)
Lemma explode_step fuel p x t :
  ssorted at_ (x :: t) -> Forall (okv at_) (x :: t) ->
  (len (x :: t) <=? binSize o) = false ->
  exists pv internal lr,
    (forall v, In v (x :: t) -> is_pre pv (kof at_ v)) /\
    (forall q, (forall v, In v (x :: t) -> is_pre q (kof at_ v)) -> is_pre q pv) /\
    ssorted at_ lr /\ Forall (okv at_) lr /\
    (forall v, In v lr -> In v (x :: t)) /\
    (forall v, In v lr ->
       exists r, kof at_ v = (pv ++ String (chr_at at_ (String.length pv) v) r)%string) /\
    (internal = VUndefined \/ (okv at_ internal /\ kof at_ internal = pv)) /\
    (forall s, res at_ (x :: t) s = if String.eqb s pv then internal else res at_ lr s) /\
    explode o (S fuel) (Node (KString p) None (VArray (x :: t)) false) =
      (es <- populate (child_of o fuel)
               (map tag_group (runs_of (chr_at at_ (String.length pv)) lr)) arr_empty ;;
       Ret (Node (KString pv) (Some es) internal false)).
Proof.
  intros Hs Hok L.
  destruct (commonPrefix_spec (x :: t) Hs Hok ltac:(discriminate))
    as (pv & Ecp & Hpre & Hgr).
  pose proof (proj1 (Forall_forall _ _) Hok) as Hok'.
  inversion Hs as [|x0 t0 Hst Hlt]; subst x0 t0.
  pose proof (proj1 (Forall_forall _ _) Hlt) as Hlt'. cbv beta in Hlt'.
  assert (Hstep : explode o (S fuel) (Node (KString p) None (VArray (x :: t)) false) =
     (let '(internal, rest) :=
        match map (fun v => if Z.of_nat (String.length (kof at_ v)) =?
                               Z.of_nat (String.length pv)
                            then VUndefined
                            else fst (tag (chr_at at_ (String.length pv)) v)) (x :: t),
              x :: t with
        | c :: cs, v :: vs =>
            if is_undefined c then (v, combine cs vs)
            else (VUndefined,
                  combine (map (fun v => if Z.of_nat (String.length (kof at_ v)) =?
                               Z.of_nat (String.length pv)
                            then VUndefined
                            else fst (tag (chr_at at_ (String.length pv)) v)) (x :: t))
                          (x :: t))
        | _, _ => (VUndefined, [])
        end in
      es <- populate (child_of o fuel) (group_runs rest) arr_empty ;;
      Ret (Node (KString pv) (Some es) internal false))).
  { cbn [explode values as_array bind sortValues dirty]. rewrite L.
    rewrite Ecp. cbn [bind key_length].
    rewrite (mapM_pure _
               (fun v => if Z.of_nat (String.length (kof at_ v)) =?
                            Z.of_nat (String.length pv)
                         then VUndefined
                         else fst (tag (chr_at at_ (String.length pv)) v)))
      by (intros v Hv; apply ncf_okv; auto).
    reflexivity. }
  rewrite Hstep. clear Hstep. cbn [map].
  destruct (Z.eqb_spec (Z.of_nat (String.length (kof at_ x))) (Z.of_nat (String.length pv)))
    as [El|El].
  - (* the first value has the prefix as key: it is the internal value *)
    assert (Ex : kof at_ x = pv).
    { destruct (pre_cases _ _ (Hpre x (or_introl eq_refl))) as [E|(c & r & E)]; [exact E|].
      rewrite E, length_append in El. cbn in El. lia. }
    assert (Hlong : forall v, In v t ->
              exists r, kof at_ v = (pv ++ String (chr_at at_ (String.length pv) v) r)%string).
    { intros v Hv. apply long_key; [apply Hpre; now right|].
      intros C. destruct (pre_cases _ _ (Hpre v (or_intror Hv))) as [E|(c & r & E)].
      - specialize (Hlt' v Hv). rewrite E, Ex, slt_irrefl in Hlt'. discriminate.
      - rewrite E, length_append in C. cbn in C. lia. }
    exists pv, x, t. cbn [is_undefined].
    rewrite (map_ext_in _ (fun v => fst (tag (chr_at at_ (String.length pv)) v))).
    2:{ intros v Hv. destruct (Hlong v Hv) as [r Er].
        destruct (Z.eqb_spec (Z.of_nat (String.length (kof at_ v)))
                    (Z.of_nat (String.length pv))) as [C|C]; [|reflexivity].
        rewrite Er, length_append in C. cbn in C. lia. }
    rewrite (combine_map (fun v => fst (tag (chr_at at_ (String.length pv)) v)) t).
    change (map (fun v => (fst (tag (chr_at at_ (String.length pv)) v), v)) t)
      with (map (tag (chr_at at_ (String.length pv))) t).
    rewrite group_runs_runs_of.
    repeat split; try assumption.
    + now inversion Hok.
    + intros v Hv; now right.
    + right. split; [apply Hok'; now left|exact Ex].
    + intros s. rewrite res_cons_internal; [now rewrite Ex|].
      intros v Hv C. specialize (Hlt' v Hv). rewrite C, slt_irrefl in Hlt'. discriminate.
  - (* no value has the prefix as key *)
    assert (Hlong : forall v, In v (x :: t) ->
              exists r, kof at_ v = (pv ++ String (chr_at at_ (String.length pv) v) r)%string).
    { assert (Hx : exists r, kof at_ x =
                     (pv ++ String (chr_at at_ (String.length pv) x) r)%string).
      { apply long_key; [apply Hpre; now left|lia]. }
      intros v [<-|Hv]; [exact Hx|].
      apply long_key; [apply Hpre; now right|].
      intros C. destruct (pre_cases _ _ (Hpre v (or_intror Hv))) as [E|(c & r & E)].
      - specialize (Hlt' v Hv). destruct Hx as [r Er].
        rewrite E in Hlt'.
        assert (Hle : String.ltb (kof at_ x) pv = false).
        { apply pre_le. apply Hpre. now left. }
        congruence.
      - rewrite E, length_append in C. cbn in C. lia. }
    exists pv, VUndefined, (x :: t). cbn [tag fst is_undefined].
    rewrite (map_ext_in _ (fun v => fst (tag (chr_at at_ (String.length pv)) v))).
    2:{ intros v Hv. destruct (Hlong v (or_intror Hv)) as [r Er].
        destruct (Z.eqb_spec (Z.of_nat (String.length (kof at_ v)))
                    (Z.of_nat (String.length pv))) as [C|C]; [|reflexivity].
        rewrite Er, length_append in C. cbn in C. lia. }
    change (combine
              (VString (String (chr_at at_ (String.length pv) x) "")
               :: map (fun v => fst (tag (chr_at at_ (String.length pv)) v)) t) (x :: t))
      with (combine (map (fun v => fst (tag (chr_at at_ (String.length pv)) v)) (x :: t))
              (x :: t)).
    rewrite (combine_map (fun v => fst (tag (chr_at at_ (String.length pv)) v)) (x :: t)).
    change (map (fun v => (fst (tag (chr_at at_ (String.length pv)) v), v)) (x :: t))
      with (map (tag (chr_at at_ (String.length pv))) (x :: t)).
    rewrite group_runs_runs_of.
    repeat split; try assumption.
    + intros v Hv; exact Hv.
    + now left.
    + intros s. destruct (String.eqb s pv) eqn:Es; [|reflexivity].
      apply String.eqb_eq in Es. apply res_absent. rewrite Es.
      intros v Hv C. destruct (Hlong v Hv) as [r Er]. rewrite C in Er.
      symmetry in Er. exact (append_cons_neq _ _ _ Er).
Qed.

Lemma explode_nil fuel p :
  (len (@nil value) <=? binSize o) = false ->
  explode o (S fuel) (Node (KString p) None (VArray []) false)
  = Ret (Node (KString "") (Some arr_empty) VUndefined false).
Proof.
  intros L. cbn [explode values as_array bind sortValues dirty]. rewrite L. reflexivity.
Qed.

Lemma build_all fuel : build_ok at_ bs fuel.
Proof.
  induction fuel as [|fuel IH]; intros p l n' Hs Hok Hp H; [discriminate|].
  destruct (len l <=? binSize o) eqn:L.
  { cbn [explode values as_array bind] in H. fold o in H. rewrite L in H.
    inv_Ret H. split; [|split].
    - constructor; auto.
    - intros s; constructor.
    - intros _. exists p; split; [reflexivity|apply is_pre_refl]. }
  fold o in H.
  destruct l as [|x t].
  { rewrite (explode_nil _ _ L) in H. inv_Ret H. split; [|split].
    - constructor; [now left|constructor].
    - intros s. change (res at_ [] s) with VUndefined.
      destruct s as [|c r].
      + apply lk_here.
      + apply (lk_none at_ ""%string arr_empty VUndefined false c r). reflexivity.
    - intros C; now contradiction C. }
  destruct (explode_step fuel p x t Hs Hok L)
    as (pv & internal & lr & Hpre & Hgr & Hslr & Hoklr & Hsub & Hlong & Hiv & Hres & Eq).
  rewrite Eq in H. inv_bind H. injection H as <-.
  destruct (build_branch fuel pv internal lr a IH Hslr Hoklr Hlong Hiv E) as [Hwf Hlk].
  split; [exact Hwf|split].
  - intros s. rewrite Hres. apply Hlk.
  - intros _. exists pv. split; [reflexivity|].
    apply Hgr. intros v Hv. exact (proj1 (Forall_forall _ _) Hp v Hv).
Qed.

(** ** [_explode] on any well-formed bin, and [add] *)

Lemma explode_spec fuel p l d n' :
  Forall (okv at_) l -> Forall (fun v => is_pre p (kof at_ v)) l ->
  (d = false -> ssorted at_ l) ->
  explode o fuel (Node (KString p) None (VArray l) d) = Ret n' ->
  wf at_ n' /\ (forall s, lookup at_ n' s (res at_ l s)) /\
  (l <> [] -> exists p', skip n' = KString p' /\ is_pre p p').
Proof.
  intros Hok Hp Hd H.
  destruct fuel as [|fuel]; [discriminate|].
  destruct d.
  2:{ exact (build_all (S fuel) p l n' (Hd eq_refl) Hok Hp H). }
  cbn [explode values as_array bind] in H.
  match type of H with (if ?c then _ else _) = _ => destruct c eqn:L end.
  { inv_Ret H. split; [|split].
    - constructor; auto.
    - intros s; constructor.
    - intros _. exists p; split; [reflexivity|apply is_pre_refl]. }
  inv_bind H.
  destruct (sortValues_spec _ _ _ _ Hok Hd E)
    as (l' & -> & Hs' & Hok' & Hin & Hlast & Hne & Hlen).
  assert (Hp' : Forall (fun v => is_pre p (kof at_ v)) l').
  { rewrite Forall_forall in *. auto. }
  assert (E' : explode o (S fuel) (Node (KString p) None (VArray l') false) = Ret n').
  { cbn [explode values as_array bind sortValues dirty].
    cbn [values as_array bind dirty] in H.
    match type of H with (if ?c then _ else _) = _ => destruct c eqn:L' end; exact H. }
  destruct (build_all (S fuel) p l' n' Hs' Hok' Hp' E') as (Hwf & Hlk & Hsk).
  split; [exact Hwf|split].
  - intros s. unfold res. rewrite <- Hlast. apply Hlk.
  - intros Hl. apply Hsk. auto.
Qed.

Lemma ssorted_snoc l v :
  ssorted at_ l ->
  (l <> [] -> String.ltb (kof at_ (List.last l VUndefined)) (kof at_ v) = true) ->
  ssorted at_ (l ++ [v]).
Proof.
  intros Hs Hl. induction l as [|x t IH].
  - repeat constructor.
  - inversion Hs as [|? ? Hst Hall]; subst. cbn [app]. constructor.
    + apply IH; [exact Hst|]. intros Hne. specialize (Hl ltac:(discriminate)).
      destruct t; [congruence|exact Hl].
    + apply Forall_app. split; [exact Hall|]. constructor; [|constructor].
      specialize (Hl ltac:(discriminate)).
      destruct (ssorted_last _ Hs x (or_introl eq_refl)) as [E|E].
      * rewrite <- E in Hl. exact Hl.
      * exact (slt_trans _ _ _ E Hl).
Qed.

Lemma prefix_lcp p k :
  is_pre (substring 0 (Z.to_nat (string_match k p)) p) p /\
  is_pre (substring 0 (Z.to_nat (string_match k p)) p) k /\
  (forall x, is_pre x p -> is_pre x k ->
             is_pre x (substring 0 (Z.to_nat (string_match k p)) p)).
Proof.
  rewrite (string_match_sym k p).
  destruct (lcp_is_pre p k). split; [assumption|split; [assumption|]].
  intros x Hx Hk. now apply lcp_greatest.
Qed.

Lemma substring_full p : substring 0 (String.length p) p = p.
Proof. induction p as [|c p IH]; cbn; [reflexivity|]. now rewrite IH. Qed.

Lemma insert_spec p l d v this' :
  okv at_ v -> Forall (okv at_) l -> Forall (fun v => is_pre p (kof at_ v)) l ->
  (d = false -> ssorted at_ l) ->
  insert o (KString (kof at_ v)) v (Node (KString p) None (VArray l) d) = Ret this' ->
  exists d',
    this' = Node (KString (substring 0 (Z.to_nat (string_match (kof at_ v) p)) p))
              None (VArray (l ++ [v])) d' /\
    (d' = false -> ssorted at_ (l ++ [v])).
Proof.
  intros Hv Hok Hp Hd H. unfold insert in H.
  cbn [skip values edges dirty] in H. rewrite match_key in H.
  cbn [bind key_length as_array] in H.
  assert (Esk : (if string_match (kof at_ v) p =? Z.of_nat (String.length p)
                 then Ret (KString p)
                 else opt_prefix o (KString p) (string_match (kof at_ v) p))
                = Ret (KString (substring 0 (Z.to_nat (string_match (kof at_ v) p)) p))).
  { destruct (Z.eqb_spec (string_match (kof at_ v) p) (Z.of_nat (String.length p))) as [E|E].
    - rewrite E, Nat2Z.id, substring_full. reflexivity.
    - reflexivity. }
  rewrite Esk in H. cbn [bind] in H.
  destruct (Z.eqb_spec (len l) 0) as [E0|E0].
  - cbn [bind] in H. inv_Ret H. exists d. split; [reflexivity|].
    destruct l; [|unfold len in E0; cbn in E0; lia].
    intros _. repeat constructor.
  - assert (Hne : l <> []) by (intros ->; apply E0; reflexivity).
    assert (Hlast : okv at_ (List.last l VUndefined)).
    { rewrite Forall_forall in Hok. apply Hok. now apply last_In. }
    rewrite (comparator_okv _ _ Hlast Hv) in H. cbn [bind] in H.
    rewrite c3_ge0 in H. inv_Ret H.
    eexists. split; [reflexivity|].
    destruct (String.ltb (kof at_ (List.last l VUndefined)) (kof at_ v)) eqn:Elt;
      cbn [negb]; [|discriminate].
    intros ->. apply ssorted_snoc; auto.
Qed.

Lemma new_Node_nil fuel :
  exists n, new_Node o (S fuel) [] = Ret n /\ dirty n = false.
Proof.
  unfold new_Node. cbn [commonPrefix bind explode values as_array sortValues dirty].
  destruct (len (@nil value) <=? binSize o); eexists; split; reflexivity.
Qed.

Lemma lookup_dirty p es iv d d' s r :
  lookup at_ (Node (KString p) (Some es) iv d) s r ->
  lookup at_ (Node (KString p) (Some es) iv d') s r.
Proof.
  intros H.
  inversion H as [ | ? ? ? ? ? Hn | | ? ? ? ? c r0 Ha | ? ? ? ? c r0 ch ? Ha Hl]; subst.
  - now apply lk_off.
  - apply lk_here.
  - now apply lk_none.
  - eapply lk_child; eassumption.
Qed.

Lemma res_snoc l v s :
  res at_ (l ++ [v]) s = if String.eqb (kof at_ v) s then v else res at_ l s.
Proof.
  unfold res. rewrite lastk_app. cbn [lastk].
  destruct (String.eqb (kof at_ v) s); reflexivity.
Qed.

Lemma pre_char p c r : is_pre (p ++ String c "") (p ++ String c r).
Proof. exists r. now rewrite append_assoc. Qed.

Lemma prefix_key p n :
  opt_prefix o (KString p) n = Ret (KString (substring 0 (Z.to_nat n) p)).
Proof. reflexivity. Qed.

(** The converse of [lookup_branch_cases]. *)
Lemma lookup_branch_intro p es iv d s r :
  (~ is_pre p s -> r = VUndefined) ->
  (s = p -> r = iv) ->
  (forall c r0, s = (p ++ String c r0)%string ->
     match assoc (String c "") (aprops es) with
     | None => r = VUndefined
     | Some child => lookup at_ child s r
     end) ->
  lookup at_ (Node (KString p) (Some es) iv d) s r.
Proof.
  intros H1 H2 H3. destruct (key_cases p s) as [N|[E|(c & r0 & E)]].
  - rewrite (H1 N). now apply lk_off.
  - rewrite (H2 E), E. apply lk_here.
  - specialize (H3 c r0 E). subst s.
    destruct (assoc (String c "") (aprops es)) as [child|] eqn:Ea.
    + eapply lk_child; eassumption.
    + subst r. now apply lk_none.
Qed.

Lemma append_char_inj p c r c' r' :
  (p ++ String c r)%string = (p ++ String c' r')%string -> c = c' /\ r = r'.
Proof. intros H. apply append_inv_l in H. now injection H. Qed.

Lemma add_spec fuel : forall n k v n',
  wf at_ n -> okv at_ v -> kof at_ v = k ->
  add o fuel (KString k) v n = Ret n' ->
  wf at_ n' /\ lookup at_ n' k v /\
  (forall s r, s <> k -> lookup at_ n s r -> lookup at_ n' s r) /\
  (forall q, skip n = KString q ->
     exists q', skip n' = KString q' /\
                forall x, is_pre x q -> is_pre x k -> is_pre x q').
Proof.
  induction fuel as [|fuel IH]; intros n k v n' Hwf Hv Hk H; [discriminate|].
  destruct Hwf as [p l d Hok Hp Hd | p es iv d Hiv Hes].
  - (* a terminal node *)
    subst k. cbn [add edges] in H. inv_bind H.
    destruct (insert_spec _ _ _ _ _ Hv Hok Hp Hd E) as (d' & -> & Hd').
    destruct (prefix_lcp p (kof at_ v)) as (P1 & P2 & P3).
    apply explode_spec in H; [| | |exact Hd'].
    + destruct H as (Hwf' & Hlk & Hsk).
      destruct (Hsk ltac:(now destruct l)) as (p' & Esk & Hpp').
      split; [exact Hwf'|]. split; [|split].
      * specialize (Hlk (kof at_ v)). rewrite res_snoc, String.eqb_refl in Hlk. exact Hlk.
      * intros s r Hs Hl. apply lookup_term_inv in Hl. subst r.
        specialize (Hlk s). rewrite res_snoc in Hlk.
        destruct (String.eqb_spec (kof at_ v) s); [congruence|exact Hlk].
      * intros q [= <-]. exists p'. split; [exact Esk|].
        intros x Hx Hxk. eapply is_pre_trans; [apply P3; assumption|exact Hpp'].
    + apply Forall_app. split; [exact Hok|]. constructor; [exact Hv|constructor].
    + apply Forall_app. split.
      * rewrite Forall_forall in *. intros w Hw. eapply is_pre_trans; [exact P1|auto].
      * constructor; [exact P2|constructor].
  - (* a branching node *)
    cbn [add edges skip] in H. rewrite match_key in H. cbn [bind key_length] in H.
    destruct (Z.eqb_spec (string_match k p) (Z.of_nat (String.length p))) as [Em|Em].
    + pose proof (proj1 (match_full_iff _ _) Em) as Hpre.
      destruct (pre_cases _ _ Hpre) as [Ek|(c & r0 & Ek)].
      * (* the key is the skip: the value is the internal value *)
        rewrite Em in H. subst k. rewrite Ek in H. rewrite Z.eqb_refl in H.
        change (values (Node (KString p) (Some es) iv d)) with iv in H.
        rewrite assign_unique in H. cbn [bind dirty] in H. injection H as <-.
        split; [|split; [|split]].
        -- constructor; [right; split; assumption|exact Hes].
        -- rewrite Ek. apply lk_here.
        -- intros s r Hs Hl. rewrite Ek in Hs.
           destruct (lookup_branch_cases _ _ _ _ _ _ Hl) as (C1 & C2 & C3).
           apply lookup_branch_intro; [exact C1|congruence|exact C3].
        -- intros q [= <-]. exists p. split; [reflexivity|]. intros x Hx _. exact Hx.
      * (* the key goes on below the skip *)
        rewrite Em in H. subst k. rewrite Ek in H |- *.
        rewrite length_not_full, charAt_after in H. cbn [bind] in H.
        cbn [arr_get property_key bind values dirty] in H.
        destruct (assoc (String c "") (aprops es)) as [child|] eqn:Ea.
        -- inv_bind H. inv_bind H. apply arr_set_name in E0. injection H as <-.
           destruct (wf_child _ _ _ _ _ _ (wf_branch at_ p es iv d Hiv Hes) Ea)
             as (Hwc & ch & q & Ech & Esk & Hq).
           injection Ech as <-.
           destruct (IH _ _ _ _ Hwc Hv Ek E) as (Hwf' & Hlk & Hfr & Hsk).
           destruct (Hsk q Esk) as (q' & Esk' & Hq').
           split; [|split; [|split]].
           ++ constructor; [exact Hiv|]. rewrite E0.
              apply Forall_assoc_set_pair; [exact Hes|]. cbn [fst snd].
              split; [exact Hwf'|]. exists c, q'. split; [reflexivity|].
              split; [exact Esk'|]. apply Hq'; [exact Hq|apply pre_char].
           ++ eapply lk_child; [|exact Hlk]. rewrite E0. apply assoc_set_same.
           ++ intros s r Hs Hl.
              destruct (lookup_branch_cases _ _ _ _ _ _ Hl) as (C1 & C2 & C3).
              apply lookup_branch_intro; [exact C1|exact C2|].
              intros c' r' Es. specialize (C3 c' r' Es). rewrite E0.
              destruct (Ascii.eqb_spec c c') as [<-|Hc].
              ** rewrite assoc_set_same. rewrite Ea in C3. now apply Hfr.
              ** rewrite assoc_set_other; [exact C3|]. intros [= C]. contradiction.
           ++ intros q0 [= <-]. exists p. split; [reflexivity|]. intros x Hx _. exact Hx.
        -- unfold new_Node in H. cbn [commonPrefix] in H.
           rewrite (getKey_okv v Hv) in H. cbn [bind] in H.
           inv_bind H. inv_bind H. apply arr_set_name in E0. injection H as <-.
           assert (Hokv : Forall (okv at_) [v]) by (constructor; [exact Hv|constructor]).
           assert (Hpv : Forall (fun w => is_pre (kof at_ v) (kof at_ w)) [v]).
           { constructor; [apply is_pre_refl|constructor]. }
           destruct (explode_spec _ _ _ _ _ Hokv Hpv
                       (fun _ => ltac:(repeat constructor)) E)
             as (Hwf' & Hlk & Hsk).
           destruct (Hsk ltac:(discriminate)) as (q' & Esk' & Hq').
           split; [|split; [|split]].
           ++ constructor; [exact Hiv|]. rewrite E0.
              apply Forall_assoc_set_pair; [exact Hes|]. cbn [fst snd].
              split; [exact Hwf'|]. exists c, q'. split; [reflexivity|].
              split; [exact Esk'|]. eapply is_pre_trans; [|exact Hq'].
              rewrite Ek. apply pre_char.
           ++ eapply lk_child; [rewrite E0; apply assoc_set_same|].
              specialize (Hlk (kof at_ v)).
              change [v] with ([] ++ [v]) in Hlk.
              rewrite res_snoc, String.eqb_refl, Ek in Hlk. exact Hlk.
           ++ intros s r Hs Hl.
              destruct (lookup_branch_cases _ _ _ _ _ _ Hl) as (C1 & C2 & C3).
              apply lookup_branch_intro; [exact C1|exact C2|].
              intros c' r' Es. specialize (C3 c' r' Es). rewrite E0.
              destruct (Ascii.eqb_spec c c') as [<-|Hc].
              ** rewrite assoc_set_same. rewrite Ea in C3. subst r.
                 specialize (Hlk s). change [v] with ([] ++ [v]) in Hlk.
                 rewrite res_snoc in Hlk.
                 destruct (String.eqb_spec (kof at_ v) s) as [C|C]; [congruence|].
                 exact Hlk.
              ** rewrite assoc_set_other; [exact C3|]. intros [= C]. contradiction.
           ++ intros q0 [= <-]. exists p. split; [reflexivity|]. intros x Hx _. exact Hx.
    + (* the skip is split *)
      rewrite prefix_key in H. cbn [bind key_length] in H.
      destruct (prefix_lcp p k) as (P1 & P2 & P3).
      remember (substring 0 (Z.to_nat (string_match k p)) p) as q eqn:Eq. clear Eq.
      destruct (pre_cases _ _ P1) as [Ep|(cx & rx & Ep)].
      { exfalso. apply Em. apply match_full_iff. now rewrite Ep. }
      rewrite Ep in H at 1. rewrite charAt_after in H. cbn [bind] in H.
      destruct (new_Node_nil fuel) as (fresh & Ef & Edf). rewrite Ef in H.
      cbn [bind] in H. rewrite Edf in H.
      inv_bind H. apply arr_set_name in E. cbn [aprops arr_empty assoc_set] in E.
      cbn [edges values dirty] in H.
      assert (Hwn : wf at_ (Node (KString q) (Some a) VUndefined d)).
      { constructor; [now left|]. rewrite E. constructor; [|constructor]. cbn [fst snd].
        split; [constructor; assumption|].
        exists cx, p. split; [reflexivity|]. split; [reflexivity|].
        rewrite Ep. apply pre_char. }
      destruct (IH _ _ _ _ Hwn Hv Hk H) as (Hwf' & Hlk & Hfr & Hsk).
      split; [exact Hwf'|]. split; [exact Hlk|]. split.
      * intros s r Hs Hl. apply Hfr; [exact Hs|].
        destruct (lookup_branch_cases _ _ _ _ _ _ Hl) as (C1 & C2 & C3).
        assert (Hoff : ~ is_pre q s -> ~ is_pre p s).
        { intros N C. apply N. exact (is_pre_trans _ _ _ P1 C). }
        apply lookup_branch_intro.
        -- intros N. apply C1. auto.
        -- intros ->. apply C1. intros C. apply pre_length in C.
           rewrite Ep, length_append in C. cbn in C. lia.
        -- intros c' r' Es. rewrite E. cbn [assoc].
           destruct (String.eqb_spec (String cx "") (String c' "")) as [Ec|Ec].
           ++ eapply lookup_dirty. exact Hl.
           ++ apply C1. intros (r1 & C). apply Ec. rewrite C, Ep, append_assoc in Es.
              apply append_inv_l in Es. cbn in Es. injection Es as -> _. reflexivity.
      * intros q0 [= <-]. destruct (Hsk q eq_refl) as (q' & Esk' & Hq').
        exists q'. split; [exact Esk'|]. intros x Hx Hxk. apply Hq'; [|exact Hxk].
        now apply P3.
Qed.

(** ** The calls return, with enough fuel *)

Lemma sort_insert_returns x sorted :
  okv at_ x -> Forall (okv at_) sorted -> exists l', sort_insert o x sorted = Ret l'.
Proof.
  intros Hx. induction sorted as [|y t IH]; intros Hs; cbn [sort_insert]; [eauto|].
  inversion Hs as [|? ? Hy Ht]; subst. rewrite (comparator_okv y x Hy Hx). cbn [bind].
  destruct (cmp_sort_gt0 _); [eauto|].
  destruct (IH Ht) as [t' ->]. cbn [bind]. eauto.
Qed.

Lemma sort_into_returns todo : forall sorted,
  Forall (okv at_) todo -> Forall (okv at_) sorted -> nsorted at_ sorted ->
  exists l', sort_into o sorted todo = Ret l'.
Proof.
  induction todo as [|x t IH]; intros sorted Ht Hs Hn; cbn [sort_into]; [eauto|].
  inversion Ht as [|? ? Hx Ht']; subst.
  destruct (sort_insert_returns x sorted Hx Hs) as [s E]. rewrite E. cbn [bind].
  destruct (sort_insert_spec _ _ _ Hx Hs Hn E) as (Hn' & Hok' & _). now apply IH.
Qed.

Lemma collapse_returns rest : forall cur,
  Forall (okv at_) (cur :: rest) -> exists r, collapse o cur rest = Ret r.
Proof.
  induction rest as [|x t IH]; intros cur H; cbn [collapse]; [eauto|].
  inversion H as [|? ? Hc Hr]; subst. inversion Hr as [|? ? Hx Ht]; subst.
  rewrite (comparator_okv cur x Hc Hx). cbn [bind].
  destruct (cmp_is0 _).
  - rewrite assign_unique. cbn [bind]. apply IH. now constructor.
  - destruct (IH x Hr) as [r ->]. cbn [bind]. eauto.
Qed.

Lemma sortValues_returns p l d :
  Forall (okv at_) l -> exists this', sortValues o (Node p None (VArray l) d) = Ret this'.
Proof.
  intros Hok. unfold sortValues. cbn [dirty values as_array bind skip edges].
  destruct d; [|eauto]. unfold array_sort.
  destruct (sort_into_returns l [] Hok (Forall_nil _) (SSorted_nil _)) as [l1 E].
  rewrite E. cbn [bind].
  destruct (sort_into_spec _ _ _ Hok (Forall_nil _) (SSorted_nil _) E) as (_ & Hok1 & _).
  destruct l1 as [|x [|y t]]; cbn [bind]; [eauto|eauto|].
  destruct (collapse_returns (y :: t) x Hok1) as [r ->]. cbn [bind]. eauto.
Qed.

Lemma populate_returns mk : forall (gs : list (ascii * list value)) es0,
  (forall g, In g gs -> exists n, mk (snd g) = Ret n) ->
  exists es, populate mk (map tag_group gs) es0 = Ret es.
Proof.
  induction gs as [|[c vs] t IH]; intros es0 H; cbn [map populate tag_group fst snd]; [eauto|].
  destruct (H (c, vs) (or_introl eq_refl)) as [n E]. cbn [snd] in E. rewrite E.
  cbn [bind arr_set property_key]. apply IH. intros g Hg. apply H. now right.
Qed.

(** The runs of a strictly sorted list whose keys go on below [pv]. *)
Lemma group_facts pv lr c vs :
  ssorted at_ lr -> Forall (okv at_) lr ->
  (forall v, In v lr ->
     exists r, kof at_ v = (pv ++ String (chr_at at_ (String.length pv) v) r)%string) ->
  In (c, vs) (runs_of (chr_at at_ (String.length pv)) lr) ->
  vs <> [] /\ ssorted at_ vs /\ Forall (okv at_) vs /\
  (forall v, In v vs -> In v lr /\ is_pre (pv ++ String c "") (kof at_ v)).
Proof.
  intros Hs Hok Hlong Hin.
  destruct (runs_of_facts pv lr Hs Hok Hlong) as (Hcat & Huni & Hnd).
  rewrite Forall_forall in Huni.
  destruct (Huni _ Hin) as [Hne Hch]. cbn [fst snd] in *.
  assert (Hsub : forall v, In v vs -> In v lr).
  { intros v Hv. rewrite <- Hcat. apply in_concat. exists vs. split; [|exact Hv].
    change vs with (snd (c, vs)). now apply in_map. }
  split; [exact Hne|]. split.
  - apply (ssorted_concat (map snd (runs_of (chr_at at_ (String.length pv)) lr)));
      [now rewrite Hcat|].
    change vs with (snd (c, vs)). now apply in_map.
  - split.
    + rewrite Forall_forall in Hok |- *. intros v Hv. apply Hok. now apply Hsub.
    + intros v Hv. split; [now apply Hsub|].
      destruct (Hlong v (Hsub v Hv)) as (r & E). rewrite E, (Hch v Hv). apply pre_char.
Qed.

Lemma explode_returns_clean M : forall fuel p l,
  ssorted at_ l -> Forall (okv at_) l ->
  Forall (fun v => is_pre p (kof at_ v)) l ->
  Forall (fun v => (String.length (kof at_ v) <= M)%nat) l ->
  (1 <= fuel)%nat -> (M < fuel + String.length p)%nat ->
  exists n', explode o fuel (Node (KString p) None (VArray l) false) = Ret n'.
Proof.
  induction fuel as [|fuel IH]; intros p l Hs Hok Hp HM H1 HM'; [lia|].
  destruct (len l <=? binSize o) eqn:L.
  { cbn [explode values as_array bind]. rewrite L. eauto. }
  destruct l as [|x t]; [rewrite (explode_nil _ _ L); eauto|].
  destruct (explode_step fuel p x t Hs Hok L)
    as (pv & internal & lr & Hpre & Hgr & Hslr & Hoklr & Hsub & Hlong & Hiv & Hres & Eq).
  rewrite Eq.
  destruct (populate_returns (child_of o fuel)
              (runs_of (chr_at at_ (String.length pv)) lr) arr_empty) as [es E].
  2:{ rewrite E. cbn [bind]. eauto. }
  intros [c vs] Hg. cbn [snd].
  destruct (group_facts pv lr c vs Hslr Hoklr Hlong Hg) as (Hne & Hsv & Hokv & Hvs).
  destruct (commonPrefix_spec vs Hsv Hokv Hne) as (pvv & Hcp & Hall & Hgreat).
  unfold child_of. rewrite Hcp. cbn [bind].
  assert (Hlen : (String.length p + 1 <= String.length pvv)%nat).
  { assert (Hppv : is_pre p pv).
    { apply Hgr. intros v Hv. exact (proj1 (Forall_forall _ _) Hp v Hv). }
    assert (Hq : is_pre (pv ++ String c "") pvv).
    { apply Hgreat. intros v Hv. now apply Hvs. }
    apply pre_length in Hppv, Hq. rewrite length_append in Hq. cbn in Hq. lia. }
  assert (HMv : Forall (fun v => (String.length (kof at_ v) <= M)%nat) vs).
  { rewrite Forall_forall in HM |- *. intros v Hv. apply HM, Hsub. now apply Hvs. }
  assert (HpM : (String.length pvv <= M)%nat).
  { destruct vs as [|v vs']; [congruence|].
    pose proof (pre_length _ _ (Hall v (or_introl eq_refl))).
    inversion HMv; subst. lia. }
  apply IH; auto; try lia.
  rewrite Forall_forall. exact Hall.
Qed.

Lemma explode_sorted_eq fuel k l l' d :
  (len l <=? binSize o) = false ->
  sortValues o (Node k None (VArray l) d) = Ret (Node k None (VArray l') false) ->
  explode o (S fuel) (Node k None (VArray l) d)
  = explode o (S fuel) (Node k None (VArray l') false).
Proof.
  intros L E. cbn [explode values as_array bind]. rewrite L, E.
  cbn [bind values as_array sortValues dirty].
  destruct (len l' <=? binSize o); reflexivity.
Qed.

Lemma explode_returns M fuel p l d :
  Forall (okv at_) l -> Forall (fun v => is_pre p (kof at_ v)) l ->
  (d = false -> ssorted at_ l) ->
  Forall (fun v => (String.length (kof at_ v) <= M)%nat) l ->
  (1 <= fuel)%nat -> (M < fuel + String.length p)%nat ->
  exists n', explode o fuel (Node (KString p) None (VArray l) d) = Ret n'.
Proof.
  intros Hok Hp Hd HM H1 HM'. destruct fuel as [|fuel]; [lia|].
  destruct (len l <=? binSize o) eqn:L.
  { cbn [explode values as_array bind]. rewrite L. eauto. }
  destruct (sortValues_returns (KString p) l d Hok) as [this' E].
  destruct (sortValues_spec _ _ _ _ Hok Hd E)
    as (l' & -> & Hs' & Hok' & Hin & _).
  rewrite (explode_sorted_eq fuel _ _ _ _ L E).
  rewrite Forall_forall in Hp, HM.
  apply (explode_returns_clean M); auto; rewrite Forall_forall; auto.
Qed.

Lemma bounds_eq_loop_returns a s :
  Forall (okv at_) a ->
  forall fuel lo hi,
  0 <= lo -> hi < len a -> Z.max 0 (hi - lo + 1) < Z.of_nat fuel ->
  exists i, bounds_eq_loop o fuel a (needle at_ s) lo hi = Ret i.
Proof.
  intros Hok. induction fuel as [|fuel IH]; intros lo hi Hlo Hhi Hf; [lia|].
  cbn [bounds_eq_loop].
  destruct (Z.leb_spec lo hi) as [L|L]; [|eauto].
  set (m := Z.shiftr (lo + hi) 1) in *.
  assert (Hm : lo <= m <= hi).
  { unfold m. rewrite Z.shiftr_div_pow2 by lia. change (2^1) with 2.
    pose proof (Z.div_mod (lo + hi) 2 ltac:(lia)).
    pose proof (Z.mod_pos_bound (lo + hi) 2 ltac:(lia)). lia. }
  unfold len in *.
  assert (Hmn : (Z.to_nat m < Datatypes.length a)%nat) by lia.
  pose proof (okv_nth a _ Hok Hmn) as Hokm.
  destruct (needle_okv s) as [Hokn Hkn].
  rewrite (comparator_okv _ _ Hokm Hokn). cbn [bind].
  destruct (cmp_is0 _); [eauto|].
  clearbody m.
  destruct (cmp_le0 _); apply IH; lia.
Qed.

Lemma search_returns p l d s :
  Forall (okv at_) l ->
  exists r this', search o (KString s) (Node p None (VArray l) d) = Ret (r, this').
Proof.
  intros Hok. unfold search.
  destruct (sortValues_returns p l d Hok) as [this' E]. rewrite E. cbn [bind].
  assert (exists l', this' = Node p None (VArray l') false /\ Forall (okv at_) l')
    as (l' & -> & Hok').
  { unfold sortValues in E. cbn [dirty values as_array bind skip edges] in E.
    destruct d.
    - inv_bind E. inv_bind E. inv_Ret E. exists a0. split; [reflexivity|].
      unfold array_sort in E0.
      destruct (sort_into_spec _ _ _ Hok (Forall_nil _) (SSorted_nil _) E0)
        as (Hn & Hok1 & _).
      destruct a as [|x [|y t]]; try (inv_Ret E1; assumption).
      destruct (collapse_spec _ _ _ Hok1 Hn E1) as (_ & H & _). exact H.
    - inv_Ret E. eauto. }
  rewrite setKey_needle. cbn [bind values as_array].
  destruct (bounds_eq_loop_returns l' s Hok' (S (Datatypes.length l')) 0 (len l' - 1))
    as [i Ei]; try (unfold len; lia).
  unfold bounds_eq. rewrite Ei. cbn [bind]. eauto.
Qed.

Lemma get_returns s : forall fuel n p,
  wf at_ n -> skip n = KString p ->
  (1 <= fuel)%nat -> (String.length s + 2 <= fuel + String.length p)%nat ->
  exists r n', get o fuel (KString s) n = Ret (r, n').
Proof.
  unfold get. induction fuel as [|fuel IH]; intros n p Hwf Hsk H1 Hf; [lia|].
  cbn [find].
  inversion Hwf as [p0 l d Hok Hpre Hsort|p0 es iv d Hiv Hes]; subst;
    cbn [skip edges values dirty] in *; injection Hsk as ->;
    rewrite match_key; cbn [bind key_length].
  - destruct (string_match s p =? Z.of_nat (String.length p)); cbn [negb]; [|eauto].
    now apply search_returns.
  - destruct (key_cases p s) as [Hn|[->|(c & r0 & ->)]].
    + assert (Hne : (string_match s p =? Z.of_nat (String.length p)) = false).
      { apply Z.eqb_neq. intros E. apply Hn. now apply match_full_iff. }
      rewrite Hne. cbn [negb]. eauto.
    + rewrite string_match_refl, !Z.eqb_refl. cbn [negb]. eauto.
    + rewrite match_pre by (eexists; reflexivity).
      rewrite Z.eqb_refl. cbn [negb].
      rewrite length_not_full, charAt_after. cbn [bind arr_get property_key].
      destruct (assoc (String c "") (aprops es)) as [child|] eqn:Ha; [|eauto].
      destruct (wf_child _ _ _ _ _ _ Hwf Ha) as (Hwc & ch & q & Hname & Hskip & Hq).
      apply pre_length in Hq. rewrite !length_append in *. cbn [String.length] in *.
      destruct (IH child q Hwc Hskip) as (r & c' & E); try lia.
      rewrite E. cbn [bind arr_set property_key]. eauto.
Qed.

(** [lookup] is a function on well-formed trees. *)
Lemma lookup_fun n s r :
  lookup at_ n s r -> forall r', wf at_ n -> lookup at_ n s r' -> r' = r.
Proof.
  induction 1 as [p l d s|p es iv d s Hn|p es iv d|p es iv d c r0 Ha
                 |p es iv d c r0 child v Ha Hl IH]; intros r' Hwf H'.
  - now apply lookup_term_inv in H'.
  - apply lookup_branch_cases in H' as (C1 & _). auto.
  - apply lookup_branch_cases in H' as (_ & C2 & _). auto.
  - apply lookup_branch_cases in H' as (_ & _ & C3).
    specialize (C3 c r0 eq_refl). now rewrite Ha in C3.
  - apply lookup_branch_cases in H' as (_ & _ & C3).
    specialize (C3 c r0 eq_refl). rewrite Ha in C3.
    apply IH; [|exact C3]. eapply wf_child; eassumption.
Qed.

(** A key a well-formed tree answers has the skip as a prefix. *)
Lemma lookup_defined_pre n s r :
  wf at_ n -> lookup at_ n s r -> r <> VUndefined ->
  exists q, skip n = KString q /\ is_pre q s.
Proof.
  intros Hwf Hl Hr. destruct Hwf as [p l d Hok Hp Hd | p es iv d Hiv Hes].
  - apply lookup_term_inv in Hl. exists p. split; [reflexivity|].
    unfold res in Hl. destruct (lastk at_ s l) as [v|] eqn:E; [|congruence].
    apply lastk_In in E as [Hin <-]. rewrite Forall_forall in Hp. auto.
  - exists p. split; [reflexivity|].
    destruct (key_cases p s) as [Hn|[->|(c & r0 & ->)]].
    + apply lookup_branch_cases in Hl as (C1 & _). now specialize (C1 Hn).
    + apply is_pre_refl.
    + eexists; reflexivity.
Qed.

Lemma insert_returns p l d v :
  okv at_ v -> Forall (okv at_) l ->
  exists this', insert o (KString (kof at_ v)) v (Node (KString p) None (VArray l) d)
                = Ret this'.
Proof.
  intros Hv Hok. unfold insert.
  cbn [skip values edges dirty]. rewrite match_key.
  cbn [bind key_length as_array].
  destruct (string_match (kof at_ v) p =? Z.of_nat (String.length p));
    [|rewrite prefix_key]; cbn [bind];
    (destruct (Z.eqb_spec (len l) 0) as [E0|E0]; cbn [bind]; [eauto|];
     assert (Hne : l <> []) by (intros ->; apply E0; reflexivity);
     assert (Hlast : okv at_ (List.last l VUndefined))
       by (rewrite Forall_forall in Hok; apply Hok; now apply last_In);
     rewrite (comparator_okv _ _ Hlast Hv); cbn [bind]; eauto).
Qed.

Lemma keys_le_bin M p l d :
  Forall (okv at_) l -> keys_le at_ M (Node (KString p) None (VArray l) d) ->
  Forall (fun v => (String.length (kof at_ v) <= M)%nat) l.
Proof.
  intros Hok H. rewrite Forall_forall. intros v Hv.
  apply (H (kof at_ v) (res at_ l (kof at_ v))); [constructor|].
  unfold res. destruct (lastk at_ (kof at_ v) l) as [w|] eqn:E.
  - apply lastk_In in E as [Hin _]. apply okv_defined.
    rewrite Forall_forall in Hok. auto.
  - exfalso. exact (proj1 (lastk_None _ _) E v Hv eq_refl).
Qed.

Lemma keys_le_child M p es iv d c child :
  wf at_ (Node (KString p) (Some es) iv d) ->
  assoc (String c "") (aprops es) = Some child ->
  keys_le at_ M (Node (KString p) (Some es) iv d) -> keys_le at_ M child.
Proof.
  intros Hwf Ha H s r Hl Hr.
  destruct (wf_child _ _ _ _ _ _ Hwf Ha) as (Hwc & ch & q & Ech & Esk & Hq).
  injection Ech as <-.
  destruct (lookup_defined_pre child s r Hwc Hl Hr) as (q' & Esk' & Hpre).
  rewrite Esk in Esk'. injection Esk' as <-.
  destruct (is_pre_trans _ _ _ Hq Hpre) as (r1 & ->).
  rewrite append_assoc in *. cbn [append] in *.
  apply (H _ r); [|exact Hr]. eapply lk_child; eassumption.
Qed.

(** [add] at a branching node whose skip the key has, when the key is the
    skip or no edge has its next character. *)
Lemma add_leaf_returns M fuel p es iv d k v :
  okv at_ v -> kof at_ v = k -> (String.length k <= M)%nat ->
  (1 <= fuel)%nat -> (M < fuel + String.length k)%nat ->
  is_pre p k ->
  (forall c r0, k = (p ++ String c r0)%string ->
                assoc (String c "") (aprops es) = None) ->
  exists n', add o fuel (KString k) v (Node (KString p) (Some es) iv d) = Ret n'.
Proof.
  intros Hv Hk HkM H1 HM Hpre Hnone. destruct fuel as [|fuel]; [lia|].
  cbn [add edges skip]. rewrite match_key. cbn [bind key_length].
  rewrite (match_pre _ _ Hpre), Z.eqb_refl.
  destruct (pre_cases _ _ Hpre) as [Ek|(c & r0 & Ek)].
  - rewrite Ek, Z.eqb_refl. cbn [values]. rewrite assign_unique. cbn [bind]. eauto.
  - rewrite Ek. rewrite length_not_full, charAt_after.
    cbn [bind arr_get property_key]. rewrite (Hnone c r0 Ek).
    unfold new_Node. cbn [commonPrefix]. rewrite (getKey_okv v Hv). cbn [bind].
    destruct (explode_returns M (S fuel) (kof at_ v) [v] false) as [n' E]; try lia.
    + constructor; [exact Hv|constructor].
    + constructor; [apply is_pre_refl|constructor].
    + intros _. repeat constructor.
    + constructor; [rewrite Hk; exact HkM|constructor].
    + rewrite Hk. lia.
    + rewrite E. cbn [bind arr_set property_key]. eauto.
Qed.

Lemma add_returns M : forall fuel n k v p,
  wf at_ n -> okv at_ v -> kof at_ v = k -> skip n = KString p ->
  keys_le at_ M n -> (String.length k <= M)%nat ->
  Z.of_nat M + 1 < Z.of_nat fuel + string_match k p ->
  exists n', add o fuel (KString k) v n = Ret n'.
Proof.
  induction fuel as [|fuel IH]; intros n k v p Hwf Hv Hk Hsk HM HkM Hf.
  { pose proof (string_match_bounds k p). lia. }
  pose proof (string_match_bounds k p) as Hb.
  destruct Hwf as [p0 l d Hok Hp Hd | p0 es iv d Hiv Hes];
    cbn [skip] in Hsk; injection Hsk as ->.
  - (* a terminal node *)
    subst k. cbn [add edges].
    destruct (insert_returns p l d v Hv Hok) as [this' E]. rewrite E. cbn [bind].
    destruct (insert_spec _ _ _ _ _ Hv Hok Hp Hd E) as (d' & -> & Hd').
    destruct (prefix_lcp p (kof at_ v)) as (P1 & P2 & P3).
    apply (explode_returns M); try lia.
    + apply Forall_app. split; [exact Hok|]. constructor; [exact Hv|constructor].
    + apply Forall_app. split.
      * rewrite Forall_forall in *. intros w Hw. eapply is_pre_trans; [exact P1|auto].
      * constructor; [exact P2|constructor].
    + exact Hd'.
    + apply Forall_app. split; [eapply keys_le_bin; eassumption|].
      constructor; [exact HkM|constructor].
    + rewrite substring_length by lia. lia.
  - (* a branching node *)
    destruct (Z.eqb_spec (string_match k p) (Z.of_nat (String.length p))) as [Em|Em].
    + pose proof (proj1 (match_full_iff _ _) Em) as Hpre.
      destruct (pre_cases _ _ Hpre) as [Ek|(c & r0 & Ek)].
      * apply (add_leaf_returns M); auto; try lia.
        intros c r0 E. rewrite Ek in E. symmetry in E.
        now apply append_cons_neq in E.
      * destruct (assoc (String c "") (aprops es)) as [child|] eqn:Ea.
        2:{ apply (add_leaf_returns M); auto; try lia.
            intros c' r' E. rewrite Ek in E. apply append_char_inj in E as [<- _].
            exact Ea. }
        cbn [add edges skip]. rewrite match_key. cbn [bind key_length].
        rewrite Em, Z.eqb_refl. rewrite Ek.
        rewrite length_not_full, charAt_after. rewrite <- Ek.
        cbn [bind arr_get property_key]. rewrite Ea.
        pose proof (wf_branch at_ p es iv d Hiv Hes) as Hwf.
        destruct (wf_child _ _ _ _ _ _ Hwf Ea) as (Hwc & ch & q & Ech & Esk & Hq).
        injection Ech as <-.
        destruct (IH child k v q Hwc Hv Hk Esk) as [child' E]; auto.
        { eapply keys_le_child; eassumption. }
        { destruct Hq as (rq & ->). rewrite Ek.
          replace (p ++ String c r0)%string with ((p ++ String c "") ++ r0)%string
            by (now rewrite append_assoc).
          rewrite string_match_append, length_append. cbn [String.length].
          pose proof (string_match_bounds r0 rq). lia. }
        rewrite E. cbn [bind arr_set property_key]. eauto.
    + (* the skip is split *)
      cbn [add edges skip]. rewrite match_key. cbn [bind key_length].
      destruct (Z.eqb_spec (string_match k p) (Z.of_nat (String.length p))) as [C|_];
        [contradiction|].
      rewrite prefix_key. cbn [bind key_length].
      destruct (prefix_lcp p k) as (P1 & P2 & P3).
      assert (Hlq : String.length (substring 0 (Z.to_nat (string_match k p)) p)
                    = Z.to_nat (string_match k p)) by (apply substring_length; lia).
      remember (substring 0 (Z.to_nat (string_match k p)) p) as q eqn:Eq.
      assert (Hdiff : forall c r0 cx rx, k = (q ++ String c r0)%string ->
                p = (q ++ String cx rx)%string -> c <> cx).
      { intros c r0 cx rx E1 E2 ->.
        assert (Hc : is_pre (q ++ String cx "") q).
        { apply P3; [rewrite E2|rewrite E1]; apply pre_char. }
        apply pre_length in Hc. rewrite length_append in Hc. cbn in Hc. lia. }
      clear Eq.
      destruct (pre_cases _ _ P1) as [Ep|(cx & rx & Ep)].
      { exfalso. apply Em. apply match_full_iff. now rewrite Ep. }
      rewrite Ep. rewrite charAt_after. cbn [bind].
      destruct (new_Node_nil fuel) as (fresh & Ef & Edf). rewrite Ef.
      cbn [bind arr_set property_key edges values dirty].
      apply (add_leaf_returns M); auto; try lia.
      intros c r0 E. cbn [aprops arr_empty assoc_set assoc].
      destruct (String.eqb_spec (String cx "") (String c "")) as [Ec|Ec]; [|reflexivity].
      injection Ec as ->. exfalso. exact (Hdiff c r0 c rx E Ep eq_refl).
Qed.

(** ** The facade *)

Lemma res_cases l s :
  Forall (okv at_) l ->
  res at_ l s = VUndefined \/ (okv at_ (res at_ l s) /\ kof at_ (res at_ l s) = s).
Proof.
  intros Hok. unfold res. destruct (lastk at_ s l) as [v|] eqn:E; [|now left].
  apply lastk_In in E as [Hin Hk]. right. rewrite Forall_forall in Hok. auto.
Qed.

Lemma res_not_multi l s : Forall (okv at_) l -> is_multi (res at_ l s) = false.
Proof.
  intros Hok. destruct (res_cases l s Hok) as [->|[H _]]; [reflexivity|].
  now apply okv_not_multi.
Qed.

Lemma wf_skip n : wf at_ n -> exists p, skip n = KString p.
Proof. intros [p l d _ _ _|p es iv d _ _]; eexists; reflexivity. Qed.

Lemma built_inv t l :
  built at_ bs t l ->
  t_options t = o /\ wf at_ (root t) /\
  (forall s, lookup at_ (root t) s (res at_ l s)) /\ Forall (okv at_) l.
Proof.
  induction 1 as [t H|fuel v t l t' Hb IH Hv H|fuel k f t l r t' Hb IH H].
  - unfold Trie.new in H. cbn [cfg_type string_attr_config KEY_TYPES String.eqb
      Ascii.eqb Bool.eqb bind cfg_uniqueKeys cfg_binSize cfg_attr] in H.
    change (KEY_TYPES "string") with (Ret (Some StringType)) in H. cbn [bind] in H.
    inv_bind H. inv_Ret H. cbn [t_options root].
    split; [reflexivity|].
    unfold new_Node in E. cbn [commonPrefix bind] in E.
    destruct (build_all 1 ""%string [] a (SSorted_nil _) (Forall_nil _) (Forall_nil _) E)
      as (Hwf & Hlk & _).
    split; [exact Hwf|]. split; [exact Hlk|constructor].
  - destruct IH as (Ho & Hwf & Hlk & Hok).
    unfold Trie.add in H. rewrite Ho in H. rewrite (getKey_okv v Hv) in H.
    cbn [bind] in H. inv_bind H. inv_Ret H. cbn [t_options root].
    destruct (add_spec _ _ _ _ _ Hwf Hv eq_refl E) as (Hwf' & Hl' & Hfr & _).
    split; [reflexivity|]. split; [exact Hwf'|]. split.
    + intros s. rewrite res_snoc.
      destruct (String.eqb_spec (kof at_ v) s) as [<-|N]; [exact Hl'|].
      apply Hfr; [congruence|apply Hlk].
    + apply Forall_app. split; [exact Hok|]. constructor; [exact Hv|constructor].
  - destruct IH as (Ho & Hwf & Hlk & Hok).
    unfold Trie.get in H. rewrite Ho in H.
    change (opt_createKey o (VString k)) with (Ret (KString k)) in H.
    cbn [bind] in H. inv_bind H. destruct a as [ret n'].
    destruct (get_spec _ _ _ _ _ _ Hwf (Hlk k) E) as (-> & Hwf' & _ & Hfr).
    rewrite (res_not_multi l k Hok) in H. inv_bind H. inv_Ret H.
    cbn [t_options root]. auto.
Qed.

Lemma built_keys_le M t l :
  built at_ bs t l ->
  Forall (fun v => (String.length (kof at_ v) <= M)%nat) l ->
  keys_le at_ M (root t).
Proof.
  intros Hb HM s r Hl Hr.
  destruct (built_inv t l Hb) as (_ & Hwf & Hlk & _).
  rewrite (lookup_fun _ _ _ (Hlk s) r Hwf Hl) in Hr.
  unfold res in Hr. destruct (lastk at_ s l) as [w|] eqn:E; [|congruence].
  apply lastk_In in E as [Hin <-]. rewrite Forall_forall in HM. auto.
Qed.

(** ** [delete] of a key that was not added *)

(** A child put back under its edge, when the call left its skip and its
    answers as they were. *)
Lemma replace_child p es es' iv d c child child' :
  wf at_ (Node (KString p) (Some es) iv d) ->
  assoc (String c "") (aprops es) = Some child ->
  wf at_ child' -> skip child' = skip child ->
  (forall s x, lookup at_ child s x -> lookup at_ child' s x) ->
  aprops es' = assoc_set (String c "") child' (aprops es) ->
  wf at_ (Node (KString p) (Some es') iv d) /\
  (forall s x, lookup at_ (Node (KString p) (Some es) iv d) s x ->
               lookup at_ (Node (KString p) (Some es') iv d) s x).
Proof.
  intros Hwf Ha Hwc' Hsk Hfr E0.
  destruct (wf_child _ _ _ _ _ _ Hwf Ha) as (Hwc & ch & q & Hname & Hskip & Hq).
  inversion Hwf as [|p0 es0 iv0 d0 Hiv Hes]; subst.
  split.
  - constructor; [exact Hiv|]. rewrite E0.
    apply Forall_assoc_set_pair; [exact Hes|]. cbn [fst snd].
    split; [exact Hwc'|]. exists ch, q. rewrite Hsk. auto.
  - intros s x Hl.
    destruct (lookup_branch_cases _ _ _ _ _ _ Hl) as (C1 & C2 & C3).
    apply lookup_branch_intro; [exact C1|exact C2|].
    intros c' r' Es. specialize (C3 c' r' Es). rewrite E0.
    destruct (Ascii.eqb_spec c c') as [<-|Hc].
    + rewrite assoc_set_same. rewrite Ha in C3. now apply Hfr.
    + rewrite assoc_set_other; [exact C3|]. intros [= C]. contradiction.
Qed.

Ltac same_node :=
  split; [assumption|split; [reflexivity|intros ? ? H; exact H]].

Lemma delete_absent s : forall fuel n p,
  wf at_ n -> lookup at_ n s VUndefined -> skip n = KString p ->
  (1 <= fuel)%nat -> (String.length s + 2 <= fuel + String.length p)%nat ->
  exists n',
    delete o fuel (KString s) None n = Ret (VUndefined, n') /\
    wf at_ n' /\ skip n' = skip n /\
    (forall s' x, lookup at_ n s' x -> lookup at_ n' s' x).
Proof.
  induction fuel as [|fuel IH]; intros n p Hwf Hlk Hsk H1 Hf; [lia|].
  cbn [delete].
  inversion Hwf as [p0 l d Hok Hpre Hsort|p0 es iv d Hiv Hes]; subst;
    cbn [skip edges values dirty] in *; injection Hsk as ->;
    rewrite match_key; cbn [bind key_length].
  - (* a terminal node *)
    destruct (string_match s p =? Z.of_nat (String.length p)); cbn [negb];
      [|eexists; split; [reflexivity|]; same_node].
    apply lookup_term_inv in Hlk.
    destruct (sortValues_returns (KString p) l d Hok) as [this' E].
    destruct (sortValues_spec _ _ _ _ Hok Hsort E)
      as (l' & -> & Hs' & Hok' & Hin & Hlast & _).
    rewrite E. cbn [bind]. rewrite setKey_needle. cbn [bind values as_array].
    destruct (bounds_eq_loop_returns l' s Hok' (S (Datatypes.length l')) 0 (len l' - 1))
      as [i Ei]; try (unfold len; lia).
    fold (bounds_eq o l' (needle at_ s)) in Ei. rewrite Ei. cbn [bind].
    destruct (bounds_eq_spec l' s i Hs' Hok' Ei) as (Hres & Hfound & _).
    destruct (Z.leb_spec 0 i) as [Hi|Hi].
    { exfalso. destruct (Z.ltb_spec i 0) as [C|_]; [lia|].
      destruct (Hfound Hi) as [_ Hlt].
      assert (Hn : okv at_ (nth (Z.to_nat i) l' VUndefined)).
      { apply okv_nth; [exact Hok'|]. unfold len in Hlt. lia. }
      apply okv_defined in Hn. apply Hn. rewrite Hres.
      unfold res. rewrite Hlast. exact (eq_sym Hlk). }
    eexists. split; [reflexivity|]. split.
    { constructor; [exact Hok'| |intros _; exact Hs'].
      rewrite Forall_forall in Hpre |- *. intros v Hv. apply Hpre. now apply Hin. }
    split; [reflexivity|].
    intros s' x Hx. apply lookup_term_inv in Hx. subst x.
    replace (res at_ l s') with (res at_ l' s') by (unfold res; now rewrite Hlast).
    constructor.
  - (* a branching node *)
    apply lookup_branch_cases in Hlk as (Hoff & Hhere & Hdown).
    destruct (key_cases p s) as [Hn|[->|(c & r0 & ->)]].
    + assert (Hne : (string_match s p =? Z.of_nat (String.length p)) = false).
      { apply Z.eqb_neq. intros E. apply Hn. now apply match_full_iff. }
      rewrite Hne. cbn [negb]. eexists. split; [reflexivity|]. same_node.
    + rewrite string_match_refl, !Z.eqb_refl. cbn [negb].
      assert (Eiv : iv = VUndefined) by (symmetry; exact (Hhere eq_refl)).
      subst iv. cbn [delete_ is_multi bind].
      eexists. split; [reflexivity|]. same_node.
    + rewrite match_pre by (eexists; reflexivity).
      rewrite Z.eqb_refl. cbn [negb].
      rewrite length_not_full, charAt_after. cbn [bind arr_get property_key].
      specialize (Hdown c r0 eq_refl).
      destruct (assoc (String c "") (aprops es)) as [child|] eqn:Ha;
        [|eexists; split; [reflexivity|]; same_node].
      destruct (wf_child _ _ _ _ _ _ Hwf Ha) as (Hwc & ch & q & Hname & Hskip & Hq).
      pose proof (pre_length _ _ Hq) as Hlen.
      rewrite !length_append in *. cbn [String.length] in *.
      destruct (IH child q Hwc Hdown Hskip) as (c' & E & Hwc' & Hsk' & Hfr); try lia.
      rewrite E. cbn [bind arr_set property_key is_undefined negb].
      eexists. split; [reflexivity|].
      destruct (replace_child p es
                  {| alength := match array_index (String c "") with
                                | Some i => Z.max (alength es) (i + 1)
                                | None => alength es
                                end;
                     aprops := assoc_set (String c "") c' (aprops es) |}
                  iv d c child c' Hwf Ha Hwc' Hsk' Hfr eq_refl) as [Hw Hf'].
      split; [exact Hw|]. split; [reflexivity|exact Hf'].
Qed.

Lemma get_of_inv t l s fuel :
  t_options t = o -> wf at_ (root t) ->
  (forall s, lookup at_ (root t) s (res at_ l s)) -> Forall (okv at_) l ->
  (String.length s + 2 <= fuel)%nat ->
  exists t', Trie.get fuel (VString s) None t = Ret (res at_ l s, t').
Proof.
  intros Ho Hwf Hlk Hok Hf.
  destruct (wf_skip _ Hwf) as [p Hp].
  destruct (get_returns s fuel (root t) p Hwf Hp) as (r & n' & E); try lia.
  destruct (get_spec _ _ _ _ _ _ Hwf (Hlk s) E) as (-> & _).
  unfold Trie.get. rewrite Ho.
  change (opt_createKey o (VString s)) with (Ret (KString s)).
  cbn [bind]. rewrite E. cbn [bind]. rewrite (res_not_multi l s Hok).
  cbn [bind]. eauto.
Qed.

Lemma Trie_delete_absent t l s fuel :
  built at_ bs t l -> res at_ l s = VUndefined ->
  (String.length s + 2 <= fuel)%nat ->
  exists t',
    Trie.delete fuel (VString s) None t = Ret (VUndefined, t') /\
    forall s' fuel', (String.length s' + 2 <= fuel')%nat ->
      exists t'', Trie.get fuel' (VString s') None t' = Ret (res at_ l s', t'').
Proof.
  intros Hb Hres Hf. destruct (built_inv t l Hb) as (Ho & Hwf & Hlk & Hok).
  destruct (wf_skip _ Hwf) as [p Hp].
  pose proof (Hlk s) as Hs. rewrite Hres in Hs.
  destruct (delete_absent s fuel (root t) p Hwf Hs Hp) as (n' & E & Hwf' & _ & Hfr);
    try lia.
  unfold Trie.delete. rewrite Ho.
  change (opt_createKey o (VString s)) with (Ret (KString s)).
  cbn [bind]. rewrite E. cbn [bind].
  destruct Hwf' as [q l' d Hok' Hpre' Hsort'|q es iv d Hiv Hes];
    cbn [edges values as_array bind].
  - destruct (Z.eqb_spec (len l') 0) as [E0|E0].
    + destruct l'; [|unfold len in E0; cbn in E0; lia].
      eexists. split; [reflexivity|]. intros s' fuel' Hf'.
      apply get_of_inv; [reflexivity| | |exact Hok|exact Hf']; cbn [root].
      * constructor; [constructor|constructor|intros _; constructor].
      * intros s0. specialize (Hfr _ _ (Hlk s0)).
        apply lookup_term_inv in Hfr. rewrite Hfr. constructor.
    + eexists. split; [reflexivity|]. intros s' fuel' Hf'.
      apply get_of_inv; [reflexivity| | |exact Hok|exact Hf']; cbn [root].
      * constructor; assumption.
      * intros s0. exact (Hfr _ _ (Hlk s0)).
  - eexists. split; [reflexivity|]. intros s' fuel' Hf'.
    apply get_of_inv; [reflexivity| | |exact Hok|exact Hf']; cbn [root].
    + constructor; assumption.
    + intros s0. exact (Hfr _ _ (Hlk s0)).
Qed.

(** ** [delete] in a root that is a bin *)

Lemma list_remove_In i : forall (a : list value) v,
  In v (list_remove i a) -> In v a.
Proof.
  induction i as [|i IH]; intros [|x t] v H; cbn [list_remove] in H; try contradiction.
  - now right.
  - destruct H as [<-|H]; [now left|right; now apply IH].
Qed.

Lemma list_remove_sorted i : forall a, ssorted at_ a -> ssorted at_ (list_remove i a).
Proof.
  induction i as [|i IH]; intros [|x t] H; cbn [list_remove]; try constructor.
  - now inversion H.
  - inversion H; subst. now apply IH.
  - inversion H as [|? ? _ Hall]; subst. rewrite Forall_forall in Hall |- *.
    intros v Hv. apply Hall. eapply list_remove_In. exact Hv.
Qed.

Lemma lastk_list_remove s s' : forall i a,
  ssorted at_ a -> (i < Datatypes.length a)%nat ->
  kof at_ (nth i a VUndefined) = s ->
  lastk at_ s' (list_remove i a) = if String.eqb s' s then None else lastk at_ s' a.
Proof.
  induction i as [|i IH]; intros [|x t] Hs Hi Hk; cbn [Datatypes.length] in Hi; try lia;
    cbn [list_remove nth] in *; inversion Hs as [|? ? Hst Hall]; subst.
  - rewrite Forall_forall in Hall.
    destruct (String.eqb_spec s' (kof at_ x)) as [->|N].
    + apply lastk_None. intros v Hv C. specialize (Hall v Hv).
      rewrite C, slt_irrefl in Hall. discriminate.
    + cbn [lastk]. destruct (lastk at_ s' t); [reflexivity|].
      destruct (String.eqb_spec (kof at_ x) s'); [congruence|reflexivity].
  - cbn [lastk]. rewrite (IH t Hst ltac:(lia) eq_refl).
    destruct (String.eqb_spec s' (kof at_ (nth i t VUndefined))) as [->|N];
      [|reflexivity].
    rewrite Forall_forall in Hall.
    assert (Hin : In (nth i t VUndefined) t) by (apply nth_In; lia).
    specialize (Hall _ Hin).
    destruct (String.eqb_spec (kof at_ x) (kof at_ (nth i t VUndefined))) as [C|_];
      [|reflexivity].
    rewrite C, slt_irrefl in Hall. discriminate.
Qed.

(** [get] on a trie whose root is a bin. *)
Lemma get_of_bin q a d s fuel :
  Forall (okv at_) a -> Forall (fun v => is_pre q (kof at_ v)) a ->
  (d = false -> ssorted at_ a) ->
  (String.length s + 2 <= fuel)%nat ->
  exists t', Trie.get fuel (VString s) None
               {| t_options := o; root := Node (KString q) None (VArray a) d |}
             = Ret (res at_ a s, t').
Proof.
  intros Hok Hp Hd Hf.
  apply get_of_inv; [reflexivity| | |exact Hok|exact Hf]; cbn [root].
  - constructor; assumption.
  - intros s0. constructor.
Qed.

(** The reset of an empty root by [Trie.delete]. *)
Lemma get_after_reset q a d s fuel :
  Forall (okv at_) a -> Forall (fun v => is_pre q (kof at_ v)) a ->
  (d = false -> ssorted at_ a) ->
  (String.length s + 2 <= fuel)%nat ->
  exists t', Trie.get fuel (VString s) None
               {| t_options := o;
                  root := if len a =? 0
                          then Node (opt_emptyPrefix o) None (VArray a) d
                          else Node (KString q) None (VArray a) d |}
             = Ret (res at_ a s, t').
Proof.
  intros Hok Hp Hd Hf. destruct (Z.eqb_spec (len a) 0) as [E0|E0].
  - destruct a; [|unfold len in E0; cbn in E0; lia].
    apply (get_of_bin ""%string [] d s fuel); auto.
  - now apply get_of_bin.
Qed.

Lemma Trie_delete_bin t l s fuel :
  built at_ bs t l -> edges (root t) = None -> (1 <= fuel)%nat ->
  exists t',
    Trie.delete fuel (VString s) None t = Ret (res at_ l s, t') /\
    forall s' fuel', (String.length s' + 2 <= fuel')%nat ->
      exists t'', Trie.get fuel' (VString s') None t'
                  = Ret (if String.eqb s' s then VUndefined else res at_ l s', t'').
Proof.
  intros Hb He H1. destruct (built_inv t l Hb) as (Ho & Hwf & Hlk & Hokl).
  destruct fuel as [|fuel]; [lia|].
  destruct t as [topt rt]. cbn [t_options root] in *. subst topt.
  destruct Hwf as [p a d Hok Hp Hd|p es iv d Hiv Hes]; [|discriminate].
  assert (Hres : forall s0, res at_ l s0 = res at_ a s0).
  { intros s0. specialize (Hlk s0). now apply lookup_term_inv in Hlk. }
  unfold Trie.delete. cbn [t_options root].
  change (opt_createKey o (VString s)) with (Ret (KString s)).
  cbn [bind delete skip edges]. rewrite match_key. cbn [bind key_length].
  destruct (Z.eqb_spec (string_match s p) (Z.of_nat (String.length p))) as [Em|Em];
    cbn [negb].
  2:{ (* the key does not have the skip *)
      cbn [bind edges values as_array].
      assert (Hoff : res at_ a s = VUndefined).
      { apply res_off with (p := p); [exact Hp|].
        intros C. apply Em. now apply match_full_iff. }
      rewrite Hres, Hoff. eexists. split; [reflexivity|].
      intros s' fuel' Hf'.
      destruct (get_after_reset p a d s' fuel' Hok Hp Hd Hf') as [t'' E].
      exists t''.
      replace (if String.eqb s' s then VUndefined else res at_ l s')
        with (res at_ a s'); [exact E|].
      rewrite Hres.
      destruct (String.eqb_spec s' s) as [->|_]; [exact Hoff|reflexivity]. }
  destruct (sortValues_returns (KString p) a d Hok) as [this' E].
  destruct (sortValues_spec _ _ _ _ Hok Hd E)
    as (a' & -> & Hs' & Hok' & Hin & Hlast & _).
  rewrite E. cbn [bind]. rewrite setKey_needle. cbn [bind values as_array].
  destruct (bounds_eq_loop_returns a' s Hok' (S (Datatypes.length a')) 0 (len a' - 1))
    as [i Ei]; try (unfold len; lia).
  fold (bounds_eq o a' (needle at_ s)) in Ei. rewrite Ei. cbn [bind].
  destruct (bounds_eq_spec a' s i Hs' Hok' Ei) as (Hfound & Hat & Hnone).
  assert (Hres' : forall s0, res at_ a s0 = res at_ a' s0).
  { intros s0. unfold res. now rewrite Hlast. }
  assert (Hp' : Forall (fun v => is_pre p (kof at_ v)) a').
  { rewrite Forall_forall in Hp |- *. auto. }
  destruct (Z.leb_spec 0 i) as [Hi|Hi].
  - (* found: the slot is spliced out *)
    destruct (Hat Hi) as [Hk Hlt].
    destruct (Z.ltb_spec i 0) as [C|_]; [lia|].
    assert (Hn : (Z.to_nat i < Datatypes.length a')%nat) by (unfold len in Hlt; lia).
    pose proof (okv_nth a' _ Hok' Hn) as Hokn.
    unfold delete_. rewrite (okv_not_multi _ Hokn).
    cbn [bind is_undefined edges values as_array dirty skip].
    rewrite Hres, Hres', <- Hfound.
    eexists. split; [reflexivity|]. intros s' fuel' Hf'.
    destruct (get_after_reset p (list_remove (Z.to_nat i) a') false s' fuel') as [t'' E'];
      auto.
    + rewrite Forall_forall in Hok' |- *. intros v Hv. apply Hok'.
      eapply list_remove_In. exact Hv.
    + rewrite Forall_forall in Hp' |- *. intros v Hv. apply Hp'.
      eapply list_remove_In. exact Hv.
    + intros _. now apply list_remove_sorted.
    + exists t''.
      replace (if String.eqb s' s then VUndefined else res at_ l s')
        with (res at_ (list_remove (Z.to_nat i) a') s'); [exact E'|].
      unfold res at 1. rewrite (lastk_list_remove s s' _ _ Hs' Hn Hk).
      destruct (String.eqb s' s); [reflexivity|].
      fold (res at_ a' s'). now rewrite Hres, Hres'.
  - (* not found *)
    destruct (Z.ltb_spec i 0) as [_|C]; [|lia].
    cbn [bind edges values as_array].
    rewrite Hres, Hres', <- Hfound.
    eexists. split; [reflexivity|]. intros s' fuel' Hf'.
    destruct (get_after_reset p a' false s' fuel' Hok' Hp' (fun _ => Hs') Hf')
      as [t'' E'].
    exists t''.
    replace (if String.eqb s' s then VUndefined else res at_ l s')
      with (res at_ a' s'); [exact E'|].
    rewrite Hres, Hres'.
    destruct (String.eqb_spec s' s) as [->|_]; [now rewrite <- Hfound|reflexivity].
Qed.

End Attr.

(* ================================================================== *)
(** * The string domain with [attr]: what the operations compute *)

(** X9.  [_sortValues] on a dirty bin of the string domain with [attr] and
    unique keys returns: it leaves the bin strictly sorted by key and not
    dirty, invents no value, and keeps for every key the value that was
    pushed last. *)
Theorem sortValues_sorts_and_keeps_last at_ bs p l :
  at_ <> ""%string -> inherited at_ = false -> Forall (okv at_) l ->
  exists l',
    sortValues (string_attr_options at_ bs) (Node p None (VArray l) true)
      = Ret (Node p None (VArray l') false) /\
    ssorted at_ l' /\ (forall v, In v l' -> In v l) /\
    (forall s, res at_ l' s = res at_ l s).
Proof.
  intros Ht Ho Hok.
  destruct (sortValues_returns at_ bs Ht p l true Hok) as [this' E].
  assert (Hd : true = false -> ssorted at_ l) by discriminate.
  destruct (sortValues_spec at_ bs Ht _ _ _ _ Hok Hd E)
    as (l' & -> & Hs & _ & Hin & Hlast & _).
  exists l'. split; [exact E|]. split; [exact Hs|]. split; [exact Hin|].
  intros s. unfold res. now rewrite Hlast.
Qed.

Lemma sortValues_sorts_and_keeps_last_witness :
  exists l',
    sortValues (string_attr_options "k" 4)
      (Node (KString "") None
         (VArray [entry_v "b" 1; entry_v "a" 2; entry_v "b" 3]) true)
      = Ret (Node (KString "") None (VArray l') false) /\
    ssorted "k" l' /\
    (forall v, In v l' -> In v [entry_v "b" 1; entry_v "a" 2; entry_v "b" 3]) /\
    (forall s, res "k" l' s = res "k" [entry_v "b" 1; entry_v "a" 2; entry_v "b" 3] s).
Proof.
  apply (sortValues_sorts_and_keeps_last "k"%string 4 (KString "")).
  - discriminate.
  - reflexivity.
  - repeat constructor; eexists; eexists; (split; [reflexivity|reflexivity]).
Defined.

(** X10.  [_search] on a bin of the string domain with [attr] and unique keys
    returns the last value pushed with the key, and [undefined] when no
    value has it, whether the bin is dirty or sorted. *)
Theorem search_returns_last_value at_ bs p l d s :
  at_ <> ""%string -> inherited at_ = false ->
  Forall (okv at_) l -> (d = false -> ssorted at_ l) ->
  exists this',
    search (string_attr_options at_ bs) (KString s) (Node p None (VArray l) d)
      = Ret (res at_ l s, this').
Proof.
  intros Ht Ho Hok Hd.
  destruct (search_returns at_ bs Ht Ho p l d s Hok) as (r & this' & E).
  destruct (search_spec at_ bs Ht Ho _ _ _ _ _ _ Hok Hd E) as (-> & _).
  exists this'. exact E.
Qed.

Lemma search_returns_last_value_witness :
  exists this',
    search (string_attr_options "k" 4) (KString "b")
      (Node (KString "") None
         (VArray [entry_v "b" 1; entry_v "a" 2; entry_v "b" 3]) true)
      = Ret (entry_v "b" 3, this').
Proof.
  apply (search_returns_last_value "k"%string 4 (KString "")
           [entry_v "b" 1; entry_v "a" 2; entry_v "b" 3] true "b"%string).
  - discriminate.
  - reflexivity.
  - repeat constructor; eexists; eexists; (split; [reflexivity|reflexivity]).
  - discriminate.
Defined.

(** X11.  [commonPrefix] of a strictly sorted bin that is not empty is the
    longest string that is a prefix of every key of the bin, though the
    code looks at the first and the last key only. *)
Theorem commonPrefix_is_longest_common_prefix at_ bs l :
  at_ <> ""%string ->
  ssorted at_ l -> Forall (okv at_) l -> l <> [] ->
  exists pv,
    commonPrefix (string_attr_options at_ bs) l = Ret (KString pv) /\
    (forall v, In v l -> is_pre pv (kof at_ v)) /\
    (forall q, (forall v, In v l -> is_pre q (kof at_ v)) -> is_pre q pv).
Proof. intros Ht Hs Hok Hne. now apply commonPrefix_spec. Qed.

Lemma commonPrefix_is_longest_common_prefix_witness :
  exists pv,
    commonPrefix (string_attr_options "k" 4) [entry "ab"; entry "abc"; entry "ad"]
      = Ret (KString pv) /\
    (forall v, In v [entry "ab"; entry "abc"; entry "ad"] -> is_pre pv (kof "k" v)) /\
    (forall q, (forall v, In v [entry "ab"; entry "abc"; entry "ad"] ->
                          is_pre q (kof "k" v)) -> is_pre q pv).
Proof.
  apply (commonPrefix_is_longest_common_prefix "k"%string 4).
  - discriminate.
  - repeat constructor.
  - repeat constructor; eexists; eexists; (split; [reflexivity|reflexivity]).
  - discriminate.
Defined.

(** X12.  [_explode] with enough fuel returns, and the node it leaves, whether
    still a bin or a tree of bins, is well formed and answers every key
    as the bin did: with the last value pushed under the key. *)
Theorem explode_keeps_the_answers at_ bs M fuel p l d :
  at_ <> ""%string ->
  Forall (okv at_) l -> Forall (fun v => is_pre p (kof at_ v)) l ->
  (d = false -> ssorted at_ l) ->
  Forall (fun v => (String.length (kof at_ v) <= M)%nat) l ->
  (1 <= fuel)%nat -> (M < fuel + String.length p)%nat ->
  exists n',
    explode (string_attr_options at_ bs) fuel (Node (KString p) None (VArray l) d)
      = Ret n' /\
    wf at_ n' /\ forall s, lookup at_ n' s (res at_ l s).
Proof.
  intros Ht Hok Hp Hd HM H1 Hf.
  destruct (explode_returns at_ bs Ht M fuel p l d Hok Hp Hd HM H1 Hf) as [n' E].
  destruct (explode_spec at_ bs Ht _ _ _ _ _ Hok Hp Hd E) as (Hwf & Hlk & _).
  exists n'. split; [exact E|]. split; [exact Hwf|exact Hlk].
Qed.

Lemma explode_keeps_the_answers_witness :
  exists n',
    explode (string_attr_options "k" 1) 4
      (Node (KString "") None (VArray [entry "b"; entry "ab"; entry "a"]) true)
      = Ret n' /\
    wf "k" n' /\
    forall s, lookup "k" n' s (res "k" [entry "b"; entry "ab"; entry "a"] s).
Proof.
  apply (explode_keeps_the_answers "k"%string 1 2 4 ""%string
           [entry "b"; entry "ab"; entry "a"] true).
  - discriminate.
  - repeat constructor; eexists; eexists; (split; [reflexivity|reflexivity]).
  - repeat constructor; eexists; reflexivity.
  - discriminate.
  - repeat constructor.
  - lia.
  - simpl. lia.
Defined.

(** X13.  In a trie of the string domain with [attr] and unique keys built by
    [add] and [get] calls, [get] of a key, with fuel for the length of the
    key, returns the value added last under that key, and [undefined] if
    none was. *)
Theorem get_returns_the_last_value_added at_ bs t l s fuel :
  at_ <> ""%string -> inherited at_ = false ->
  built at_ bs t l -> (String.length s + 2 <= fuel)%nat ->
  exists t', Trie.get fuel (VString s) None t = Ret (res at_ l s, t').
Proof.
  intros Ht Ho Hb Hf.
  destruct (built_inv at_ bs Ht Ho t l Hb) as (Hopt & Hwf & Hlk & Hok).
  destruct (wf_skip at_ _ Hwf) as [p Hp].
  destruct (get_returns at_ bs Ht Ho s fuel (root t) p Hwf Hp) as (r & n' & E);
    try lia.
  destruct (get_spec at_ bs Ht Ho _ _ _ _ _ _ Hwf (Hlk s) E) as (-> & _).
  unfold Trie.get. rewrite Hopt.
  change (opt_createKey (string_attr_options at_ bs) (VString s))
    with (Ret (KString s)).
  cbn [bind]. rewrite E. cbn [bind]. rewrite (res_not_multi at_ l s Hok).
  cbn [bind]. eauto.
Qed.

Lemma get_returns_the_last_value_added_witness :
  exists t,
    two_key_trie = Ret t /\
    exists t', Trie.get 3 (VString "a") None t = Ret (entry "a", t').
Proof.
  eexists. split; [vm_compute; reflexivity|].
  apply (get_returns_the_last_value_added "k"%string 1 _
           (([] ++ [entry "a"]) ++ [entry "b"]) "a"%string 3).
  - discriminate.
  - reflexivity.
  - eapply built_add with (fuel := 8%nat).
    + eapply built_add with (fuel := 8%nat).
      * apply built_new. vm_compute. reflexivity.
      * eexists. eexists. split; reflexivity.
      * vm_compute. reflexivity.
    + eexists. eexists. split; reflexivity.
    + vm_compute. reflexivity.
  - simpl. lia.
Defined.

(** X14.  In such a trie [add] of an object that carries a string key returns,
    with fuel for the longest key, and the trie it leaves is again such a
    trie, with the value added. *)
Theorem add_returns_and_records_the_value at_ bs M t l v fuel :
  at_ <> ""%string -> inherited at_ = false ->
  built at_ bs t l -> okv at_ v ->
  Forall (fun w => (String.length (kof at_ w) <= M)%nat) (l ++ [v]) ->
  (M + 2 <= fuel)%nat ->
  exists t', Trie.add fuel v t = Ret t' /\ built at_ bs t' (l ++ [v]).
Proof.
  intros Ht Ho Hb Hv HM Hf.
  destruct (built_inv at_ bs Ht Ho t l Hb) as (Hopt & Hwf & Hlk & Hok).
  pose proof HM as HM'.
  apply Forall_app in HM' as [HMl HMv]. inversion HMv as [|? ? HMk _]; subst.
  destruct (wf_skip at_ _ Hwf) as [p Hp].
  destruct (add_returns at_ bs Ht M fuel (root t) (kof at_ v) v p
              Hwf Hv eq_refl Hp) as [n' E].
  - exact (built_keys_le at_ bs Ht Ho M t l Hb HMl).
  - exact HMk.
  - pose proof (string_match_bounds (kof at_ v) p). lia.
  - assert (Ea : Trie.add fuel v t = Ret {| t_options := t_options t; root := n' |}).
    { unfold Trie.add. rewrite Hopt, (getKey_okv at_ bs Ht v Hv). cbn [bind].
      rewrite E. reflexivity. }
    eexists. split; [exact Ea|]. exact (built_add at_ bs fuel v t l _ Hb Hv Ea).
Qed.

Lemma add_returns_and_records_the_value_witness :
  exists t,
    two_key_trie = Ret t /\
    exists t', Trie.add 4 (entry "ab") t = Ret t' /\
               built "k" 1 t' ((([] ++ [entry "a"]) ++ [entry "b"]) ++ [entry "ab"]).
Proof.
  eexists. split; [vm_compute; reflexivity|].
  apply (add_returns_and_records_the_value "k"%string 1 2 _
           (([] ++ [entry "a"]) ++ [entry "b"]) (entry "ab") 4).
  - discriminate.
  - reflexivity.
  - eapply built_add with (fuel := 8%nat).
    + eapply built_add with (fuel := 8%nat).
      * apply built_new. vm_compute. reflexivity.
      * eexists. eexists. split; reflexivity.
      * vm_compute. reflexivity.
    + eexists. eexists. split; reflexivity.
    + vm_compute. reflexivity.
  - eexists. eexists. split; reflexivity.
  - repeat constructor.
  - lia.
Defined.

(** X15.  In a trie of the string domain with [attr] and unique keys built
    by [add] and [get] calls, [delete] of a key under which no value was
    added returns [undefined], with fuel for the length of the key, and
    changes no answer: every later [get] returns what it returned
    before. *)
Theorem delete_of_an_absent_key_changes_nothing at_ bs t l s fuel :
  at_ <> ""%string -> inherited at_ = false ->
  built at_ bs t l -> res at_ l s = VUndefined ->
  (String.length s + 2 <= fuel)%nat ->
  exists t',
    Trie.delete fuel (VString s) None t = Ret (VUndefined, t') /\
    forall s' fuel', (String.length s' + 2 <= fuel')%nat ->
      exists t'', Trie.get fuel' (VString s') None t' = Ret (res at_ l s', t'').
Proof.
  intros Ht Ho Hb Hres Hf.
  destruct (Trie_delete_absent at_ bs Ht Ho t l s fuel Hb Hres Hf) as (t' & E & Hget).
  exists t'. split; [exact E|]. intros s' fuel' Hf'. exact (Hget s' fuel' Hf').
Qed.

Lemma delete_of_an_absent_key_changes_nothing_witness :
  exists t,
    two_key_trie = Ret t /\
    exists t',
      Trie.delete 4 (VString "ab") None t = Ret (VUndefined, t') /\
      forall s' fuel', (String.length s' + 2 <= fuel')%nat ->
        exists t'', Trie.get fuel' (VString s') None t'
                    = Ret (res "k" (([] ++ [entry "a"]) ++ [entry "b"]) s', t'').
Proof.
  eexists. split; [vm_compute; reflexivity|].
  apply (delete_of_an_absent_key_changes_nothing "k"%string 1 _
           (([] ++ [entry "a"]) ++ [entry "b"]) "ab"%string 4).
  - discriminate.
  - reflexivity.
  - eapply built_add with (fuel := 8%nat).
    + eapply built_add with (fuel := 8%nat).
      * apply built_new. vm_compute. reflexivity.
      * eexists. eexists. split; reflexivity.
      * vm_compute. reflexivity.
    + eexists. eexists. split; reflexivity.
    + vm_compute. reflexivity.
  - reflexivity.
  - simpl. lia.
Defined.

(** X20.  In such a trie whose root is still a bin, [delete] of a key
    returns the value added last under it ([undefined] if there is none)
    and removes exactly that key: afterwards [get] returns [undefined]
    for it and, for every other key, what it returned before. *)
Theorem delete_from_a_root_bin_removes_the_key at_ bs t l s fuel :
  at_ <> ""%string -> inherited at_ = false ->
  built at_ bs t l -> edges (root t) = None -> (1 <= fuel)%nat ->
  exists t',
    Trie.delete fuel (VString s) None t = Ret (res at_ l s, t') /\
    forall s' fuel', (String.length s' + 2 <= fuel')%nat ->
      exists t'', Trie.get fuel' (VString s') None t'
                  = Ret (if String.eqb s' s then VUndefined else res at_ l s', t'').
Proof.
  intros Ht Ho Hb He Hf.
  destruct (Trie_delete_bin at_ bs Ht Ho t l s fuel Hb He Hf) as (t' & E & Hget).
  exists t'. split; [exact E|]. intros s' fuel' Hf'. exact (Hget s' fuel' Hf').
Qed.

Lemma delete_from_a_root_bin_removes_the_key_witness :
  exists t,
    (t <- Trie.new (string_attr_config "k" 4) ;;
     t <- Trie.add 8 (entry "b") t ;;
     Trie.add 8 (entry "a") t) = Ret t /\
    exists t',
      Trie.delete 1 (VString "a") None t = Ret (entry "a", t') /\
      forall s' fuel', (String.length s' + 2 <= fuel')%nat ->
        exists t'', Trie.get fuel' (VString s') None t'
                    = Ret (if String.eqb s' "a" then VUndefined
                           else res "k" (([] ++ [entry "b"]) ++ [entry "a"]) s', t'').
Proof.
  eexists. split; [vm_compute; reflexivity|].
  apply (delete_from_a_root_bin_removes_the_key "k"%string 4 _
           (([] ++ [entry "b"]) ++ [entry "a"]) "a"%string 1).
  - discriminate.
  - reflexivity.
  - eapply built_add with (fuel := 8%nat).
    + eapply built_add with (fuel := 8%nat).
      * apply built_new. vm_compute. reflexivity.
      * eexists. eexists. split; reflexivity.
      * vm_compute. reflexivity.
    + eexists. eexists. split; reflexivity.
    + vm_compute. reflexivity.
  - reflexivity.
  - lia.
Defined.

(** X16.  In such a trie [get] with a filter applies the filter to the
    value it found and returns the value if the filter accepts it, else
    [undefined].  For a key under which no value was added the filter is
    applied to [undefined]: [get] throws what the filter throws on it. *)
Theorem get_applies_the_filter_to_the_answer at_ bs t l s fuel (f : filter_fn) :
  at_ <> ""%string -> inherited at_ = false ->
  built at_ bs t l -> (String.length s + 2 <= fuel)%nat ->
  (exists t',
     Trie.get fuel (VString s) (Some f) t
     = (ok <- f (res at_ l s) ;;
        Ret (if ok then res at_ l s else VUndefined, t'))) /\
  (forall e, res at_ l s = VUndefined -> f VUndefined = Throw e ->
             Trie.get fuel (VString s) (Some f) t = Throw e).
Proof.
  intros Ht Ho Hb Hf.
  destruct (built_inv at_ bs Ht Ho t l Hb) as (Hopt & Hwf & Hlk & Hok).
  destruct (wf_skip at_ _ Hwf) as [p Hp].
  destruct (get_returns at_ bs Ht Ho s fuel (root t) p Hwf Hp) as (r & n' & E);
    try lia.
  destruct (get_spec at_ bs Ht Ho _ _ _ _ _ _ Hwf (Hlk s) E) as (-> & _).
  assert (Eg : Trie.get fuel (VString s) (Some f) t
               = (ok <- f (res at_ l s) ;;
                  Ret (if ok then res at_ l s else VUndefined,
                       {| t_options := t_options t; root := n' |}))).
  { unfold Trie.get. rewrite Hopt.
    change (opt_createKey (string_attr_options at_ bs) (VString s))
      with (Ret (KString s)).
    cbn [bind]. rewrite E. cbn [bind]. rewrite (res_not_multi at_ l s Hok).
    reflexivity. }
  split; [eexists; exact Eg|].
  intros e Hres He. rewrite Eg, Hres, He. reflexivity.
Qed.

Lemma get_applies_the_filter_to_the_answer_witness :
  exists t,
    two_key_trie = Ret t /\
    Trie.get 4 (VString "ab") (Some reads_v) t = Throw TypeError.
Proof.
  eexists. split; [vm_compute; reflexivity|].
  refine (proj2 (get_applies_the_filter_to_the_answer "k"%string 1 _
                   (([] ++ [entry "a"]) ++ [entry "b"]) "ab"%string 4 reads_v
                   _ _ _ _) TypeError _ _).
  - discriminate.
  - reflexivity.
  - eapply built_add with (fuel := 8%nat).
    + eapply built_add with (fuel := 8%nat).
      * apply built_new. vm_compute. reflexivity.
      * eexists. eexists. split; reflexivity.
      * vm_compute. reflexivity.
    + eexists. eexists. split; reflexivity.
    + vm_compute. reflexivity.
  - simpl. lia.
  - reflexivity.
  - reflexivity.
Defined.

(* ================================================================== *)
(** * [assign] without unique keys *)

(** X17.  Without unique keys, in the string domain, [assign] onto a value
    that is not [undefined] returns a MultiValue whose members are the
    members of the old value followed by the new value; a MultiValue made
    for two plain values carries the key of the new one.  The [attr]
    name must not be ["values"], the name of the member list. *)
Theorem assign_appends_a_member (o : options) (new old : value)
    (lo : list value) (k : string) :
  uniqueKeys o = false -> typeOpts o = Some StringType ->
  (forall a, truthy_attr (attr o) = Some a ->
             a <> "values"%string /\ inherited a = false) ->
  old <> VUndefined -> members old = Ret lo ->
  opt_getKey o new = Ret (KString k) ->
  exists r,
    assign o new old = Ret r /\ is_multi r = true /\
    members r = Ret (lo ++ [new]) /\
    (is_multi old = false -> opt_getKey o r = Ret (KString k)).
Proof.
  intros Hu Hty Hattr Hold Hm Hk. unfold assign. rewrite Hu. cbn [orb].
  destruct old as [| | | |c props]; try congruence; cbn [is_undefined].
  1-3: cbn [is_multi members] in *; injection Hm as <-; rewrite Hk; cbn [bind];
    unfold opt_setKey, opt_getKey; rewrite Hty;
    (destruct (truthy_attr (attr o)) as [a|] eqn:Ea;
     [destruct (Hattr a eq_refl) as [Hav Hai];
      cbn [StringKeys.setKey StringKeys.getKey key_as_value bind set_prop];
      rewrite Hai; eexists; split; [reflexivity|]; split; [reflexivity|];
      split;
      [unfold members; cbn [is_multi get_prop bind];
       rewrite assoc_set_other by (exact Hav); reflexivity
      |intros _; cbn [get_prop]; rewrite assoc_set_same; reflexivity]
     |cbn [StringKeys.setKey StringKeys.getKey key_as_value bind set_prop
           is_multi inherited existsb String.eqb Ascii.eqb Bool.eqb orb];
      eexists; split; [reflexivity|]; split; [reflexivity|];
      split; [reflexivity|intros _; reflexivity]]).
  destruct c.
  - (* a plain object *)
    cbn [is_multi members] in *. injection Hm as <-. rewrite Hk. cbn [bind].
    unfold opt_setKey, opt_getKey. rewrite Hty.
    destruct (truthy_attr (attr o)) as [a|] eqn:Ea.
    + destruct (Hattr a eq_refl) as [Hav Hai].
      cbn [StringKeys.setKey StringKeys.getKey key_as_value bind set_prop].
      rewrite Hai. eexists. split; [reflexivity|]. split; [reflexivity|]. split.
      * unfold members. cbn [is_multi get_prop bind].
        rewrite assoc_set_other by (exact Hav). reflexivity.
      * intros _. cbn [get_prop]. rewrite assoc_set_same. reflexivity.
    + cbn [StringKeys.setKey StringKeys.getKey key_as_value bind set_prop is_multi].
      change (inherited "key") with false. cbv iota.
      eexists. split; [reflexivity|]. split; [reflexivity|].
      split; [reflexivity|intros _; reflexivity].
  - (* a MultiValue *)
    cbn [is_multi]. unfold members in Hm. cbn [is_multi] in Hm.
    destruct (get_prop (VObject MultiValue props) "values") as [vs| |] eqn:Eg;
      cbn [bind] in Hm; try discriminate.
    cbn [bind]. rewrite Hm. cbn [bind set_prop].
    change (inherited "values") with false. cbv iota.
    eexists. split; [reflexivity|]. split; [reflexivity|].
    split; [|discriminate].
    unfold members. cbn [is_multi get_prop]. rewrite assoc_set_same. reflexivity.
Qed.

Lemma assign_appends_a_member_witness :
  exists r,
    assign {| uniqueKeys := false; binSize := 4; attr := Some "k"%string;
              typeOpts := Some StringType |}
      (entry_v "a" 2) (entry_v "a" 1) = Ret r /\
    is_multi r = true /\
    members r = Ret ([entry_v "a" 1] ++ [entry_v "a" 2]) /\
    (is_multi (entry_v "a" 1) = false ->
     opt_getKey {| uniqueKeys := false; binSize := 4; attr := Some "k"%string;
                   typeOpts := Some StringType |} r = Ret (KString "a")).
Proof.
  apply (assign_appends_a_member
           {| uniqueKeys := false; binSize := 4; attr := Some "k"%string;
              typeOpts := Some StringType |}
           (entry_v "a" 2) (entry_v "a" 1) [entry_v "a" 1] "a"%string).
  - reflexivity.
  - reflexivity.
  - intros a [= <-]. split; [discriminate|reflexivity].
  - discriminate.
  - reflexivity.
  - reflexivity.
Defined.

(** X18.  With ["values"] as [attr] the key written into a fresh
    MultiValue replaces its member list: [assign] of two plain values
    returns a MultiValue whose [values] is the key string, and the two
    values are lost. *)
Theorem assign_with_attr_values_loses_the_members (o : options)
    (new old : value) (k : string) :
  uniqueKeys o = false -> typeOpts o = Some StringType ->
  attr o = Some "values"%string ->
  old <> VUndefined -> is_multi old = false ->
  opt_getKey o new = Ret (KString k) ->
  assign o new old = Ret (VObject MultiValue [("values"%string, VString k)]).
Proof.
  intros Hu Hty Ha Hold Hm Hk. unfold assign. rewrite Hu, Hm. cbn [orb].
  destruct old; try congruence; cbn [is_undefined]; rewrite Hk; cbn [bind];
    unfold opt_setKey; rewrite Hty, Ha; reflexivity.
Qed.

Lemma assign_with_attr_values_loses_the_members_witness :
  assign {| uniqueKeys := false; binSize := 4; attr := Some "values"%string;
            typeOpts := Some StringType |}
    (VObject PlainObject [("values"%string, VString "a"); ("v"%string, VNumber 2)])
    (VObject PlainObject [("values"%string, VString "a"); ("v"%string, VNumber 1)])
  = Ret (VObject MultiValue [("values"%string, VString "a")]).
Proof.
  apply (assign_with_attr_values_loses_the_members
           {| uniqueKeys := false; binSize := 4; attr := Some "values"%string;
              typeOpts := Some StringType |}
           (VObject PlainObject [("values"%string, VString "a"); ("v"%string, VNumber 2)])
           (VObject PlainObject [("values"%string, VString "a"); ("v"%string, VNumber 1)])
           "a"%string).
  - reflexivity.
  - reflexivity.
  - reflexivity.
  - discriminate.
  - reflexivity.
  - reflexivity.
Defined.
